(** * Lucentia: insight ranking/aggregation and cash-flow projection

    A shallow embedding of the algorithmic core of the Lucentia frontend:

    - the [Insights] component: [mergeSimilarInsights],
      [buildAllDomainSections] (with its local [pickTop] and [priorityRank]),
      [formatLabel] and [getDomainTitle];
    - the [Dashboard] component ([components/Dashboard.jsx]):
      [getPriorityRank], [parseTimestamp], [scoreInsight], [compareInsights],
      [getDiverseInsights], [average], [stddev], [toMonthKey],
      [monthKeyToDate], [formatCategoryLabel] and [buildFinancialProjection].

    Modelling conventions.

    - JavaScript numbers that are counts, ranks, scores or timestamps are
      integers ([Z] or [nat]); money amounts are IEEE 754 binary64 values,
      modelled by Rocq's primitive [float]s, whose operations are the ones
      the JavaScript engine performs.
    - A string field that is missing ([undefined]/[null]) is the empty
      string: the source tests such fields with [||], [!] or a table
      lookup, which treat both alike. The title of an insight and the key
      of a family, which the merger writes into its map key, are taken to
      be present.
    - Property names (family keys, priorities, category labels) are ordinary
      identifiers: names inherited from [Object.prototype] and array-index
      names are outside the modelled domain. Case mapping is the ASCII one.
    - [Array.prototype.sort] is stable; for a consistent comparator its
      result is the stable ordering, computed here by insertion.
    - A JavaScript [Map], and an object used as one, is an association list
      in insertion order; a [Set] of ids is a [gset].
    - A [for] or [forEach] loop is a fold with its state made explicit; the
      one [while] loop takes a bound on its iterations and is shown to
      return within it.

    The definitions of the code come first, then the vocabulary of the
    statements and the sample data, then the proofs. *)

From Stdlib Require Import ZArith List String Ascii Lia Permutation Sorted.
From Stdlib Require Import Floats.PrimFloat Numbers.Cyclic.Int63.Uint63.
From stdpp Require Import base gmap strings list pretty sorting.

#[local] Set Warnings "-inexact-float,-clear-no-such-hyp".

Local Open Scope string_scope.
Local Open Scope Z_scope.
Local Open Scope list_scope.

(* ================================================================== *)
(** * JavaScript library functions used by the source *)
(* ================================================================== *)

Section ArraySort.
Context {A : Type}.
Variable cmp : A -> A -> Z.

(** Places [x], which precedes every element of [l] in the original
    array, in front of the first element it does not have to follow. *)
Fixpoint sort_insert (x : A) (l : list A) : list A :=
  match l with
  | [] => [x]
  | y :: l' => if cmp x y <=? 0 then x :: y :: l' else y :: sort_insert x l'
  end.

(** [array.sort(cmp)] *)
Definition array_sort (l : list A) : list A := foldr sort_insert [] l.
End ArraySort.

(** [array.slice(-n)] *)
Definition slice_last {A : Type} (n : nat) (l : list A) : list A :=
  drop (length l - n)%nat l.

(** An insertion-ordered [Map] with string keys. *)
Section JsMap.
Context {V : Type}.

Definition JsMap := list (string * V).

Fixpoint map_get (k : string) (m : list (string * V)) : option V :=
  match m with
  | [] => None
  | (k', v) :: m' => if String.eqb k' k then Some v else map_get k m'
  end.

Definition map_has (k : string) (m : list (string * V)) : bool :=
  match map_get k m with Some _ => true | None => false end.

(** [map.set(k, v)]: an existing key keeps its position. *)
Fixpoint map_set (k : string) (v : V) (m : list (string * V)) : list (string * V) :=
  match m with
  | [] => [(k, v)]
  | (k', v') :: m' =>
      if String.eqb k' k then (k', v) :: m' else (k', v') :: map_set k v m'
  end.

Definition map_keys (m : list (string * V)) : list string := map fst m.
Definition map_values (m : list (string * V)) : list V := map snd m.
End JsMap.
Arguments JsMap : clear implicits.

(** ASCII case mapping, standing for [toUpperCase]/[toLowerCase]. *)
Definition upper_ascii (c : ascii) : ascii :=
  let n := nat_of_ascii c in
  if ((97 <=? n) && (n <=? 122))%nat then ascii_of_nat (n - 32) else c.

Definition lower_ascii (c : ascii) : ascii :=
  let n := nat_of_ascii c in
  if ((65 <=? n) && (n <=? 90))%nat then ascii_of_nat (n + 32) else c.

Fixpoint map_string (f : ascii -> ascii) (s : string) : string :=
  match s with
  | EmptyString => EmptyString
  | String c s' => String (f c) (map_string f s')
  end.

(** The character class [\w]. *)
Definition is_word_char (c : ascii) : bool :=
  let n := nat_of_ascii c in
  (((48 <=? n) && (n <=? 57)) || ((65 <=? n) && (n <=? 90))
   || ((97 <=? n) && (n <=? 122)) || (n =? 95))%nat.

(** [s.split(sep)] for a one-character separator. *)
Fixpoint split_on (sep : ascii) (s : string) : list string :=
  match s with
  | EmptyString => [EmptyString]
  | String c s' =>
      if Ascii.eqb c sep then EmptyString :: split_on sep s'
      else match split_on sep s' with
           | [] => [String c EmptyString]
           | w :: ws => String c w :: ws
           end
  end.

(** [words.join(sep)] *)
Fixpoint join_with (sep : string) (ws : list string) : string :=
  match ws with
  | [] => EmptyString
  | [w] => w
  | w :: ws' => w +:+ sep +:+ join_with sep ws'
  end.

(* ================================================================== *)
(** * Data model *)
(* ================================================================== *)

(** The [created_at]/[updated_at] fields as [Date.parse] sees them. *)
Inductive Timestamp :=
| TsMissing                (* absent or empty: falsy *)
| TsUnparseable            (* a string [Date.parse] maps to NaN *)
| TsTime (ms : Z).         (* milliseconds since the epoch *)

Record Insight := {
  insight_id : string;
  title : string;
  description : string;
  priority : string;
  created_at : Timestamp;
  updated_at : Timestamp;
  family : string;
  familyKey : string;
  familyName : string;
  familyDescription : string;
  domainKey : string;
  domainName : string;
  domainDescription : string;
}.

Record Family := {
  fam_key : string;
  fam_name : string;
  fam_description : string;
  fam_insights : list Insight;
}.

Record Domain := {
  dom_key : string;
  dom_name : string;
  dom_description : string;
  dom_families : list Family;
}.

(* ================================================================== *)
(** * The Insights component *)
(* ================================================================== *)

(** [rank] of [mergeSimilarInsights]:
    [({ high: 0, medium: 1, low: 2 }[priority] ?? 3)]. *)
Definition rank (p : string) : Z :=
  if String.eqb p "high" then 0
  else if String.eqb p "medium" then 1
  else if String.eqb p "low" then 2
  else 3.

(** The map key [`${family.key}|${insight.title}`]. *)
Definition mergeKey (familyKeyOf titleOf : string) : string :=
  familyKeyOf +:+ "|" +:+ titleOf.

(** [{ ...insight, domainKey: domain.key, ..., familyDescription }] *)
Definition annotate (domain : Domain) (fam : Family) (insight : Insight) : Insight :=
  {| insight_id := insight_id insight;
     title := title insight;
     description := description insight;
     priority := priority insight;
     created_at := created_at insight;
     updated_at := updated_at insight;
     family := family insight;
     familyKey := fam_key fam;
     familyName := fam_name fam;
     familyDescription := fam_description fam;
     domainKey := dom_key domain;
     domainName := dom_name domain;
     domainDescription := dom_description domain |}.

(** The body of the innermost [forEach]. *)
Definition mergeInsight (domain : Domain) (fam : Family)
    (map : JsMap Insight) (insight : Insight) : JsMap Insight :=
  let key := mergeKey (fam_key fam) (title insight) in
  let replace :=
    match map_get key map with
    | None => true
    | Some kept => rank (priority insight) <? rank (priority kept)
    end in
  if replace then map_set key (annotate domain fam insight) map else map.

Definition mergeFamily (domain : Domain) (map : JsMap Insight) (fam : Family)
    : JsMap Insight :=
  foldl (mergeInsight domain fam) map (fam_insights fam).

Definition mergeDomain (map : JsMap Insight) (domain : Domain) : JsMap Insight :=
  foldl (mergeFamily domain) map (dom_families domain).

Definition mergeSimilarInsights (domains : list Domain) : list Insight :=
  map_values (foldl mergeDomain [] domains).

(** [formatLabel]: underscores become spaces, then every word start
    ([\b\w]) is upper-cased. *)
Fixpoint capitalize_words (prev_is_word : bool) (s : string) : string :=
  match s with
  | EmptyString => EmptyString
  | String c s' =>
      let c' := if is_word_char c && negb prev_is_word then upper_ascii c else c in
      String c' (capitalize_words (is_word_char c) s')
  end.

Definition formatLabel (label : string) : string :=
  capitalize_words false
    (map_string (fun c => if Ascii.eqb c "_"%char then " "%char else c) label).

Definition getDomainTitle (key : string) : string :=
  if String.eqb key "spending_patterns" then "Spending Patterns"
  else if String.eqb key "spending_trends" then "Spending Trends"
  else if String.eqb key "optimization_rewards" then "Optimization & Rewards"
  else if String.eqb key "behavior_lifestyle" then "Behavior & Lifestyle"
  else if String.eqb key "sustainability_local" then "Sustainability & Local Impact"
  else formatLabel key.

Record DomainGroup := {
  dg_key : string;
  dg_title : string;
  dg_insights : list Insight;
}.

Record Sections := {
  keyHighlights : list Insight;
  majorSpending : list Insight;
  crossDomain : list Insight;
  byDomain : list DomainGroup;
}.

Definition MAX_TOTAL : nat := 15.

(** [priorityRank] of [buildAllDomainSections] *)
Definition priorityRank (item : Insight) : Z := rank (priority item).

(** The comparator [(a, b) => priorityRank(a) - priorityRank(b)]. *)
Definition byPriorityRank (a b : Insight) : Z := priorityRank a - priorityRank b.

(** [sorted.forEach((insight) => selected.add(insight.id))] *)
Definition addAll (selected : gset string) (picked : list Insight) : gset string :=
  foldl (fun s insight => {[ insight_id insight ]} ∪ s) selected picked.

(** [pickTop(filterFn, limit)], threading the [selected] set it updates. *)
Definition pickTop (insights : list Insight) (filterFn : Insight -> bool)
    (limit : nat) (selected : gset string) : list Insight * gset string :=
  let sorted := take limit (array_sort byPriorityRank (filter filterFn insights)) in
  (sorted, addAll selected sorted).

Definition isMajorSpending (i : Insight) : bool :=
  String.eqb (familyKey i) "category_trend".

Definition crossDomainFamilies : list string :=
  ["cross_user_affinity"; "delivery_vs_grocery"; "subscription_volume";
   "subscription_price_change"].

Definition isCrossDomain (i : Insight) : bool :=
  existsb (String.eqb (familyKey i)) crossDomainFamilies.

Definition domainOrder : list string :=
  ["spending_patterns"; "spending_trends"; "optimization_rewards";
   "behavior_lifestyle"; "sustainability_local"].

(** The body of [domainOrder.forEach]. *)
Definition domainStep (insights : list Insight)
    (st : list DomainGroup * gset string) (domainKeyOf : string)
    : list DomainGroup * gset string :=
  let '(domainGroups, selected) := st in
  let domainInsights :=
    take 2 (array_sort byPriorityRank
      (filter (fun i => String.eqb (domainKey i) domainKeyOf
                        && negb (bool_decide (insight_id i ∈ selected)))
              insights)) in
  let selected' := addAll selected domainInsights in
  match domainInsights with
  | [] => (domainGroups, selected')
  | _ => (domainGroups ++ [{| dg_key := domainKeyOf;
                              dg_title := getDomainTitle domainKeyOf;
                              dg_insights := domainInsights |}], selected')
  end.

(** [while (group.insights.length && excess > 0) { pop; excess -= 1 }] *)
Fixpoint popWhile (groupInsights : list Insight) (excess : nat)
    : list Insight * nat :=
  match excess with
  | O => (groupInsights, O)
  | S e =>
      match groupInsights with
      | [] => (groupInsights, excess)
      | _ => popWhile (removelast groupInsights) e
      end
  end.

(** [for (let i = domainGroups.length - 1; i >= 0 && excess > 0; i--)]:
    the first argument is [i + 1]. *)
Fixpoint trimGroups (i1 : nat) (domainGroups : list DomainGroup) (excess : nat)
    : list DomainGroup :=
  match i1 with
  | O => domainGroups
  | S i =>
      if (excess =? 0)%nat then domainGroups
      else
        match domainGroups !! i with
        | None => domainGroups
        | Some group =>
            let '(rest, excess') := popWhile (dg_insights group) excess in
            let domainGroups' :=
              match rest with
              | [] => delete i domainGroups
              | _ => <[ i := {| dg_key := dg_key group;
                                dg_title := dg_title group;
                                dg_insights := rest |} ]> domainGroups
              end in
            trimGroups i domainGroups' excess'
        end
  end.

Definition domainTotal (domainGroups : list DomainGroup) : nat :=
  foldl (fun sum group => (sum + length (dg_insights group))%nat) 0%nat domainGroups.

(** The selection, before the cap is applied: the three [pickTop] groups
    and the groups of [domainOrder.forEach]. *)
Definition selectSections (insights : list Insight) : Sections :=
  let selected : gset string := ∅ in
  let '(keyHighlights0, selected) := pickTop insights (fun _ => true) 5 selected in
  let '(majorSpending0, selected) := pickTop insights isMajorSpending 3 selected in
  let '(crossDomain0, selected) := pickTop insights isCrossDomain 3 selected in
  let '(domainGroups, _) := foldl (domainStep insights) ([], selected) domainOrder in
  {| keyHighlights := keyHighlights0;
     majorSpending := majorSpending0;
     crossDomain := crossDomain0;
     byDomain := domainGroups |}.

(** [if (totalUsed > MAX_TOTAL) { ... }]: truncate domain groups if over
    limit. *)
Definition truncateSections (s : Sections) : Sections :=
  let domainGroups := byDomain s in
  let totalUsed :=
    (length (keyHighlights s) + length (majorSpending s) + length (crossDomain s)
     + domainTotal domainGroups)%nat in
  let domainGroups :=
    if (MAX_TOTAL <? totalUsed)%nat
    then trimGroups (length domainGroups) domainGroups (totalUsed - MAX_TOTAL)
    else domainGroups in
  {| keyHighlights := keyHighlights s;
     majorSpending := majorSpending s;
     crossDomain := crossDomain s;
     byDomain := domainGroups |}.

Definition buildAllDomainSections (insights : list Insight) : Sections :=
  truncateSections (selectSections insights).

(** The insights of the domain groups, in display order. *)
Definition domainInsightsOf (s : Sections) : list Insight :=
  concat (map dg_insights (byDomain s)).

(** Number of insights over the four returned groups. *)
Definition totalSelected (s : Sections) : nat :=
  (length (keyHighlights s) + length (majorSpending s) + length (crossDomain s)
   + length (domainInsightsOf s))%nat.

(* ================================================================== *)
(** * The Dashboard component: scoring and the diversity selector *)
(* ================================================================== *)

(** The table [PRIORITY_RANK]; [None] is [undefined]. *)
Definition PRIORITY_RANK (value : string) : option Z :=
  if String.eqb value "high" then Some 0
  else if String.eqb value "medium" then Some 1
  else if String.eqb value "low" then Some 2
  else None.

(** [getPriorityRank] *)
Definition getPriorityRank (value : string) : Z :=
  if String.eqb value "" then 3
  else
    let normalized := map_string lower_ascii value in
    default 3 (PRIORITY_RANK normalized).

(** [parseTimestamp] *)
Definition parseTimestamp (value : Timestamp) : Z :=
  match value with
  | TsTime ms => ms
  | TsMissing | TsUnparseable => 0
  end.

(** [a || b] on timestamps and on strings. *)
Definition ts_or (a b : Timestamp) : Timestamp :=
  match a with TsMissing => b | _ => a end.

Definition str_or (a b : string) : string :=
  if String.eqb a "" then b else a.

(** The table [QUICK_SCALE]; [None] is [undefined]. *)
Definition QUICK_SCALE (familyOf : string) : option Z :=
  if String.eqb familyOf "restaurant_comeback" then Some 5
  else if String.eqb familyOf "favorite_restaurant_push" then Some 5
  else if String.eqb familyOf "payment_method_optimization" then Some 5
  else if String.eqb familyOf "category_subscription_opportunity" then Some 5
  else if String.eqb familyOf "cross_user_affinity" then Some 4
  else if String.eqb familyOf "merchant_loyalty" then Some 4
  else if String.eqb familyOf "merchant_bundling" then Some 4
  else if String.eqb familyOf "duplicate_services" then Some 4
  else if String.eqb familyOf "duplicate_subscription" then Some 4
  else if String.eqb familyOf "category_spike" then Some 4
  else if String.eqb familyOf "category_trend" then Some 3
  else if String.eqb familyOf "fee_detection" then Some 3
  else if String.eqb familyOf "balance_warning" then Some 5
  else if String.eqb familyOf "cash_buffer" then Some 5
  else if String.eqb familyOf "air_travel_footprint" then Some 3
  else if String.eqb familyOf "default" then Some 2
  else None.

Record Score := {
  priorityScore : Z;
  quickScore : Z;
  recencyScore : Z;
}.

Definition scoreInsight (insight : Insight) : Score :=
  let familyOf := str_or (familyKey insight) (family insight) in
  {| priorityScore := getPriorityRank (priority insight);
     recencyScore := - parseTimestamp (ts_or (created_at insight) (updated_at insight));
     quickScore := match QUICK_SCALE familyOf with
                   | Some q => q
                   | None => default 0 (QUICK_SCALE "default")
                   end |}.

Definition compareInsights (a b : Insight) : Z :=
  let aScore := scoreInsight a in
  let bScore := scoreInsight b in
  if negb (quickScore aScore =? quickScore bScore)
  then quickScore bScore - quickScore aScore
  else if negb (priorityScore aScore =? priorityScore bScore)
  then priorityScore aScore - priorityScore bScore
  else recencyScore aScore - recencyScore bScore.

Record Bucket := {
  bucket_familyKey : string;
  bucket_insights : list Insight;
}.

(** [insight.family || insight.familyKey || 'uncategorized'] *)
Definition bucketKeyOf (insight : Insight) : string :=
  str_or (family insight) (str_or (familyKey insight) "uncategorized").

(** The reducer that groups the insights; the accumulator object keeps
    its keys in insertion order. *)
Definition groupInsight (acc : JsMap Bucket) (insight : Insight) : JsMap Bucket :=
  let key := bucketKeyOf insight in
  let acc :=
    match map_get key acc with
    | None => map_set key {| bucket_familyKey := key; bucket_insights := [] |} acc
    | Some _ => acc
    end in
  match map_get key acc with
  | Some bucket =>
      map_set key {| bucket_familyKey := bucket_familyKey bucket;
                     bucket_insights := bucket_insights bucket ++ [insight] |} acc
  | None => acc
  end.

Definition groupBuckets (insights : list Insight) : list Bucket :=
  map_values (foldl groupInsight [] insights).

(** [bucket.insights.sort(compareInsights)] *)
Definition sortBucket (bucket : Bucket) : Bucket :=
  {| bucket_familyKey := bucket_familyKey bucket;
     bucket_insights := array_sort compareInsights (bucket_insights bucket) |}.

(** The comparator of [sortBuckets]. *)
Definition compareBuckets (a b : Bucket) : Z :=
  match bucket_insights a, bucket_insights b with
  | [], [] => 0
  | [], _ :: _ => 1
  | _ :: _, [] => -1
  | ha :: _, hb :: _ => compareInsights ha hb
  end.

Definition sortBuckets (buckets : list Bucket) : list Bucket :=
  array_sort compareBuckets buckets.

(** One run of [for (const bucket of buckets)]: the buckets after the run,
    the selection and [addedInPass]. A [break] leaves the remaining buckets
    untouched. *)
Fixpoint forBuckets (limit : nat) (buckets : list Bucket)
    (selection : list Insight) (addedInPass : bool)
    : list Bucket * list Insight * bool :=
  match buckets with
  | [] => ([], selection, addedInPass)
  | bucket :: rest =>
      match bucket_insights bucket with
      | [] =>
          let '(rest', selection', added') :=
            forBuckets limit rest selection addedInPass in
          (bucket :: rest', selection', added')
      | head :: tail =>
          let shifted := {| bucket_familyKey := bucket_familyKey bucket;
                            bucket_insights := tail |} in
          let selection := selection ++ [head] in
          if (length selection =? limit)%nat
          then (shifted :: rest, selection, true)
          else
            let '(rest', selection', added') :=
              forBuckets limit rest selection true in
            (shifted :: rest', selection', added')
      end
  end.

(** [while (selection.length < limit)]; [None] when [fuel] iterations do
    not finish the loop. *)
Fixpoint whileSelecting (fuel limit : nat) (buckets : list Bucket)
    (selection : list Insight) : option (list Insight) :=
  if (length selection <? limit)%nat then
    match fuel with
    | O => None
    | S fuel' =>
        let '(buckets', selection', addedInPass) :=
          forBuckets limit buckets selection false in
        if addedInPass
        then whileSelecting fuel' limit (sortBuckets buckets') selection'
        else Some selection'
    end
  else Some selection.

(** The buckets as the loop starts on them: grouped, each sorted, then
    sorted by their heads. *)
Definition preparedBuckets (insights : list Insight) : list Bucket :=
  sortBuckets (map sortBucket (groupBuckets insights)).

(** [getDiverseInsights(insights, limit)]. Every iteration of the loop but
    the last adds to the selection, so [limit + 1] iterations suffice. *)
Definition getDiverseInsights (insights : list Insight) (limit : nat)
    : option (list Insight) :=
  match insights with
  | [] => Some []
  | _ =>
      whileSelecting (S limit) limit (preparedBuckets insights) []
  end.

(* ================================================================== *)
(** * The Dashboard component: the projection engine *)
(* ================================================================== *)

(** Truthiness of a number: false for [0], [-0] and [NaN]. *)
Definition num_truthy (x : float) : bool :=
  negb (PrimFloat.is_nan x || PrimFloat.eqb x 0%float).

(** [x || d] on numbers. *)
Definition num_or (x d : float) : float := if num_truthy x then x else d.

(** [values.length] as a number. *)
Definition num_of_nat (n : nat) : float :=
  PrimFloat.of_uint63 (Uint63.of_Z (Z.of_nat n)).

Definition average (values : list float) : float :=
  match values with
  | [] => 0%float
  | _ => (foldl PrimFloat.add 0 values / num_of_nat (length values))%float
  end.

(** [stddev]; the square [(value - avg) ** 2] is the product. *)
Definition stddev (values : list float) : float :=
  if (length values <? 2)%nat then 0%float
  else
    let avg := average values in
    let variance := average (map (fun value => ((value - avg) * (value - avg))%float) values) in
    PrimFloat.sqrt variance.

(** A [Date] is represented by its UTC calendar month, counted as
    [12 * year + monthIndex]: the source reads dates only through
    [getUTCFullYear] and [getUTCMonth], builds them on the first of a
    month, and compares such dates with each other. *)
Definition getUTCFullYear (date : Z) : Z := date / 12.
Definition getUTCMonth (date : Z) : Z := date mod 12.

(** [Date.UTC(year, monthIndex, 1)]; years 0 to 99 stand for 1900 to 1999. *)
Definition DateUTC (year monthIndex : Z) : Z :=
  (if (0 <=? year) && (year <=? 99) then 1900 + year else year) * 12 + monthIndex.

(** [String(n).padStart(2, '0')] *)
Definition padStart2 (s : string) : string :=
  if (String.length s <? 2)%nat then
    (if (String.length s <? 1)%nat then "00" else "0" +:+ s)
  else s.

Definition toMonthKey (date : Z) : string :=
  pretty (getUTCFullYear date) +:+ "-" +:+ padStart2 (pretty (getUTCMonth date + 1)).

(** [Number(value)] on a string of decimal digits; the empty string is 0.
    The pieces of a month key are of this form. *)
Definition numberOfDigits (s : string) : Z :=
  foldl (fun acc c => acc * 10 + (Z.of_nat (nat_of_ascii c) - 48)) 0
        (list_ascii_of_string s).

(** [monthKeyToDate]: the first two pieces of the key are the year and the
    month; a month key always has both. *)
Definition monthKeyToDate (key : string) : Z :=
  match map numberOfDigits (split_on "-"%char key) with
  | year :: month :: _ => DateUTC year (month - 1)
  | _ => 0
  end.

Definition MONTH_NAMES : list string :=
  ["Jan"; "Feb"; "Mar"; "Apr"; "May"; "Jun"; "Jul"; "Aug"; "Sep"; "Oct"; "Nov"; "Dec"].

Definition getMonthLabel (date : Z) (projected : bool) : string :=
  let base := nth (Z.to_nat (getUTCMonth date)) MONTH_NAMES "" in
  if projected then base +:+ " (Projected)" else base.

(** [word.charAt(0).toUpperCase() + word.slice(1)] *)
Definition capitalize (word : string) : string :=
  match word with
  | EmptyString => EmptyString
  | String c rest => String (upper_ascii c) rest
  end.

Definition formatCategoryLabel (label : string) : string :=
  if String.eqb label "" then "General"
  else join_with " " (map capitalize (split_on "_"%char (map_string lower_ascii label))).

(** A transaction as the engine reads it: [date] is the month of
    [new Date(transaction.date)], [None] when that date is invalid;
    [amount] is [Number(transaction.amount)], NaN when it is not numeric. *)
Record Transaction := {
  date : option Z;
  amount : float;
  category_primary : string;
}.

(** [currentBalance] *)
Inductive Balance :=
| BalanceNull
| BalanceUndefined
| BalanceNumber (value : float).

Record MonthBucket := {
  mb_income : float;
  mb_spending : float;
  mb_categories : JsMap float;
  mb_incomeEvents : list float;
  mb_spendingEvents : list float;
  mb_sampleTransactions : list Transaction;
}.

Definition newBucket : MonthBucket :=
  {| mb_income := 0; mb_spending := 0; mb_categories := [];
     mb_incomeEvents := []; mb_spendingEvents := []; mb_sampleTransactions := [] |}.

(** What the callback of [transactions.forEach] does to a bucket. *)
Definition recordTransaction (bucket : MonthBucket) (transaction : Transaction)
    : MonthBucket :=
  let amountOf := num_or (amount transaction) 0 in
  let category := formatCategoryLabel (str_or (category_primary transaction) "Other") in
  let samples := mb_sampleTransactions bucket ++ [transaction] in
  if PrimFloat.ltb amountOf 0 then
    let incomeAmount := PrimFloat.abs amountOf in
    {| mb_income := (mb_income bucket + incomeAmount)%float;
       mb_spending := mb_spending bucket;
       mb_categories := mb_categories bucket;
       mb_incomeEvents := mb_incomeEvents bucket ++ [incomeAmount];
       mb_spendingEvents := mb_spendingEvents bucket;
       mb_sampleTransactions := samples |}
  else
    let previous :=
      match map_get category (mb_categories bucket) with
      | Some v => num_or v 0
      | None => 0%float
      end in
    {| mb_income := mb_income bucket;
       mb_spending := (mb_spending bucket + amountOf)%float;
       mb_categories := map_set category (previous + amountOf)%float (mb_categories bucket);
       mb_incomeEvents := mb_incomeEvents bucket;
       mb_spendingEvents := mb_spendingEvents bucket ++ [amountOf];
       mb_sampleTransactions := samples |}.

(** The callback of [transactions.forEach]. *)
Definition bucketTransaction (monthBuckets : JsMap MonthBucket)
    (transaction : Transaction) : JsMap MonthBucket :=
  match date transaction with
  | None => monthBuckets
  | Some d =>
      let key := toMonthKey d in
      let monthBuckets :=
        if map_has key monthBuckets then monthBuckets
        else map_set key newBucket monthBuckets in
      match map_get key monthBuckets with
      | Some bucket => map_set key (recordTransaction bucket transaction) monthBuckets
      | None => monthBuckets
      end
  end.

(** [string.localeCompare]-free default order of [keys.sort()]: code units. *)
Definition compareStrings (a b : string) : Z :=
  match String.compare a b with
  | Lt => -1
  | Eq => 0
  | Gt => 1
  end.

Record MonthlyData := {
  md_key : string;
  md_date : Z;
  md_label : string;
  md_income : float;
  md_spending : float;
  md_net : float;
  md_categories : JsMap float;
  md_incomeEvents : list float;
  md_spendingEvents : list float;
  md_sampleTransactions : list Transaction;
}.

Definition monthlyEntry (monthBuckets : JsMap MonthBucket) (key : string)
    : MonthlyData :=
  let bucket := default newBucket (map_get key monthBuckets) in
  let dateOf := monthKeyToDate key in
  {| md_key := key;
     md_date := dateOf;
     md_label := getMonthLabel dateOf false;
     md_income := mb_income bucket;
     md_spending := mb_spending bucket;
     md_net := (mb_income bucket - mb_spending bucket)%float;
     md_categories := mb_categories bucket;
     md_incomeEvents := mb_incomeEvents bucket;
     md_spendingEvents := mb_spendingEvents bucket;
     md_sampleTransactions := mb_sampleTransactions bucket |}.

Definition MAX_HISTORY : nat := 6.
Definition FUTURE_MONTHS : nat := 4.

(** [monthlyData], from bucketing to the six most recent keys. *)
Definition buildMonthlyData (transactions : list Transaction) : list MonthlyData :=
  let monthBuckets := foldl bucketTransaction [] transactions in
  let orderedKeys := array_sort compareStrings (map_keys monthBuckets) in
  let selectedKeys := slice_last MAX_HISTORY orderedKeys in
  map (monthlyEntry monthBuckets) selectedKeys.

Inductive Confidence := high | medium | low.

Definition classifyConfidence (avgIncome incomeStd : float) : Confidence :=
  if PrimFloat.ltb 0 avgIncome then
    let varianceRatio := (incomeStd / avgIncome)%float in
    if PrimFloat.ltb varianceRatio 0.2 then high
    else if PrimFloat.ltb varianceRatio 0.45 then medium
    else low
  else low.

(** An entry of [historicalLine]: a month and its reconstructed balance. *)
Record HistoricalPoint := {
  hp_entry : MonthlyData;
  hp_balance : float;
}.

(** [reversed.forEach]: push the running balance, then take the month's
    net off it. *)
Definition walkBack (st : list HistoricalPoint * float) (entry : MonthlyData)
    : list HistoricalPoint * float :=
  let '(historicalLine, runningBalance) := st in
  (historicalLine ++ [{| hp_entry := entry; hp_balance := runningBalance |}],
   (runningBalance - md_net entry)%float).

(** An entry of [projections]. *)
Record ProjectionPoint := {
  pp_label : string;
  pp_date : Z;
  pp_projectedIncome : float;
  pp_projectedSpending : float;
  pp_projectedNet : float;
  projectedBalance : float;
  upperBalance : float;
  lowerBalance : float;
}.

(** The body of [for (let i = 1; i <= FUTURE_MONTHS; i += 1)], on the
    state [(projections, projectedBalance, upperBalance, lowerBalance)]. *)
Definition projectMonth (lastDate : Z) (avgIncome avgSpending netChange volatility : float)
    (st : list ProjectionPoint * float * float * float) (i : nat)
    : list ProjectionPoint * float * float * float :=
  let '(projections, projectedBalance0, upperBalance0, lowerBalance0) := st in
  let futureDate := DateUTC (getUTCFullYear lastDate) (getUTCMonth lastDate + Z.of_nat i) in
  let projectedBalance1 := (projectedBalance0 + netChange)%float in
  let upperBalance1 := (upperBalance0 + (netChange + volatility))%float in
  let lowerBalance1 := (lowerBalance0 + (netChange - volatility))%float in
  (projections ++ [{| pp_label := getMonthLabel futureDate true;
                      pp_date := futureDate;
                      pp_projectedIncome := avgIncome;
                      pp_projectedSpending := avgSpending;
                      pp_projectedNet := netChange;
                      projectedBalance := projectedBalance1;
                      upperBalance := upperBalance1;
                      lowerBalance := lowerBalance1 |}],
   projectedBalance1, upperBalance1, lowerBalance1).

(** A point of the timeline: a historical month or a forecast month. *)
Inductive TimelineEntry :=
| HistoricalEntry (label : string) (dateOf : Z) (actualBalance : float)
    (income spending net : float) (anomaly : bool)
| ForecastEntry (label : string) (dateOf : Z)
    (projectedBalanceOf lowerBound upperBound : float)
    (incomeConfidenceOf : Confidence).

Inductive RiskIndicator :=
| RiskSpendingExceededIncome   (* 'Spending exceeded income in most recent months.' *)
| RiskBelowZero                (* 'Trajectory could dip below zero based on downside scenario.' *)
| RiskLowConfidence.           (* 'Income pattern is inconsistent ...' *)

Inductive Reason := collecting | insufficient.

(** The populated projection. The formatted strings [outlookSummary],
    [windowLabel], [topCategories] and [categoryImpacts] and the chart
    field [coneHeight] are not part of the model. *)
Record ProjectionData := {
  timeline : list TimelineEntry;
  riskIndicators : list RiskIndicator;
  incomeConfidence : Confidence;
  expectedIncome : float;
  expectedSpending : float;
  projectedNet : float;
}.

Inductive Projection :=
| NoData (reason : Reason)          (* { hasData: false, reason } *)
| HasData (data : ProjectionData).  (* { hasData: true, ... } *)

Definition byDateAscending (a b : MonthlyData) : Z := md_date a - md_date b.
Definition byDateDescending (a b : MonthlyData) : Z := md_date b - md_date a.

(** The statistics of the window. *)
Definition avgIncomeOf (monthlyData : list MonthlyData) : float :=
  average (filter (fun value => PrimFloat.ltb 0 value) (map md_income monthlyData)).

Definition avgSpendingOf (monthlyData : list MonthlyData) : float :=
  average (map md_spending monthlyData).

Definition spendingStdOf (monthlyData : list MonthlyData) : float :=
  stddev (map md_spending monthlyData).

Definition netChangeOf (monthlyData : list MonthlyData) : float :=
  (avgIncomeOf monthlyData - avgSpendingOf monthlyData)%float.

Definition volatilityOf (monthlyData : list MonthlyData) : float :=
  num_or (spendingStdOf monthlyData) (avgSpendingOf monthlyData * 0.15)%float.

Definition incomeConfidenceOf (monthlyData : list MonthlyData) : Confidence :=
  classifyConfidence (avgIncomeOf monthlyData)
                     (stddev (concat (map md_incomeEvents monthlyData))).

(** [historicalLine]: the window walked from the most recent month back,
    then reversed. *)
Definition historicalLineOf (monthlyData : list MonthlyData) (currentBalance : float)
    : list HistoricalPoint :=
  let historical := array_sort byDateAscending monthlyData in
  let runningBalance := num_or currentBalance 0 in
  let reversed := array_sort byDateDescending historical in
  rev (fst (foldl walkBack ([], runningBalance) reversed)).

(** [projections]; [now] is the month of [new Date()], read only when there
    is no historical month. *)
Definition projectionsOf (now : Z) (monthlyData : list MonthlyData)
    (currentBalance : float) : list ProjectionPoint :=
  let line := historicalLineOf monthlyData currentBalance in
  let lastHistoricalBalance :=
    match last line with
    | Some point => num_or (hp_balance point) 0
    | None => num_or currentBalance 0
    end in
  let lastDate :=
    match last line with
    | Some point => md_date (hp_entry point)
    | None => now
    end in
  let '(points, _, _, _) :=
    foldl (projectMonth lastDate (avgIncomeOf monthlyData) (avgSpendingOf monthlyData)
                        (netChangeOf monthlyData) (volatilityOf monthlyData))
          ([], lastHistoricalBalance, lastHistoricalBalance, lastHistoricalBalance)
          (seq 1 FUTURE_MONTHS) in
  points.

(** The populated branch of [buildFinancialProjection]. *)
Definition projectFrom (now : Z) (monthlyData : list MonthlyData)
    (currentBalance : float) : ProjectionData :=
  let avgSpending := avgSpendingOf monthlyData in
  let spendingStd := spendingStdOf monthlyData in
  let confidence := incomeConfidenceOf monthlyData in
  let line := historicalLineOf monthlyData currentBalance in
  let points := projectionsOf now monthlyData currentBalance in
  let timelineOf :=
    map (fun point =>
           let entry := hp_entry point in
           HistoricalEntry (md_label entry) (md_date entry) (hp_balance point)
             (md_income entry) (md_spending entry) (md_net entry)
             (PrimFloat.ltb 0 spendingStd
              && PrimFloat.ltb (avgSpending + spendingStd * 1.8)%float (md_spending entry)))
        line
    ++ map (fun entry =>
              ForecastEntry (pp_label entry) (pp_date entry) (projectedBalance entry)
                (lowerBalance entry) (upperBalance entry) confidence)
           points in
  let negativeMonths :=
    length (filter (fun month => PrimFloat.ltb (md_net month) 0) monthlyData) in
  let risks :=
    (if (2 <=? negativeMonths)%nat then [RiskSpendingExceededIncome] else [])
    ++ (match last points with
        | Some final => if PrimFloat.ltb (lowerBalance final) 0 then [RiskBelowZero] else []
        | None => []
        end)
    ++ (match confidence with low => [RiskLowConfidence] | _ => [] end) in
  {| timeline := timelineOf;
     riskIndicators := risks;
     incomeConfidence := confidence;
     expectedIncome := avgIncomeOf monthlyData;
     expectedSpending := avgSpending;
     projectedNet := netChangeOf monthlyData |}.

(** [buildFinancialProjection(transactions, currentBalance)] *)
Definition buildFinancialProjection (now : Z) (transactions : list Transaction)
    (currentBalance : Balance) : Projection :=
  match transactions, currentBalance with
  | [], _ | _, BalanceNull | _, BalanceUndefined => NoData collecting
  | _ :: _, BalanceNumber balance =>
      let monthlyData := buildMonthlyData transactions in
      if (length monthlyData <? 3)%nat then NoData insufficient
      else HasData (projectFrom now monthlyData balance)
  end.

(* ================================================================== *)
(** * Vocabulary of the statements *)
(* ================================================================== *)

(** ** Orders *)

(** The order a comparator stands for. *)
Definition cmp_le {A : Type} (cmp : A -> A -> Z) (x y : A) : Prop := cmp x y <= 0.


(** ** The section allocator *)

(** The ids recorded in [selected] by the three calls of [pickTop]. *)
Definition selectedByPicks (insights : list Insight) : gset string :=
  (pickTop insights isCrossDomain 3
     (pickTop insights isMajorSpending 3
        (pickTop insights (λ _, true) 5 ∅).2).2).2.

(** What holds of the state of [domainOrder.forEach] at every step, for a
    set [claimed] of ids selected before the loop. *)
Definition domainInv (claimed : gset string)
    (st : list DomainGroup * gset string) : Prop :=
  claimed ⊆ st.2
  ∧ (∀ g i, g ∈ st.1 → i ∈ dg_insights g →
       insight_id i ∈ st.2 ∧ insight_id i ∉ claimed)
  ∧ (∀ j k g1 g2 i1 i2, (j < k)%nat → st.1 !! j = Some g1 → st.1 !! k = Some g2 →
       i1 ∈ dg_insights g1 → i2 ∈ dg_insights g2 → insight_id i1 ≠ insight_id i2)
  ∧ Forall (λ g, dg_insights g ≠ [] ∧ (length (dg_insights g) ≤ 2)%nat) st.1.

(** Every group of [kept] is the group of [groups] at the same position,
    cut down to a prefix of its insights. *)
Definition keptPrefix (groups kept : list DomainGroup) : Prop :=
  ∀ j g', kept !! j = Some g' →
    ∃ g, groups !! j = Some g ∧ dg_key g' = dg_key g ∧ dg_title g' = dg_title g
         ∧ dg_insights g' `prefix_of` dg_insights g.

(** The ids of the four returned groups. *)
Definition groupIds (s : Sections) : list (list string) :=
  [map insight_id (keyHighlights s); map insight_id (majorSpending s);
   map insight_id (crossDomain s); map insight_id (domainInsightsOf s)].

(** No id occurs in two of the four groups. *)
Definition noIdInTwoGroups (s : Sections) : Prop :=
  ∀ a b ga gb x, a ≠ b → groupIds s !! a = Some ga → groupIds s !! b = Some gb →
    x ∈ ga → x ∉ gb.


(** ** The merger *)

(** The insights in traversal order (domain, then family, then insight),
    each annotated with its domain and family. *)
Definition traversal (domains : list Domain) : list Insight :=
  concat (map (λ domain,
            concat (map (λ fam, map (annotate domain fam) (fam_insights fam))
                        (dom_families domain)))
          domains).

(** The map key of an annotated insight. *)
Definition keyOf (insight : Insight) : string :=
  mergeKey (familyKey insight) (title insight).

(** The body of the innermost [forEach], on an annotated insight. *)
Definition mergeAnnotated (map : JsMap Insight) (annotated : Insight) : JsMap Insight :=
  let replace :=
    match map_get (keyOf annotated) map with
    | None => true
    | Some kept => rank (priority annotated) <? rank (priority kept)
    end in
  if replace then map_set (keyOf annotated) annotated map else map.

(** [y] is the insight kept for the colliders [collides] of [seen]: it is
    one of them, every collider seen before it has a strictly higher rank
    and every collider seen after it has no lower rank. *)
Definition keptFor (seen : list Insight) (collides : Insight → Prop) (y : Insight) : Prop :=
  collides y
  ∧ ∃ pre post, seen = pre ++ y :: post
      ∧ (∀ z, z ∈ pre → collides z → rank (priority y) < rank (priority z))
      ∧ (∀ z, z ∈ post → collides z → rank (priority y) <= rank (priority z)).

(** What holds of the map after the insights [seen]. *)
Definition mergeInv (seen : list Insight) (m : JsMap Insight) : Prop :=
  NoDup (map_keys m)
  ∧ (∀ k y, map_get k m = Some y → keptFor seen (λ z, keyOf z = k) y)
  ∧ (∀ x, x ∈ seen → is_Some (map_get (keyOf x) m)).



(** ** The diversity selector *)

(** The heads of the non-empty buckets, in bucket order. *)
Definition bucketHeads (buckets : list Bucket) : list Insight :=
  omap (λ bucket, head (bucket_insights bucket)) buckets.

(** A bucket without its head. *)
Definition shiftBucket (bucket : Bucket) : Bucket :=
  {| bucket_familyKey := bucket_familyKey bucket;
     bucket_insights := tail (bucket_insights bucket) |}.

(** The selection pass by pass: what each run of the [for] loop added. *)
Fixpoint passesOf (fuel limit : nat) (buckets : list Bucket)
    (selection : list Insight) : list (list Insight) :=
  if (length selection <? limit)%nat then
    match fuel with
    | O => []
    | S fuel' =>
        let '(buckets', selection', addedInPass) :=
          forBuckets limit buckets selection false in
        if addedInPass
        then drop (length selection) selection'
               :: passesOf fuel' limit (sortBuckets buckets') selection'
        else []
    end
  else [].

(** The passes of [getDiverseInsights(insights, limit)]. *)
Definition diversePasses (insights : list Insight) (limit : nat)
    : list (list Insight) :=
  passesOf (S limit) limit (preparedBuckets insights) [].

(** Selection in passes: a pass takes the head of every non-empty bucket in
    the current bucket order, then the buckets are sorted again; it ends
    with the first pass that finds all buckets empty. *)
Fixpoint roundRobinPasses (passes : nat) (buckets : list Bucket)
    : list (list Insight) :=
  match passes with
  | O => []
  | S n =>
      match bucketHeads buckets with
      | [] => []
      | heads => heads :: roundRobinPasses n (sortBuckets (map shiftBucket buckets))
      end
  end.

(** The head of the first non-empty bucket, and the buckets without it. *)
Fixpoint takeFirstHead (buckets : list Bucket) : option (Insight * list Bucket) :=
  match buckets with
  | [] => None
  | bucket :: rest =>
      match bucket_insights bucket with
      | [] =>
          match takeFirstHead rest with
          | Some (h, rest') => Some (h, bucket :: rest')
          | None => None
          end
      | h :: _ => Some (h, shiftBucket bucket :: rest)
      end
  end.

(** The selection one item at a time, as the specification words it:
    repeatedly take the head of the first non-empty bucket, remove it, and
    sort the buckets again, until [n] items are collected or all buckets are
    empty. *)
Fixpoint takeHeadAndResort (n : nat) (buckets : list Bucket) : list Insight :=
  match n with
  | O => []
  | S n' =>
      match takeFirstHead buckets with
      | None => []
      | Some (h, buckets') => h :: takeHeadAndResort n' (sortBuckets buckets')
      end
  end.

(** The DiversitySelector of the specification, to compare with
    [getDiverseInsights]. *)
Definition specifiedDiverseInsights (insights : list Insight) (limit : nat)
    : list Insight :=
  takeHeadAndResort limit (preparedBuckets insights).

(** What holds of the grouping accumulator after the insights [seen]. *)
Definition groupInv (seen : list Insight) (acc : JsMap Bucket) : Prop :=
  NoDup (map_keys acc)
  ∧ (∀ k b, map_get k acc = Some b →
       bucket_familyKey b = k
       ∧ bucket_insights b = filter (λ i, bucketKeyOf i = k) seen
       ∧ bucket_insights b ≠ [])
  ∧ (∀ i, i ∈ seen → is_Some (map_get (bucketKeyOf i) acc))
  ∧ concat (map bucket_insights (map_values acc)) ≡ₚ seen.

(** A bucket list as the selector keeps it: one bucket per family key, each
    holding insights of its own key only. *)
Definition bucketsWF (buckets : list Bucket) : Prop :=
  NoDup (map bucket_familyKey buckets)
  ∧ ∀ b i, b ∈ buckets → i ∈ bucket_insights b → bucketKeyOf i = bucket_familyKey b.


(** An insight with neither [family] nor [familyKey]. *)
Definition uncategorized (insight : Insight) : Prop :=
  family insight = "" ∧ familyKey insight = "".

#[global] Instance uncategorized_dec (insight : Insight) : Decision (uncategorized insight).
Proof. unfold uncategorized. apply _. Defined.

(** ** The projection engine *)

(** The month keys of the transactions whose date parses, each once. *)
Definition monthKeysOf (transactions : list Transaction) : list string :=
  remove_dups (omap (λ t, toMonthKey <$> date t) transactions).

(** The keys of the month buckets after the transactions [seen]. *)
Definition bucketKeysInv (seen : list Transaction) (monthBuckets : JsMap MonthBucket)
    : Prop :=
  NoDup (map_keys monthBuckets)
  ∧ ∀ k, k ∈ map_keys monthBuckets ↔ k ∈ omap (λ t, toMonthKey <$> date t) seen.

(* ================================================================== *)
(** * Sample data *)
(* ================================================================== *)

(** A merged insight with the given id, priority, family and domain. *)
Definition sampleInsight (idOf priorityOf familyKeyOf domainKeyOf : string) : Insight :=
  {| insight_id := idOf; title := idOf; description := "";
     priority := priorityOf; created_at := TsMissing; updated_at := TsMissing;
     family := ""; familyKey := familyKeyOf; familyName := ""; familyDescription := "";
     domainKey := domainKeyOf; domainName := ""; domainDescription := "" |}.

(** One insight of the major-spending family. *)
Definition oneTrendInsight : list Insight :=
  [sampleInsight "t1" "high" "category_trend" "spending_trends"].


(** Sixteen insights that fill every group: the selection holds 21. *)
Definition crowdedInsights : list Insight :=
  [sampleInsight "t1" "high" "category_trend" "spending_trends";
   sampleInsight "t2" "high" "category_trend" "spending_trends";
   sampleInsight "t3" "high" "category_trend" "spending_trends";
   sampleInsight "x1" "high" "cross_user_affinity" "behavior_lifestyle";
   sampleInsight "x2" "high" "subscription_volume" "optimization_rewards";
   sampleInsight "x3" "high" "delivery_vs_grocery" "behavior_lifestyle";
   sampleInsight "p1" "medium" "habit_frequency" "spending_patterns";
   sampleInsight "p2" "medium" "burst_spending" "spending_patterns";
   sampleInsight "r1" "medium" "category_spike" "spending_trends";
   sampleInsight "r2" "low" "category_spike" "spending_trends";
   sampleInsight "o1" "medium" "fee_detection" "optimization_rewards";
   sampleInsight "o2" "low" "fee_detection" "optimization_rewards";
   sampleInsight "b1" "medium" "merchant_loyalty" "behavior_lifestyle";
   sampleInsight "b2" "low" "merchant_loyalty" "behavior_lifestyle";
   sampleInsight "l1" "medium" "local_support" "sustainability_local";
   sampleInsight "l2" "low" "low_waste_trend" "sustainability_local"].

(** Two insights of a top-scoring family and one of an unlisted family. *)
Definition twoFamilies : list Insight :=
  [sampleInsight "a1" "high" "balance_warning" "spending_patterns";
   sampleInsight "a2" "high" "balance_warning" "spending_patterns";
   sampleInsight "b1" "high" "habit_frequency" "behavior_lifestyle"].

(** Three families of three insights each. *)
Definition threeByThree : list Insight :=
  [sampleInsight "a1" "high" "balance_warning" "spending_patterns";
   sampleInsight "a2" "medium" "balance_warning" "spending_patterns";
   sampleInsight "a3" "low" "balance_warning" "spending_patterns";
   sampleInsight "b1" "high" "merchant_loyalty" "behavior_lifestyle";
   sampleInsight "b2" "medium" "merchant_loyalty" "behavior_lifestyle";
   sampleInsight "b3" "low" "merchant_loyalty" "behavior_lifestyle";
   sampleInsight "c1" "high" "category_trend" "spending_trends";
   sampleInsight "c2" "medium" "category_trend" "spending_trends";
   sampleInsight "c3" "low" "category_trend" "spending_trends"].

(** Insights without a family among insights with one. *)
Definition someUncategorized : list Insight :=
  [sampleInsight "u1" "high" "" "spending_patterns";
   sampleInsight "a1" "high" "balance_warning" "spending_patterns";
   sampleInsight "u2" "medium" "" "spending_trends";
   sampleInsight "u3" "low" "" "behavior_lifestyle"].

(** An insight as the analysis process delivers it. *)
Definition rawInsight (idOf titleOf priorityOf : string) : Insight :=
  {| insight_id := idOf; title := titleOf; description := "";
     priority := priorityOf; created_at := TsMissing; updated_at := TsMissing;
     family := ""; familyKey := ""; familyName := ""; familyDescription := "";
     domainKey := ""; domainName := ""; domainDescription := "" |}.


(** A transaction of the given UTC month (year, month 1 to 12). *)
Definition sampleTransaction (year month : Z) (amountOf : float) (category : string)
    : Transaction :=
  {| date := Some (12 * year + (month - 1));
     amount := amountOf;
     category_primary := category |}.

(** Three months; each has one income event of 2000 (a negative amount);
    the spending totals are 1500, 1700 and 1600. *)
Definition scenarioTransactions : list Transaction :=
  [sampleTransaction 2024 1 (-2000) "INCOME";
   sampleTransaction 2024 1 1500 "RENT_AND_UTILITIES";
   sampleTransaction 2024 2 (-2000) "INCOME";
   sampleTransaction 2024 2 1700 "RENT_AND_UTILITIES";
   sampleTransaction 2024 3 (-2000) "INCOME";
   sampleTransaction 2024 3 1600 "RENT_AND_UTILITIES"].

(** The same months with the ledger out of order and the spending of March
    in two transactions. *)
Definition scenarioShuffled : list Transaction :=
  [sampleTransaction 2024 3 1000 "RENT_AND_UTILITIES";
   sampleTransaction 2024 1 1500 "FOOD_AND_DRINK";
   sampleTransaction 2024 2 (-2000) "INCOME";
   sampleTransaction 2024 3 (-2000) "";
   sampleTransaction 2024 2 1700 "RENT_AND_UTILITIES";
   sampleTransaction 2024 3 600 "FOOD_AND_DRINK";
   sampleTransaction 2024 1 (-2000) "INCOME"].

(** Two months of history, with a transaction whose date does not parse. *)
Definition twoMonths : list Transaction :=
  [sampleTransaction 2024 1 (-2000) "INCOME";
   sampleTransaction 2024 1 1500 "RENT_AND_UTILITIES";
   {| date := None; amount := 40; category_primary := "FOOD_AND_DRINK" |};
   sampleTransaction 2024 2 1700 "RENT_AND_UTILITIES"].


(* ================================================================== *)
(** * Further functions of the two components *)
(* ================================================================== *)

(** [buildStructuredDomains(domains, mergedInsights)] of the Insights
    component: the tree with, in every family, the merged insights that
    carry the keys of the family and of its domain. *)
Definition buildStructuredDomains (domains : list Domain)
    (mergedInsights : list Insight) : list Domain :=
  map (λ domain,
         {| dom_key := dom_key domain;
            dom_name := dom_name domain;
            dom_description := dom_description domain;
            dom_families :=
              map (λ fam,
                     {| fam_key := fam_key fam;
                        fam_name := fam_name fam;
                        fam_description := fam_description fam;
                        fam_insights :=
                          filter (λ insight,
                                    String.eqb (domainKey insight) (dom_key domain)
                                    && String.eqb (familyKey insight) (fam_key fam))
                                 mergedInsights |})
                  (dom_families domain) |})
      domains.

(** [topDomainInsights] of the Insights component:
    [sections.byDomain.slice(0, 3).flatMap((group) => group.insights)]. *)
Definition topDomainInsights (sections : Sections) : list Insight :=
  concat (map dg_insights (take 3 (byDomain sections))).

(** [value.slice(0, n)] for [n >= 0]. *)
Fixpoint string_take (n : nat) (s : string) : string :=
  match n, s with
  | S n', String c s' => String c (string_take n' s')
  | _, _ => EmptyString
  end.

(** [truncateLabel(value, maxLength)] of the Dashboard component; the
    default [maxLength] is 18. *)
Definition truncateLabel (value : string) (maxLength : Z) : string :=
  if String.eqb value "" then ""
  else if Z.of_nat (String.length value) <=? maxLength then value
  else string_take (Z.to_nat (Z.max 0 (maxLength - 3))) value +:+ "...".

(** ** Vocabulary *)

(** The elements of a list, each once, in the order of their first
    occurrence. *)
Definition firstOccurrences (keys : list string) : list string :=
  reverse (remove_dups (reverse keys)).

(** The families of a tree, each with the key of its domain. *)
Definition familiesOf (domains : list Domain) : list (string * Family) :=
  concat (map (λ domain, map (λ fam, (dom_key domain, fam)) (dom_families domain))
              domains).

(** The month of a transaction whose date parses. *)
Definition validDate (transaction : Transaction) : bool :=
  match date transaction with Some _ => true | None => false end.

(** The months of the transactions whose date parses. *)
Definition monthsOf (transactions : list Transaction) : list Z :=
  omap date transactions.

(** A month of a year written with four digits. *)
Definition fourDigitYear (month : Z) : bool :=
  (12 * 1000 <=? month) && (month <? 12 * 10000).

(** A tree in which no two insights collide. *)
Definition distinctTree : list Domain :=
  [{| dom_key := "spending_trends"; dom_name := "Spending Trends"; dom_description := "";
      dom_families :=
        [{| fam_key := "category_trend"; fam_name := "Category Trend";
            fam_description := "";
            fam_insights := [rawInsight "1" "Dining out is up" "low";
                             rawInsight "2" "Groceries are flat" "medium"] |};
         {| fam_key := "category_spike"; fam_name := "Category Spike";
            fam_description := "";
            fam_insights := [rawInsight "3" "Dining out is up" "medium"] |}] |};
   {| dom_key := "behavior_lifestyle"; dom_name := "Behavior"; dom_description := "";
      dom_families :=
        [{| fam_key := "habit_frequency"; fam_name := "Habits";
            fam_description := "";
            fam_insights := [rawInsight "4" "Coffee every morning" "high"] |}] |}].

(** The structured family of [buildStructuredDomains] for a family [fam] of
    a domain with key [domainKeyOf]. *)
Definition structuredFamily (mergedInsights : list Insight) (domainKeyOf : string)
    (fam : Family) : Family :=
  {| fam_key := fam_key fam;
     fam_name := fam_name fam;
     fam_description := fam_description fam;
     fam_insights :=
       filter (λ insight,
                 String.eqb (domainKey insight) domainKeyOf
                 && String.eqb (familyKey insight) (fam_key fam))
              mergedInsights |}.

(** What a domain group shows, for the collection it was built from: one or
    two insights of that collection, all of the group's domain, in the
    order of [priorityRank], under the title of the domain. *)
Definition domainGroupOf (insights : list Insight) (g : DomainGroup) : Prop :=
  (1 ≤ length (dg_insights g) ≤ 2)%nat
  ∧ dg_title g = getDomainTitle (dg_key g)
  ∧ (∀ i, i ∈ dg_insights g → i ∈ insights ∧ domainKey i = dg_key g)
  ∧ StronglySorted (λ a b, priorityRank a <= priorityRank b) (dg_insights g).

(** A group holds the insights of least rank among those of its domain
    that no [pickTop] group claimed. *)
Definition bestOfDomain (insights : list Insight) (claimed : gset string)
    (g : DomainGroup) : Prop :=
  ∀ i, i ∈ insights → domainKey i = dg_key g → insight_id i ∉ claimed →
    i ∈ dg_insights g ∨ ∀ h, h ∈ dg_insights g → priorityRank h <= priorityRank i.

(** The state of [domainOrder.forEach] after the keys [seen]: the groups
    so far carry keys of [seen], in order, and each is a well-formed group;
    an id of [selected] was claimed before the loop or belongs to an
    insight of a domain already seen. *)
Definition domainLoopInv (insights : list Insight) (claimed : gset string)
    (seen : list string) (st : list DomainGroup * gset string) : Prop :=
  map dg_key st.1 `sublist_of` seen
  ∧ Forall (domainGroupOf insights) st.1
  ∧ (∀ x, x ∈ st.2 → x ∈ claimed
       ∨ ∃ j, j ∈ insights ∧ insight_id j = x ∧ domainKey j ∈ seen)
  ∧ (NoDup (map insight_id insights) → Forall (bestOfDomain insights claimed) st.1).

(** Eight insights of one domain and of an unlisted family: five go to
    [keyHighlights], two to the domain group, one is left out. *)
Definition eightOfOneDomain : list Insight :=
  [sampleInsight "s1" "high" "habit_frequency" "spending_patterns";
   sampleInsight "s2" "high" "habit_frequency" "spending_patterns";
   sampleInsight "s3" "high" "habit_frequency" "spending_patterns";
   sampleInsight "s4" "high" "habit_frequency" "spending_patterns";
   sampleInsight "s5" "high" "habit_frequency" "spending_patterns";
   sampleInsight "s6" "medium" "habit_frequency" "spending_patterns";
   sampleInsight "s7" "low" "habit_frequency" "spending_patterns";
   sampleInsight "s8" "medium" "habit_frequency" "spending_patterns"].

(** Three insights of three domains, none of a listed family. *)
Definition threeInsights : list Insight :=
  [sampleInsight "u1" "low" "habit_frequency" "spending_patterns";
   sampleInsight "u2" "high" "category_spike" "spending_trends";
   sampleInsight "u3" "medium" "local_support" "sustainability_local"].

(** The characters of a string. *)
Definition chars (s : string) : list ascii := list_ascii_of_string s.

(** Title case in one pass: an underscore becomes a space, the character
    at the start and every character after an underscore is upper-cased,
    every other character is lower-cased. *)
Fixpoint titleCase (atStart : bool) (s : string) : string :=
  match s with
  | EmptyString => EmptyString
  | String c s' =>
      if Ascii.eqb c "_"%char then String " "%char (titleCase true s')
      else String (if atStart then upper_ascii (lower_ascii c) else lower_ascii c)
                  (titleCase false s')
  end.

(** Lower-case letters, digits and the underscore: the characters of the
    keys the backend sends. *)
Definition identifierChar (c : ascii) : bool :=
  let n := nat_of_ascii c in
  (((48 <=? n) && (n <=? 57)) || ((97 <=? n) && (n <=? 122)) || (n =? 95))%nat.

(** A decimal digit. *)
Definition isDigit (c : ascii) : bool :=
  let n := nat_of_ascii c in ((48 <=? n) && (n <=? 57))%nat.

(** [Number(transaction.amount) || 0], the amount [recordTransaction]
    works with. *)
Definition amountRead (transaction : Transaction) : float :=
  num_or (amount transaction) 0.

(** The test [amount < 0] of [recordTransaction]: income is negative. *)
Definition isIncome (transaction : Transaction) : bool :=
  PrimFloat.ltb (amountRead transaction) 0.

(** The transaction has a date that parses, in the month with this key. *)
Definition inMonth (key : string) (transaction : Transaction) : bool :=
  match date transaction with
  | Some d => String.eqb (toMonthKey d) key
  | None => false
  end.

(** A month bucket that recorded the transactions [recorded], in order:
    its income events are the absolute amounts of the income transactions,
    its spending events the amounts of the others, and its totals are the
    sums of its events, added up from 0 in that order. *)
Definition bucketOf (recorded : list Transaction) (bucket : MonthBucket) : Prop :=
  mb_sampleTransactions bucket = recorded
  ∧ mb_incomeEvents bucket
    = map (λ t, PrimFloat.abs (amountRead t)) (filter isIncome recorded)
  ∧ mb_spendingEvents bucket
    = map amountRead (filter (λ t, negb (isIncome t)) recorded)
  ∧ mb_income bucket = foldl PrimFloat.add 0%float (mb_incomeEvents bucket)
  ∧ mb_spending bucket = foldl PrimFloat.add 0%float (mb_spendingEvents bucket).

(** The month buckets after the transactions [seen]. *)
Definition bucketsInv (seen : list Transaction) (monthBuckets : JsMap MonthBucket)
    : Prop :=
  bucketKeysInv seen monthBuckets
  ∧ ∀ k bucket, map_get k monthBuckets = Some bucket →
      bucketOf (filter (inMonth k) seen) bucket.

(** A ledger with two transactions whose date does not parse. *)
Definition withInvalidDates : list Transaction :=
  [{| date := None; amount := 12; category_primary := "FOOD_AND_DRINK" |};
   sampleTransaction 2024 1 (-2000) "INCOME";
   sampleTransaction 2024 2 1700 "RENT_AND_UTILITIES";
   {| date := None; amount := (-40); category_primary := "" |};
   sampleTransaction 2024 3 600 "FOOD_AND_DRINK"].

(** Three months of spending and no income. *)
Definition spendingOnly : list Transaction :=
  [sampleTransaction 2024 1 1500 "RENT_AND_UTILITIES";
   sampleTransaction 2024 2 1700 "RENT_AND_UTILITIES";
   sampleTransaction 2024 3 600 "FOOD_AND_DRINK"].

(* ================================================================== *)
(** * Facts about [array_sort] *)
(* ================================================================== *)

Lemma elem_of_concat {A : Type} (x : A) (ls : list (list A)) :
  x ∈ concat ls ↔ ∃ l, x ∈ l ∧ l ∈ ls.
Proof.
  rewrite list_elem_of_In, in_concat. split; intros (l & H1 & H2); exists l.
  - by rewrite !list_elem_of_In.
  - by rewrite <- !list_elem_of_In.
Qed.

Lemma StronglySorted_weaken {A : Type} (R1 R2 : A → A → Prop) (l : list A) :
  (∀ x y, R1 x y → R2 x y) → StronglySorted R1 l → StronglySorted R2 l.
Proof.
  intros HR. induction 1 as [|x l Hs IH Hx]; constructor; [done|].
  eapply Forall_impl; [exact Hx|]. intros y. apply HR.
Qed.

Section ArraySortFacts.
Context {A : Type}.
Variable cmp : A -> A -> Z.

Lemma sort_insert_perm x l : sort_insert cmp x l ≡ₚ x :: l.
Proof.
  induction l as [|y l IH]; simpl; [done|].
  destruct (cmp x y <=? 0); [done|].
  rewrite IH. apply perm_swap.
Qed.

Lemma array_sort_perm l : array_sort cmp l ≡ₚ l.
Proof.
  induction l as [|x l IH]; simpl; [done|].
  rewrite sort_insert_perm. by rewrite IH.
Qed.

Lemma array_sort_length l : length (array_sort cmp l) = length l.
Proof. by rewrite array_sort_perm. Qed.

Lemma array_sort_elem_of x l : x ∈ array_sort cmp l ↔ x ∈ l.
Proof. by rewrite array_sort_perm. Qed.

Lemma array_sort_nil_inv l : array_sort cmp l = [] → l = [].
Proof.
  intros H. apply nil_length_inv. by rewrite <- array_sort_length, H.
Qed.



Hypothesis cmp_total : ∀ x y, cmp x y <= 0 ∨ cmp y x <= 0.
Hypothesis cmp_trans : ∀ x y z, cmp x y <= 0 → cmp y z <= 0 → cmp x z <= 0.

Lemma sort_insert_sorted x l :
  StronglySorted (cmp_le cmp) l → StronglySorted (cmp_le cmp) (sort_insert cmp x l).
Proof.
  induction 1 as [|y l Hs IH Hy]; simpl.
  { repeat constructor. }
  destruct (cmp x y <=? 0) eqn:E.
  - apply Z.leb_le in E. constructor; [by constructor|].
    constructor; [done|].
    eapply Forall_impl; [apply Hy|]. intros z Hz. by eapply cmp_trans.
  - apply Z.leb_gt in E. constructor; [done|].
    rewrite sort_insert_perm. constructor; [|done].
    destruct (cmp_total x y); [lia|done].
Qed.

Lemma array_sort_sorted l : StronglySorted (cmp_le cmp) (array_sort cmp l).
Proof.
  induction l as [|x l IH]; simpl; [constructor|].
  by apply sort_insert_sorted.
Qed.
End ArraySortFacts.

(* ================================================================== *)
(** * The section allocator *)
(* ================================================================== *)

Lemma byPriorityRank_total a b : byPriorityRank a b <= 0 ∨ byPriorityRank b a <= 0.
Proof. unfold byPriorityRank. lia. Qed.

Lemma byPriorityRank_trans a b c :
  byPriorityRank a b <= 0 → byPriorityRank b c <= 0 → byPriorityRank a c <= 0.
Proof. unfold byPriorityRank. lia. Qed.



Lemma filter_all_true (l : list Insight) :
  filter (λ x, Is_true ((λ _ : Insight, true) x)) l = l.
Proof. induction l as [|x l IH]; [done|]. rewrite filter_cons_True by done. by f_equal. Qed.

Lemma addAll_elem_of x selected picked :
  x ∈ addAll selected picked ↔ x ∈ selected ∨ ∃ i, i ∈ picked ∧ insight_id i = x.
Proof.
  unfold addAll. revert selected.
  induction picked as [|i l IH]; intros selected; simpl.
  - split; [by left|]. intros [?|(i & Hi & _)]; [done|]. by apply elem_of_nil in Hi.
  - rewrite IH. set_unfold. split.
    + intros [[->|?]|(j & Hj & <-)]; eauto.
    + intros [?|(j & [->|Hj] & <-)]; eauto.
Qed.


Lemma selectSections_eq insights :
  selectSections insights =
  {| keyHighlights := take 5 (array_sort byPriorityRank insights);
     majorSpending :=
       take 3 (array_sort byPriorityRank (filter (λ i, Is_true (isMajorSpending i)) insights));
     crossDomain :=
       take 3 (array_sort byPriorityRank (filter (λ i, Is_true (isCrossDomain i)) insights));
     byDomain := (foldl (domainStep insights) ([], selectedByPicks insights) domainOrder).1 |}.
Proof.
  unfold selectSections, selectedByPicks, pickTop. cbn [fst snd].
  rewrite filter_all_true.
  by destruct (foldl _ _ domainOrder).
Qed.

Lemma selectedByPicks_elem_of insights x :
  x ∈ selectedByPicks insights ↔
  ∃ i, insight_id i = x ∧
       (i ∈ keyHighlights (selectSections insights)
        ∨ i ∈ majorSpending (selectSections insights)
        ∨ i ∈ crossDomain (selectSections insights)).
Proof.
  rewrite selectSections_eq. cbn [keyHighlights majorSpending crossDomain].
  unfold selectedByPicks, pickTop. cbn [fst snd].
  rewrite filter_all_true, !addAll_elem_of. set_unfold. naive_solver.
Qed.

(** ** The domain groups *)


Lemma domainStep_inv insights claimed st domainKeyOf :
  domainInv claimed st → domainInv claimed (domainStep insights st domainKeyOf).
Proof.
  destruct st as [groups selected]. intros (Hsub & Hin & Hdis & Hall).
  unfold domainStep.
  set (picked := take 2 (array_sort byPriorityRank (filter _ insights))).
  assert (Hfresh : ∀ i, i ∈ picked → insight_id i ∉ selected).
  { intros i Hi. apply (subseteq_take 2) in Hi.
    rewrite array_sort_elem_of, list_elem_of_filter in Hi.
    destruct Hi as [Hi _]. apply andb_prop_elim in Hi as [_ Hi].
    apply negb_prop_elim in Hi. by rewrite bool_decide_spec in Hi. }
  assert (Hlen : (length picked ≤ 2)%nat) by (unfold picked; rewrite length_take; lia).
  assert (Hsub' : selected ⊆ addAll selected picked).
  { intros x Hx. apply addAll_elem_of. by left. }
  clearbody picked. destruct picked as [|p ps].
  - split_and!; simpl in *; [set_solver| |done|done].
    intros g i Hg Hi. destruct (Hin g i Hg Hi). split; [set_solver|done].
  - split_and!; cbn [fst snd] in *.
    + set_solver.
    + intros g i Hg Hi. apply elem_of_app in Hg as [Hg|Hg].
      * destruct (Hin g i Hg Hi). split; [set_solver|done].
      * apply list_elem_of_singleton in Hg as ->. simpl in Hi. split.
        -- apply addAll_elem_of. right. eauto.
        -- intros Hc. apply (Hfresh i Hi). set_solver.
    + intros j k g1 g2 i1 i2 Hjk H1 H2 Hi1 Hi2.
      apply lookup_app_Some in H2 as [H2|[Hk H2]].
      * apply lookup_app_Some in H1 as [H1|[Hj _]].
        -- by eapply Hdis.
        -- apply lookup_lt_Some in H2. lia.
      * apply list_lookup_singleton_Some in H2 as [Hk0 <-]. simpl in Hi2.
        apply lookup_app_Some in H1 as [H1|[Hj _]]; [|lia].
        intros Heq. apply (Hfresh i2 Hi2). rewrite <- Heq.
        eapply Hin; [|done]. by eapply list_elem_of_lookup_2.
    + apply Forall_app. split; [done|]. constructor; [|done]. simpl.
      by split.
Qed.

Lemma domainFold_inv insights claimed st keys :
  domainInv claimed st → domainInv claimed (foldl (domainStep insights) st keys).
Proof.
  revert st. induction keys as [|k keys IH]; intros st Hst; simpl; [done|].
  by apply IH, domainStep_inv.
Qed.

Lemma domainStep_length insights st domainKeyOf :
  (length (domainStep insights st domainKeyOf).1 ≤ S (length st.1))%nat.
Proof.
  destruct st as [groups selected]. unfold domainStep.
  destruct (take 2 _); cbn [fst]; [lia|]. rewrite length_app. simpl. lia.
Qed.

Lemma domainFold_length insights st keys :
  (length (foldl (domainStep insights) st keys).1 ≤ length st.1 + length keys)%nat.
Proof.
  revert st. induction keys as [|k keys IH]; intros st; simpl; [lia|].
  etrans; [apply IH|]. pose proof (domainStep_length insights st k). lia.
Qed.

Lemma selectSections_domainInv insights :
  domainInv (selectedByPicks insights)
            (byDomain (selectSections insights),
             (foldl (domainStep insights) ([], selectedByPicks insights) domainOrder).2).
Proof.
  rewrite selectSections_eq. cbn [byDomain].
  rewrite <- surjective_pairing. apply domainFold_inv.
  split_and!; cbn [fst snd]; [done| | |constructor].
  - intros g i Hg. by apply elem_of_nil in Hg.
  - intros j k g1 g2 i1 i2 _ H1. by rewrite lookup_nil in H1.
Qed.

(** ** Truncation to the cap *)

Lemma popWhile_spec groupInsights excess :
  popWhile groupInsights excess =
  (take (length groupInsights - excess) groupInsights,
   (excess - length groupInsights)%nat).
Proof.
  revert groupInsights. induction excess as [|e IH]; intros l; simpl.
  - by rewrite Nat.sub_0_r, take_ge.
  - destruct l as [|x l]; [done|].
    rewrite IH, removelast_firstn_len, length_take, take_take.
    cbn [length]. f_equal; [f_equal|]; lia.
Qed.

Lemma trimGroups_zero i domainGroups : trimGroups i domainGroups 0 = domainGroups.
Proof. by destruct i. Qed.

Lemma trimGroups_snoc groups group excess :
  trimGroups (S (length groups)) (groups ++ [group]) excess =
  if (excess =? 0)%nat then groups ++ [group]
  else if (length (dg_insights group) <=? excess)%nat
       then trimGroups (length groups) groups (excess - length (dg_insights group))
       else groups ++ [{| dg_key := dg_key group; dg_title := dg_title group;
                          dg_insights := take (length (dg_insights group) - excess)
                                              (dg_insights group) |}].
Proof.
  cbn [trimGroups]. destruct (excess =? 0)%nat eqn:E0; [done|].
  apply Nat.eqb_neq in E0.
  rewrite lookup_app_r, Nat.sub_diag by done. cbn [lookup list_lookup].
  rewrite popWhile_spec.
  destruct (length (dg_insights group) <=? excess)%nat eqn:E.
  - apply Nat.leb_le in E.
    replace (length (dg_insights group) - excess)%nat with 0%nat by lia.
    rewrite take_0. f_equal.
    induction groups as [|g gs IH]; [done|]. simpl. by f_equal.
  - apply Nat.leb_gt in E.
    replace (excess - length (dg_insights group))%nat with 0%nat by lia.
    rewrite trimGroups_zero.
    destruct (take _ (dg_insights group)) as [|x rest] eqn:Ht.
    { apply (f_equal length) in Ht. rewrite length_take in Ht. simpl in Ht. lia. }
    rewrite <- Ht. clear.
    induction groups as [|g gs IH]; [done|]. simpl. by f_equal.
Qed.


Lemma keptPrefix_refl groups : keptPrefix groups groups.
Proof. intros j g Hg. by exists g. Qed.

Lemma keptPrefix_app_l groups kept extra :
  keptPrefix groups kept → keptPrefix (groups ++ extra) kept.
Proof.
  intros H j g' Hg'. destruct (H j g' Hg') as (g & Hg & ?).
  exists g. split; [|done]. by apply lookup_app_l_Some.
Qed.

Lemma domainTotal_length groups :
  domainTotal groups = length (concat (map dg_insights groups)).
Proof.
  unfold domainTotal.
  enough (∀ n, foldl (λ sum group, (sum + length (dg_insights group))%nat) n groups
               = (n + length (concat (map dg_insights groups)))%nat) as -> by done.
  induction groups as [|g gs IH]; intros n; simpl; [lia|].
  rewrite IH, length_app. lia.
Qed.

Lemma trimGroups_spec groups excess :
  let kept := trimGroups (length groups) groups excess in
  concat (map dg_insights kept)
    = take (domainTotal groups - excess) (concat (map dg_insights groups))
  ∧ keptPrefix groups kept
  ∧ (Forall (λ g, dg_insights g ≠ []) groups → Forall (λ g, dg_insights g ≠ []) kept).
Proof.
  revert excess. induction groups as [|group groups IH] using rev_ind; intros excess.
  { split_and!; [apply eq_sym, take_nil|apply keptPrefix_refl|done]. }
  rewrite length_app, Nat.add_1_r, trimGroups_snoc.
  rewrite domainTotal_length, map_app, concat_app, length_app. simpl.
  rewrite app_nil_r.
  destruct (excess =? 0)%nat eqn:E0.
  { apply Nat.eqb_eq in E0 as ->. rewrite Nat.sub_0_r.
    split_and!; [|apply keptPrefix_refl|done].
    rewrite take_ge; [by rewrite map_app, concat_app; simpl; rewrite app_nil_r|].
    rewrite length_app. lia. }
  destruct (length (dg_insights group) <=? excess)%nat eqn:E.
  - apply Nat.leb_le in E.
    destruct (IH (excess - length (dg_insights group))%nat) as (Hflat & Hpre & Hne).
    split_and!.
    + rewrite Hflat, domainTotal_length, take_app_le by lia. f_equal. lia.
    + by apply keptPrefix_app_l.
    + intros Hall. apply Forall_app in Hall as [Hall _]. by apply Hne.
  - apply Nat.leb_gt in E. split_and!.
    + rewrite map_app, concat_app. simpl. rewrite app_nil_r.
      rewrite take_app_ge by lia. do 2 f_equal. lia.
    + intros j g' Hg'. apply lookup_app_Some in Hg' as [Hg'|[Hj Hg']].
      * exists g'. split; [by apply lookup_app_l_Some|done].
      * apply list_lookup_singleton_Some in Hg' as [Hj0 <-].
        exists group. split_and!; [|done|done|apply prefix_take].
        rewrite lookup_app_r by done. by rewrite Hj0.
    + intros Hall. apply Forall_app in Hall as [Hall _].
      apply Forall_app. split; [done|]. constructor; [|done]. simpl.
      intros Hnil. apply (f_equal length) in Hnil. rewrite length_take in Hnil.
      simpl in Hnil. lia.
Qed.


Lemma truncateSections_picks s :
  keyHighlights (truncateSections s) = keyHighlights s
  ∧ majorSpending (truncateSections s) = majorSpending s
  ∧ crossDomain (truncateSections s) = crossDomain s.
Proof. done. Qed.

Lemma truncateSections_spec s :
  let picked := (length (keyHighlights s) + length (majorSpending s)
                 + length (crossDomain s))%nat in
  (picked ≤ MAX_TOTAL)%nat →
  domainInsightsOf (truncateSections s)
    = take (MAX_TOTAL - picked) (domainInsightsOf s)
  ∧ keptPrefix (byDomain s) (byDomain (truncateSections s))
  ∧ (Forall (λ g, dg_insights g ≠ []) (byDomain s) →
     Forall (λ g, dg_insights g ≠ []) (byDomain (truncateSections s))).
Proof.
  intros picked Hpicked. unfold domainInsightsOf, truncateSections. cbn [byDomain].
  fold picked.
  destruct (MAX_TOTAL <? picked + domainTotal (byDomain s))%nat eqn:E.
  - apply Nat.ltb_lt in E.
    destruct (trimGroups_spec (byDomain s)
                (picked + domainTotal (byDomain s) - MAX_TOTAL)) as (Hflat & Hpre & Hne).
    split_and!; [|done..]. rewrite Hflat. f_equal. lia.
  - apply Nat.ltb_ge in E. split_and!; [|apply keptPrefix_refl|done].
    rewrite take_ge; [done|]. rewrite <- domainTotal_length. lia.
Qed.

Lemma selectSections_picked_le insights :
  let s := selectSections insights in
  (length (keyHighlights s) ≤ 5 ∧ length (majorSpending s) ≤ 3
   ∧ length (crossDomain s) ≤ 3)%nat.
Proof.
  rewrite selectSections_eq. cbn [keyHighlights majorSpending crossDomain].
  rewrite !length_take. lia.
Qed.

Lemma keptPrefix_elem_of groups kept g' i :
  keptPrefix groups kept → g' ∈ kept → i ∈ dg_insights g' →
  ∃ g, g ∈ groups ∧ i ∈ dg_insights g.
Proof.
  intros Hpre Hg' Hi. apply list_elem_of_lookup_1 in Hg' as [j Hj].
  destruct (Hpre j g' Hj) as (g & Hg & _ & _ & Hp).
  exists g. split; [by eapply list_elem_of_lookup_2|].
  destruct Hp as [rest ->]. apply elem_of_app. by left.
Qed.

Lemma NoDup_fmap_inj_on {A B : Type} (f : A → B) (l : list A) x y :
  NoDup (map f l) → x ∈ l → y ∈ l → f x = f y → x = y.
Proof.
  induction l as [|a l IH]; intros Hnd Hx Hy Hxy; [by apply elem_of_nil in Hx|].
  simpl in Hnd. apply NoDup_cons in Hnd as [Ha Hnd].
  apply elem_of_cons in Hx as [->|Hx]; apply elem_of_cons in Hy as [->|Hy];
    [done| | |by apply IH].
  - exfalso. apply Ha. rewrite Hxy. by apply (list_elem_of_fmap_2 f).
  - exfalso. apply Ha. rewrite <- Hxy. by apply (list_elem_of_fmap_2 f).
Qed.

(** C1 (counterexample). A single insight of the [category_trend] family is
    returned both in [keyHighlights] and in [majorSpending]: [pickTop]
    records what it picks in [selected] but does not consult the set. *)
Lemma C1_counterexample :
  ¬ noIdInTwoGroups (buildAllDomainSections oneTrendInsight).
Proof.
  intros H. apply (H 0%nat 1%nat ["t1"] ["t1"] "t1"); try done; by left.
Qed.

(** C1 (amended). The [selected] set keeps the domain groups apart from
    everything chosen before them: no id of an insight in a [byDomain]
    group occurs in [keyHighlights], [majorSpending] or [crossDomain], nor in
    another [byDomain] group. [majorSpending] and [crossDomain] share no id
    when the ids of the collection are distinct; [keyHighlights] is chosen
    unconditionally and may share insights with both. *)
Theorem C1_domain_groups_exclude_selected (insights : list Insight) :
  let s := buildAllDomainSections insights in
  (∀ g i j, g ∈ byDomain s → i ∈ dg_insights g →
     j ∈ keyHighlights s ++ majorSpending s ++ crossDomain s →
     insight_id i ≠ insight_id j)
  ∧ (∀ a b g1 g2 i1 i2, a ≠ b →
       byDomain s !! a = Some g1 → byDomain s !! b = Some g2 →
       i1 ∈ dg_insights g1 → i2 ∈ dg_insights g2 → insight_id i1 ≠ insight_id i2)
  ∧ (NoDup (map insight_id insights) →
     ∀ i j, i ∈ majorSpending s → j ∈ crossDomain s → insight_id i ≠ insight_id j).
Proof.
  intros s. subst s. unfold buildAllDomainSections.
  pose proof (selectSections_picked_le insights) as (Hk & Hm & Hc).
  destruct (truncateSections_spec (selectSections insights)) as (_ & Hpre & _);
    [simpl; unfold MAX_TOTAL; lia|].
  destruct (selectSections_domainInv insights) as (_ & Hin & Hdis & _).
  cbn [fst snd] in Hin, Hdis.
  destruct (truncateSections_picks (selectSections insights)) as (-> & -> & ->).
  split_and!.
  - intros g' i j Hg' Hi Hj Heq.
    destruct (keptPrefix_elem_of _ _ g' i Hpre Hg' Hi) as (g & Hg & Hig).
    destruct (Hin g i Hg Hig) as [_ Hnot]. apply Hnot.
    apply selectedByPicks_elem_of. exists j. split; [done|].
    rewrite !elem_of_app in Hj. tauto.
  - assert (Hlt : ∀ a b g1 g2 i1 i2, (a < b)%nat →
       byDomain (truncateSections (selectSections insights)) !! a = Some g1 →
       byDomain (truncateSections (selectSections insights)) !! b = Some g2 →
       i1 ∈ dg_insights g1 → i2 ∈ dg_insights g2 → insight_id i1 ≠ insight_id i2).
    { intros a b g1 g2 i1 i2 Hab H1 H2 Hi1 Hi2.
      destruct (Hpre a g1 H1) as (h1 & Hh1 & _ & _ & [r1 Hp1]).
      destruct (Hpre b g2 H2) as (h2 & Hh2 & _ & _ & [r2 Hp2]).
      apply (Hdis a b h1 h2); [done..| |].
      - rewrite Hp1. apply elem_of_app. by left.
      - rewrite Hp2. apply elem_of_app. by left. }
    intros a b g1 g2 i1 i2 Hab H1 H2 Hi1 Hi2.
    destruct (Nat.lt_total a b) as [Hlt'|[->|Hgt]]; [by eapply Hlt|done|].
    apply not_eq_sym. by eapply Hlt.
  - intros Hnd i j Hi Hj Heq. rewrite selectSections_eq in Hi, Hj.
    cbn [majorSpending crossDomain] in Hi, Hj.
    apply (subseteq_take 3) in Hi, Hj.
    rewrite array_sort_elem_of, list_elem_of_filter in Hi, Hj.
    destruct Hi as [Hmi Hi], Hj as [Hcj Hj].
    assert (i = j) as -> by (by eapply (NoDup_fmap_inj_on insight_id insights)).
    unfold isMajorSpending in Hmi. apply Is_true_true, String.eqb_eq in Hmi.
    unfold isCrossDomain in Hcj. by rewrite Hmi in Hcj.
Qed.

Lemma C1_domain_groups_exclude_selected_witness :
  NoDup (map insight_id crowdedInsights)
  ∧ ∀ i j, i ∈ majorSpending (buildAllDomainSections crowdedInsights) →
           j ∈ crossDomain (buildAllDomainSections crowdedInsights) →
           insight_id i ≠ insight_id j.
Proof.
  assert (Hnd : NoDup (map insight_id crowdedInsights)).
  { refine (bool_decide_unpack _ _). vm_compute. exact I. }
  split; [exact Hnd|].
  exact (proj2 (proj2 (C1_domain_groups_exclude_selected crowdedInsights)) Hnd).
Defined.



(** C8. The four groups together never hold more than 15 insights. The cap
    is met by cutting the domain insights, taken in display order, down to
    the first [15 - picked]: what goes is taken from the tail, every kept
    group is a group of the selection at the same position cut to a prefix,
    and no kept group is empty. A selection of more than 15 comes out at
    exactly 15. *)
Theorem C8_total_within_cap (insights : list Insight) :
  let selection := selectSections insights in
  let s := buildAllDomainSections insights in
  let picked := (length (keyHighlights s) + length (majorSpending s)
                 + length (crossDomain s))%nat in
  (totalSelected s ≤ MAX_TOTAL)%nat
  ∧ keyHighlights s = keyHighlights selection
  ∧ majorSpending s = majorSpending selection
  ∧ crossDomain s = crossDomain selection
  ∧ domainInsightsOf s = take (MAX_TOTAL - picked) (domainInsightsOf selection)
  ∧ keptPrefix (byDomain selection) (byDomain s)
  ∧ Forall (λ g, dg_insights g ≠ []) (byDomain s)
  ∧ ((MAX_TOTAL < totalSelected selection)%nat → totalSelected s = MAX_TOTAL).
Proof.
  intros selection s picked. subst s picked. unfold buildAllDomainSections.
  fold selection.
  pose proof (selectSections_picked_le insights) as (Hk & Hm & Hc).
  fold selection in Hk, Hm, Hc.
  destruct (truncateSections_spec selection) as (Hflat & Hpre & Hne);
    [simpl; unfold MAX_TOTAL; lia|].
  destruct (truncateSections_picks selection) as (Ek & Em & Ec).
  assert (Hnonempty : Forall (λ g, dg_insights g ≠ []) (byDomain selection)).
  { destruct (selectSections_domainInv insights) as (_ & _ & _ & Hall).
    cbn [fst] in Hall. eapply Forall_impl; [exact Hall|]. by intros g [? _]. }
  unfold totalSelected. rewrite Ek, Em, Ec, Hflat, length_take.
  unfold MAX_TOTAL in *. split_and!; try done; [lia|by apply Hne|lia].
Qed.

Lemma C8_total_within_cap_witness :
  (MAX_TOTAL < totalSelected (selectSections crowdedInsights))%nat
  ∧ totalSelected (buildAllDomainSections crowdedInsights) = MAX_TOTAL.
Proof.
  assert (H : (MAX_TOTAL < totalSelected (selectSections crowdedInsights))%nat).
  { vm_compute. lia. }
  split; [exact H|].
  exact (proj2 (proj2 (proj2 (proj2 (proj2 (proj2 (proj2
           (C8_total_within_cap crowdedInsights))))))) H).
Defined.


(* ================================================================== *)
(** * Facts about the insertion-ordered map *)
(* ================================================================== *)

Section JsMapFacts.
Context {V : Type}.
Implicit Types (m : list (string * V)) (k : string) (v : V).

Lemma map_get_set_eq k v m : map_get k (map_set k v m) = Some v.
Proof.
  induction m as [|[k' v'] m IH]; simpl.
  - by rewrite String.eqb_refl.
  - destruct (String.eqb k' k) eqn:E; simpl; by rewrite E.
Qed.

Lemma map_get_set_ne k k' v m : k ≠ k' → map_get k' (map_set k v m) = map_get k' m.
Proof.
  intros Hne. induction m as [|[k0 v0] m IH]; simpl.
  - destruct (String.eqb_spec k k'); [done|done].
  - destruct (String.eqb_spec k0 k) as [->|]; simpl.
    + by destruct (String.eqb_spec k k').
    + by rewrite IH.
Qed.

Lemma map_get_None k m : map_get k m = None ↔ k ∉ map_keys m.
Proof.
  unfold map_keys. induction m as [|[k' v'] m IH]; simpl.
  - split; [intros _; apply not_elem_of_nil|done].
  - rewrite not_elem_of_cons.
    destruct (String.eqb_spec k' k) as [->|]; [naive_solver|]. rewrite IH. naive_solver.
Qed.

Lemma map_get_Some_elem_of k v m : map_get k m = Some v → (k, v) ∈ m.
Proof.
  induction m as [|[k' v'] m IH]; simpl; [done|].
  destruct (String.eqb_spec k' k) as [->|]; [intros [= ->]; by left|].
  intros H. right. by apply IH.
Qed.

Lemma map_elem_of_get k v m : NoDup (map_keys m) → (k, v) ∈ m → map_get k m = Some v.
Proof.
  unfold map_keys. induction m as [|[k' v'] m IH]; simpl; intros Hnd Hin.
  { by apply elem_of_nil in Hin. }
  apply NoDup_cons in Hnd as [Hk' Hnd].
  apply elem_of_cons in Hin as [[= -> ->]|Hin]; [by rewrite String.eqb_refl|].
  destruct (String.eqb_spec k' k) as [->|]; [|by apply IH].
  exfalso. apply Hk'. by apply (list_elem_of_fmap_2 fst) in Hin.
Qed.

Lemma map_keys_set k v m :
  map_keys (map_set k v m) = if map_has k m then map_keys m else map_keys m ++ [k].
Proof.
  unfold map_has, map_keys. induction m as [|[k' v'] m IH]; simpl; [done|].
  destruct (String.eqb_spec k' k) as [->|]; simpl; [done|].
  rewrite IH. by destruct (map_get k m).
Qed.

Lemma map_set_NoDup k v m : NoDup (map_keys m) → NoDup (map_keys (map_set k v m)).
Proof.
  intros Hnd. rewrite map_keys_set. unfold map_has.
  destruct (map_get k m) eqn:E; [done|].
  apply map_get_None in E. apply NoDup_app. split_and!; [done| |apply NoDup_singleton].
  intros x Hx ->%list_elem_of_singleton. done.
Qed.

Lemma map_has_true k m : map_has k m = true ↔ k ∈ map_keys m.
Proof.
  unfold map_has. destruct (map_get k m) eqn:E.
  - split; [|done]. intros _. destruct (decide (k ∈ map_keys m)); [done|].
    apply map_get_None in n. congruence.
  - apply map_get_None in E. split; [done|]. intros; contradiction.
Qed.
End JsMapFacts.


(* ================================================================== *)
(** * The merger *)
(* ================================================================== *)

Lemma mergeInsight_annotated domain fam m insight :
  mergeInsight domain fam m insight = mergeAnnotated m (annotate domain fam insight).
Proof. done. Qed.

Lemma mergeFamily_traversal domain m fam :
  mergeFamily domain m fam
  = foldl mergeAnnotated m (map (annotate domain fam) (fam_insights fam)).
Proof.
  unfold mergeFamily. generalize (fam_insights fam) as l. intros l. revert m.
  induction l as [|i l IH]; intros m; simpl; [done|].
  by rewrite IH, mergeInsight_annotated.
Qed.

Lemma mergeDomain_traversal m domain :
  mergeDomain m domain
  = foldl mergeAnnotated m
      (concat (map (λ fam, map (annotate domain fam) (fam_insights fam))
                   (dom_families domain))).
Proof.
  unfold mergeDomain. generalize (dom_families domain) as fs. intros fs. revert m.
  induction fs as [|f fs IH]; intros m; simpl; [done|].
  by rewrite foldl_app, IH, mergeFamily_traversal.
Qed.

Lemma mergeSimilarInsights_traversal domains :
  mergeSimilarInsights domains
  = map_values (foldl mergeAnnotated [] (traversal domains)).
Proof.
  unfold mergeSimilarInsights, traversal. f_equal.
  generalize (@nil (string * Insight)) as m. intros m. revert m.
  induction domains as [|d ds IH]; intros m; simpl; [done|].
  by rewrite foldl_app, IH, mergeDomain_traversal.
Qed.

Lemma keptFor_snoc seen collides y a :
  keptFor seen collides y →
  (collides a → rank (priority y) <= rank (priority a)) →
  keptFor (seen ++ [a]) collides y.
Proof.
  intros (Hy & pre & post & -> & Hpre & Hpost) Ha. split; [done|].
  exists pre, (post ++ [a]). split_and!; [by rewrite <- app_assoc|done|].
  intros z [Hz| ->%list_elem_of_singleton]%elem_of_app; auto.
Qed.

Lemma keptFor_new seen collides a :
  collides a →
  (∀ z, z ∈ seen → collides z → rank (priority a) < rank (priority z)) →
  keptFor (seen ++ [a]) collides a.
Proof.
  intros Ha Hseen. split; [done|]. exists seen, []. split_and!; [done|done|].
  intros z Hz. by apply elem_of_nil in Hz.
Qed.

Lemma keptFor_elem_of seen collides y : keptFor seen collides y → y ∈ seen.
Proof.
  intros (_ & pre & post & -> & _). apply elem_of_app. right. by left.
Qed.

Lemma keptFor_le seen collides y z :
  keptFor seen collides y → z ∈ seen → collides z →
  rank (priority y) <= rank (priority z).
Proof.
  intros (_ & pre & post & -> & Hpre & Hpost) Hz Hc.
  apply elem_of_app in Hz as [Hz|Hz]; [specialize (Hpre z Hz Hc); lia|].
  apply elem_of_cons in Hz as [->|Hz]; [lia|]. by apply Hpost.
Qed.

Lemma mergeAnnotated_inv seen m a :
  mergeInv seen m → mergeInv (seen ++ [a]) (mergeAnnotated m a).
Proof.
  intros (Hnd & Hkept & Hseen). unfold mergeAnnotated.
  destruct (map_get (keyOf a) m) as [kept|] eqn:Hget.
  - destruct (Z.ltb_spec (rank (priority a)) (rank (priority kept))) as [Hlt|Hge].
    + split_and!.
      * by apply map_set_NoDup.
      * intros k y Hy. destruct (decide (keyOf a = k)) as [<-|Hne].
        -- rewrite map_get_set_eq in Hy. injection Hy as <-.
           apply keptFor_new; [done|]. intros z Hz Hc.
           pose proof (keptFor_le _ _ _ z (Hkept _ _ Hget) Hz Hc). lia.
        -- rewrite map_get_set_ne in Hy by done.
           apply keptFor_snoc; [by apply Hkept|]. intros Hc. by destruct Hne.
      * intros x [Hx| ->%list_elem_of_singleton]%elem_of_app.
        -- destruct (decide (keyOf a = keyOf x)) as [<-|Hne].
           ++ by rewrite map_get_set_eq.
           ++ rewrite map_get_set_ne by done. by apply Hseen.
        -- by rewrite map_get_set_eq.
    + split_and!; [done| |].
      * intros k y Hy. apply keptFor_snoc; [by apply Hkept|].
        intros Hc. rewrite Hc, Hy in Hget. by injection Hget as ->.
      * intros x [Hx| ->%list_elem_of_singleton]%elem_of_app; [by apply Hseen|].
        by rewrite Hget.
  - split_and!.
    + by apply map_set_NoDup.
    + intros k y Hy. destruct (decide (keyOf a = k)) as [<-|Hne].
      * rewrite map_get_set_eq in Hy. injection Hy as <-.
        apply keptFor_new; [done|]. intros z Hz Hc.
        destruct (Hseen z Hz) as [v Hv]. rewrite Hc, Hget in Hv. done.
      * rewrite map_get_set_ne in Hy by done.
        apply keptFor_snoc; [by apply Hkept|]. intros Hc. by destruct Hne.
    + intros x [Hx| ->%list_elem_of_singleton]%elem_of_app.
      * destruct (decide (keyOf a = keyOf x)) as [<-|Hne].
        -- by rewrite map_get_set_eq.
        -- rewrite map_get_set_ne by done. by apply Hseen.
      * by rewrite map_get_set_eq.
Qed.

Lemma mergeFold_inv seen m l :
  mergeInv seen m → mergeInv (seen ++ l) (foldl mergeAnnotated m l).
Proof.
  revert seen m. induction l as [|a l IH]; intros seen m Hinv; simpl.
  - by rewrite app_nil_r.
  - rewrite (cons_middle a seen l), app_assoc. by apply IH, mergeAnnotated_inv.
Qed.

Lemma merge_inv domains :
  mergeInv (traversal domains) (foldl mergeAnnotated [] (traversal domains)).
Proof.
  apply (mergeFold_inv [] [] (traversal domains)).
  split_and!; [constructor| |]; [intros k y Hy; done|].
  intros x Hx. by apply elem_of_nil in Hx.
Qed.







(* ================================================================== *)
(** * The Comparator *)
(* ================================================================== *)

Ltac compare_cases :=
  unfold compareInsights;
  repeat match goal with
         | |- context [Z.eqb ?a ?b] => destruct (Z.eqb_spec a b)
         | H : context [Z.eqb ?a ?b] |- _ => destruct (Z.eqb_spec a b)
         end; simpl in *; try lia.

Lemma compareInsights_total a b : compareInsights a b <= 0 ∨ compareInsights b a <= 0.
Proof. compare_cases. Qed.

Lemma compareInsights_trans a b c :
  compareInsights a b <= 0 → compareInsights b c <= 0 → compareInsights a c <= 0.
Proof. compare_cases. Qed.

Lemma compareInsights_refl a : compareInsights a a <= 0.
Proof. by destruct (compareInsights_total a a). Qed.

Lemma compareBuckets_total a b : compareBuckets a b <= 0 ∨ compareBuckets b a <= 0.
Proof.
  unfold compareBuckets.
  destruct (bucket_insights a), (bucket_insights b);
    auto using compareInsights_total with lia.
Qed.

Lemma compareBuckets_trans a b c :
  compareBuckets a b <= 0 → compareBuckets b c <= 0 → compareBuckets a c <= 0.
Proof.
  unfold compareBuckets.
  destruct (bucket_insights a), (bucket_insights b), (bucket_insights c);
    try lia. apply compareInsights_trans.
Qed.

(* ================================================================== *)
(** * Grouping into buckets *)
(* ================================================================== *)

Lemma filter_none {A : Type} (P : A → Prop) `{!∀ x, Decision (P x)} (l : list A) :
  (∀ x, x ∈ l → ¬ P x) → filter P l = [].
Proof.
  intros Hno. destruct (filter P l) as [|x l'] eqn:E; [done|].
  assert (Hx : x ∈ filter P l) by (rewrite E; by left).
  apply list_elem_of_filter in Hx as [HP Hx]. by destruct (Hno x Hx).
Qed.

Lemma concat_values_set_new (acc : JsMap Bucket) k :
  map_get k acc = None →
  concat (map bucket_insights
            (map_values (map_set k {| bucket_familyKey := k; bucket_insights := [] |} acc)))
  = concat (map bucket_insights (map_values acc)).
Proof.
  unfold map_values. induction acc as [|[k' b'] acc IH]; simpl; [done|].
  destruct (String.eqb_spec k' k); [done|]. intros H. simpl. by rewrite IH.
Qed.

Lemma concat_values_set_push (acc : JsMap Bucket) k b i :
  map_get k acc = Some b →
  concat (map bucket_insights
            (map_values (map_set k {| bucket_familyKey := bucket_familyKey b;
                                      bucket_insights := bucket_insights b ++ [i] |} acc)))
  ≡ₚ i :: concat (map bucket_insights (map_values acc)).
Proof.
  unfold map_values. induction acc as [|[k' b'] acc IH]; simpl; [done|].
  destruct (String.eqb_spec k' k) as [->|].
  - intros [= ->]. simpl. rewrite <- app_assoc. simpl.
    by rewrite <- Permutation_middle.
  - intros H. simpl. rewrite IH by done. by rewrite <- Permutation_middle.
Qed.

Lemma groupInsight_inv seen acc i :
  groupInv seen acc → groupInv (seen ++ [i]) (groupInsight acc i).
Proof.
  intros (Hnd & Hb & Hseen & Hperm). unfold groupInsight.
  set (k := bucketKeyOf i).
  assert (Hstep : ∀ acc' b,
    NoDup (map_keys acc') → map_get k acc' = Some b →
    bucket_familyKey b = k →
    bucket_insights b = filter (λ j, bucketKeyOf j = k) seen →
    (∀ k', k' ≠ k → map_get k' acc' = map_get k' acc) →
    concat (map bucket_insights (map_values acc')) ≡ₚ seen →
    groupInv (seen ++ [i])
      (map_set k {| bucket_familyKey := bucket_familyKey b;
                    bucket_insights := bucket_insights b ++ [i] |} acc')).
  { intros acc' b Hnd' Hget Hkey Hins Hother Hperm'. split_and!.
    - by apply map_set_NoDup.
    - intros k' b' Hb'. destruct (decide (k = k')) as [<-|Hne].
      + rewrite map_get_set_eq in Hb'. injection Hb' as <-. simpl.
        split_and!; [done| |by destruct (bucket_insights b)].
        rewrite filter_app, Hins. f_equal. by rewrite filter_cons_True.
      + rewrite map_get_set_ne, Hother in Hb' by done.
        destruct (Hb k' b' Hb') as (? & ? & ?). split_and!; [done| |done].
        rewrite filter_app, (filter_cons_False _ i) by (by intros ?).
        by rewrite app_nil_r.
    - intros j [Hj| ->%list_elem_of_singleton]%elem_of_app.
      + destruct (decide (k = bucketKeyOf j)) as [<-|Hne].
        * by rewrite map_get_set_eq.
        * rewrite map_get_set_ne, Hother by done. by apply Hseen.
      + fold k. by rewrite map_get_set_eq.
    - rewrite concat_values_set_push by done. rewrite Hperm'.
      by rewrite <- Permutation_cons_append. }
  destruct (map_get k acc) as [b|] eqn:Hget.
  - rewrite Hget. destruct (Hb k b Hget) as (? & ? & _). by apply Hstep.
  - rewrite map_get_set_eq. apply Hstep; simpl.
    + by apply map_set_NoDup.
    + apply map_get_set_eq.
    + done.
    + symmetry. apply filter_none. intros j Hj Hk.
      destruct (Hseen j Hj) as [v Hv]. rewrite Hk, Hget in Hv. done.
    + intros k' Hne. by rewrite map_get_set_ne.
    + by rewrite concat_values_set_new.
Qed.

Lemma groupFold_inv seen acc l :
  groupInv seen acc → groupInv (seen ++ l) (foldl groupInsight acc l).
Proof.
  revert seen acc. induction l as [|i l IH]; intros seen acc Hinv; simpl.
  - by rewrite app_nil_r.
  - rewrite (cons_middle i seen l), app_assoc. by apply IH, groupInsight_inv.
Qed.

Lemma group_inv insights : groupInv insights (foldl groupInsight [] insights).
Proof.
  apply (groupFold_inv [] [] insights).
  split_and!; [constructor| | |done]; [intros k b Hb; done|].
  intros i Hi. by apply elem_of_nil in Hi.
Qed.

Lemma concat_map_perm {A B : Type} (f : A → list B) (l1 l2 : list A) :
  l1 ≡ₚ l2 → concat (map f l1) ≡ₚ concat (map f l2).
Proof.
  induction 1 as [|x l1 l2 _ IH|x y l|l1 l2 l3 _ IH1 _ IH2]; simpl.
  - done.
  - by rewrite IH.
  - rewrite !app_assoc. f_equiv. apply Permutation_app_comm.
  - by rewrite IH1.
Qed.

Lemma groupBuckets_spec insights :
  NoDup (map bucket_familyKey (groupBuckets insights))
  ∧ (∀ b, b ∈ groupBuckets insights →
       bucket_insights b = filter (λ i, bucketKeyOf i = bucket_familyKey b) insights
       ∧ bucket_insights b ≠ [])
  ∧ (∀ i, i ∈ insights →
       ∃ b, b ∈ groupBuckets insights ∧ bucket_familyKey b = bucketKeyOf i)
  ∧ concat (map bucket_insights (groupBuckets insights)) ≡ₚ insights.
Proof.
  unfold groupBuckets. destruct (group_inv insights) as (Hnd & Hb & Hseen & Hperm).
  set (acc := foldl groupInsight [] insights) in *.
  assert (Hin : ∀ b, b ∈ map_values acc → map_get (bucket_familyKey b) acc = Some b).
  { intros b Hb'. apply list_elem_of_fmap in Hb' as ([k b'] & -> & Hin). simpl.
    pose proof (map_elem_of_get _ _ _ Hnd Hin) as Hget.
    destruct (Hb _ _ Hget) as (-> & _). done. }
  split_and!; [| | |done].
  - replace (map bucket_familyKey (map_values acc)) with (map_keys acc); [done|].
    unfold map_values, map_keys. rewrite map_map. apply map_ext_in.
    intros [k b] Hkb. simpl. apply list_elem_of_In in Hkb.
    pose proof (map_elem_of_get _ _ _ Hnd Hkb) as Hget.
    by destruct (Hb _ _ Hget) as (-> & _).
  - intros b Hb'. destruct (Hb _ _ (Hin b Hb')) as (_ & ? & ?). done.
  - intros i Hi. destruct (Hseen i Hi) as [b Hget]. exists b.
    destruct (Hb _ _ Hget) as (? & _). split; [|done].
    apply map_get_Some_elem_of in Hget. by apply (list_elem_of_fmap_2 snd) in Hget.
Qed.

Lemma preparedBuckets_spec insights :
  let buckets := preparedBuckets insights in
  StronglySorted (cmp_le compareBuckets) buckets
  ∧ NoDup (map bucket_familyKey buckets)
  ∧ (∀ b, b ∈ buckets →
       bucket_insights b
         = array_sort compareInsights
             (filter (λ i, bucketKeyOf i = bucket_familyKey b) insights)
       ∧ bucket_insights b ≠ [])
  ∧ (∀ i, i ∈ insights → ∃ b, b ∈ buckets ∧ bucket_familyKey b = bucketKeyOf i)
  ∧ concat (map bucket_insights buckets) ≡ₚ insights.
Proof.
  intros buckets. subst buckets. unfold preparedBuckets, sortBuckets.
  destruct (groupBuckets_spec insights) as (Hnd & Hb & Hseen & Hperm).
  split_and!.
  - apply array_sort_sorted; [apply compareBuckets_total|apply compareBuckets_trans].
  - rewrite array_sort_perm, map_map. simpl. exact Hnd.
  - intros b Hb'. rewrite array_sort_elem_of in Hb'.
    apply list_elem_of_fmap in Hb' as (b0 & -> & Hb0). simpl.
    destruct (Hb b0 Hb0) as [-> Hne]. split; [done|].
    intros Hnil. by apply array_sort_nil_inv in Hnil.
  - intros i Hi. destruct (Hseen i Hi) as (b & Hb' & Hk). exists (sortBucket b).
    split; [|done]. rewrite array_sort_elem_of. by apply (list_elem_of_fmap_2 sortBucket).
  - rewrite (concat_map_perm _ _ _ (array_sort_perm _ _)), map_map. simpl.
    etrans; [|exact Hperm]. clear.
    induction (groupBuckets insights) as [|b bs IH]; simpl; [done|].
    by rewrite IH, array_sort_perm.
Qed.



(* ================================================================== *)
(** * The selection loop *)
(* ================================================================== *)

Lemma bucketHeads_cons bucket rest :
  bucketHeads (bucket :: rest)
  = match bucket_insights bucket with
    | [] => bucketHeads rest
    | h :: _ => h :: bucketHeads rest
    end.
Proof. unfold bucketHeads. simpl. by destruct (bucket_insights bucket). Qed.

Lemma shiftBucket_empty bucket : bucket_insights bucket = [] → shiftBucket bucket = bucket.
Proof. destruct bucket as [k l]. simpl. by intros ->. Qed.

(** One run of the [for] loop takes the heads of the buckets in order, as
    many as the limit still allows. *)
Lemma forBuckets_spec limit buckets selection added :
  (length selection < limit)%nat →
  let heads := bucketHeads buckets in
  let k := (limit - length selection)%nat in
  let result := forBuckets limit buckets selection added in
  result.1.2 = selection ++ take k heads
  ∧ result.2 = match heads with [] => added | _ => true end
  ∧ ((length heads < k)%nat → result.1.1 = map shiftBucket buckets)
  ∧ Forall2 (λ b b', b' = b ∨ b' = shiftBucket b) buckets result.1.1.
Proof.
  revert selection added.
  induction buckets as [|bucket rest IH]; intros selection added Hlt; cbn zeta.
  { simpl. rewrite take_nil, app_nil_r. by split_and!. }
  rewrite bucketHeads_cons. cbn [forBuckets].
  destruct (bucket_insights bucket) as [|h tl] eqn:E.
  - specialize (IH selection added Hlt). cbn zeta in IH.
    destruct (forBuckets limit rest selection added) as [[rest' selection'] added'].
    cbn [fst snd] in *. destruct IH as (-> & -> & Hfull & Hall).
    split_and!; [done|done| |by constructor; [left|]].
    intros Hk. simpl. by rewrite shiftBucket_empty, Hfull.
  - assert (Hshift : {| bucket_familyKey := bucket_familyKey bucket;
                        bucket_insights := tl |} = shiftBucket bucket).
    { unfold shiftBucket. by rewrite E. }
    rewrite Hshift.
    destruct (length (selection ++ [h]) =? limit)%nat eqn:El.
    + apply Nat.eqb_eq in El. rewrite length_app in El. simpl in El.
      cbn [fst snd]. replace (limit - length selection)%nat with 1%nat by lia.
      split_and!; [done|done|simpl; lia|].
      constructor; [by right|]. apply Forall2_same_length_lookup_2; [done|].
      intros i x y Hx Hy. left. congruence.
    + apply Nat.eqb_neq in El. rewrite length_app in El. simpl in El.
      assert (Hlt' : (length (selection ++ [h]) < limit)%nat).
      { rewrite length_app. simpl. lia. }
      specialize (IH (selection ++ [h]) true Hlt'). cbn zeta in IH.
      destruct (forBuckets limit rest (selection ++ [h]) true)
        as [[rest' selection'] added'].
      cbn [fst snd] in *. destruct IH as (-> & -> & Hfull & Hall).
      rewrite length_app in *. simpl in *.
      replace (limit - length selection)%nat
        with (S (limit - (length selection + 1)))%nat by lia.
      split_and!.
      * by rewrite <- app_assoc.
      * by destruct (bucketHeads rest).
      * intros Hk. rewrite Hfull by lia. done.
      * constructor; [by right|done].
Qed.

Lemma roundRobinPasses_take j m n buckets :
  (j ≤ m)%nat → (m ≤ n)%nat →
  take j (concat (roundRobinPasses n buckets))
  = take j (concat (roundRobinPasses m buckets)).
Proof.
  revert j n buckets. induction m as [|m IH]; intros j n buckets Hj Hm.
  { replace j with 0%nat by lia. done. }
  destruct n as [|n]; [lia|]. simpl.
  destruct (bucketHeads buckets) as [|h hs]; [done|].
  cbn [concat]. rewrite !(take_app (h :: hs)). f_equal.
  destruct j as [|j]; [done|]. apply IH; simpl; lia.
Qed.

(** The loop returns, and returns what the passes select, cut at the
    limit. *)
Lemma whileSelecting_spec fuel limit buckets selection :
  (limit - length selection < fuel)%nat →
  whileSelecting fuel limit buckets selection
  = Some (selection
          ++ take (limit - length selection)
                  (concat (roundRobinPasses (limit - length selection) buckets))).
Proof.
  revert buckets selection.
  induction fuel as [|fuel IH]; intros buckets selection Hfuel; [lia|].
  cbn [whileSelecting].
  destruct (length selection <? limit)%nat eqn:El.
  2:{ apply Nat.ltb_ge in El. replace (limit - length selection)%nat with 0%nat by lia.
      by rewrite take_0, app_nil_r. }
  apply Nat.ltb_lt in El.
  pose proof (forBuckets_spec limit buckets selection false El) as Hspec.
  cbn zeta in Hspec.
  destruct (forBuckets limit buckets selection false) as [[buckets' selection'] added'].
  cbn [fst snd] in Hspec. destruct Hspec as (-> & -> & Hfull & _).
  remember (limit - length selection)%nat as k eqn:Ek.
  destruct k as [|k']; [lia|]. cbn [roundRobinPasses].
  destruct (bucketHeads buckets) as [|h hs] eqn:Eh.
  { by rewrite take_nil. }
  cbn [concat]. rewrite (take_app (h :: hs)).
  destruct (decide (length (h :: hs) < S k')%nat) as [Hshort|Hlong].
  - rewrite Hfull by done. rewrite (take_ge (h :: hs)) by lia.
    assert (Hfuel' : (limit - length (selection ++ h :: hs) < fuel)%nat).
    { rewrite length_app. cbn [length] in *. clear -Ek Hfuel Hshort El. lia. }
    rewrite IH by done.
    rewrite <- app_assoc. do 3 f_equal.
    rewrite length_app.
    replace (limit - (length selection + length (h :: hs)))%nat
      with (S k' - length (h :: hs))%nat by lia.
    symmetry. apply roundRobinPasses_take; simpl in *; lia.
  - replace (S k' - length (h :: hs))%nat with 0%nat by (simpl in *; lia).
    rewrite take_0, app_nil_r.
    destruct fuel as [|fuel'].
    + cbn [whileSelecting].
      replace (length (selection ++ take (S k') (h :: hs)) <? limit)%nat with false; [done|].
      symmetry. apply Nat.ltb_ge. rewrite length_app, length_take. simpl in *. lia.
    + cbn [whileSelecting].
      replace (length (selection ++ take (S k') (h :: hs)) <? limit)%nat with false; [done|].
      symmetry. apply Nat.ltb_ge. rewrite length_app, length_take. simpl in *. lia.
Qed.

Lemma getDiverseInsights_spec insights limit :
  getDiverseInsights insights limit
  = Some (take limit (concat (roundRobinPasses limit (preparedBuckets insights)))).
Proof.
  unfold getDiverseInsights. destruct insights as [|i insights].
  - by destruct limit.
  - rewrite whileSelecting_spec by (simpl; lia). simpl. by rewrite Nat.sub_0_r.
Qed.

(** ** Passes *)

Lemma bucketsWF_perm buckets buckets' :
  buckets ≡ₚ buckets' → bucketsWF buckets → bucketsWF buckets'.
Proof.
  intros Hp [Hnd Hin]. split.
  - by rewrite <- Hp.
  - intros b i Hb. apply Hin. by rewrite Hp.
Qed.

Lemma bucketsWF_step buckets buckets' :
  Forall2 (λ b b', b' = b ∨ b' = shiftBucket b) buckets buckets' →
  bucketsWF buckets → bucketsWF buckets'.
Proof.
  intros Hall [Hnd Hin].
  assert (Hkeys : map bucket_familyKey buckets' = map bucket_familyKey buckets).
  { clear -Hall. induction Hall as [|b b' bs bs' [->| ->] _ IH]; simpl; [done|by f_equal..]. }
  split; [by rewrite Hkeys|].
  intros b' i Hb' Hi. apply list_elem_of_lookup_1 in Hb' as [j Hj].
  destruct (Forall2_lookup_r _ _ _ _ _ Hall Hj) as (b & Hb & [->| ->]).
  - apply Hin; [|done]. by eapply list_elem_of_lookup_2.
  - simpl. apply Hin; [by eapply list_elem_of_lookup_2|].
    simpl in Hi. destruct (bucket_insights b); [done|]. by right.
Qed.

Lemma bucketHeads_elem_of buckets h :
  h ∈ bucketHeads buckets →
  ∃ b tl, b ∈ buckets ∧ bucket_insights b = h :: tl.
Proof.
  unfold bucketHeads. rewrite list_elem_of_omap. intros (b & Hb & Hh).
  destruct (bucket_insights b) as [|h' tl] eqn:E; [done|].
  injection Hh as ->. by exists b, tl.
Qed.





Lemma preparedBuckets_WF insights : bucketsWF (preparedBuckets insights).
Proof.
  destruct (preparedBuckets_spec insights) as (_ & Hnd & Hb & _).
  split; [done|]. intros b i Hb' Hi. destruct (Hb b Hb') as [Hins _].
  rewrite Hins, array_sort_elem_of in Hi. by apply list_elem_of_filter in Hi as [-> _].
Qed.



(** ** The first pass and the last *)



Lemma bucketHeads_nil buckets :
  bucketHeads buckets = [] → concat (map bucket_insights buckets) = [].
Proof.
  induction buckets as [|b bs IH]; [done|]. rewrite bucketHeads_cons. simpl.
  destruct (bucket_insights b); [|done]. intros H. by rewrite IH.
Qed.

Lemma bucketHeads_shift_perm buckets :
  concat (map bucket_insights buckets)
  ≡ₚ bucketHeads buckets ++ concat (map bucket_insights (map shiftBucket buckets)).
Proof.
  induction buckets as [|b bs IH]; [done|]. rewrite bucketHeads_cons. simpl.
  destruct (bucket_insights b) as [|h tl]; simpl; [done|].
  f_equiv. rewrite IH. rewrite !app_assoc. f_equiv. apply Permutation_app_comm.
Qed.

Lemma roundRobinPasses_all n buckets :
  (length (concat (map bucket_insights buckets)) ≤ n)%nat →
  concat (roundRobinPasses n buckets) ≡ₚ concat (map bucket_insights buckets).
Proof.
  revert buckets. induction n as [|n IH]; intros buckets Hle.
  { simpl. symmetry. apply Permutation_nil_r, nil_length_inv. lia. }
  cbn [roundRobinPasses].
  destruct (bucketHeads buckets) as [|h hs] eqn:Eh.
  { by rewrite bucketHeads_nil. }
  cbn [concat]. rewrite (bucketHeads_shift_perm buckets), Eh.
  f_equiv. rewrite IH.
  - apply concat_map_perm, array_sort_perm.
  - unfold sortBuckets. rewrite (concat_map_perm _ _ _ (array_sort_perm _ _)).
    rewrite (bucketHeads_shift_perm buckets), Eh, length_app in Hle. simpl in Hle. lia.
Qed.

Lemma sorted_head_le (l : list Insight) h tl i :
  array_sort compareInsights l = h :: tl → i ∈ l → compareInsights h i <= 0.
Proof.
  intros E Hi.
  pose proof (array_sort_sorted compareInsights compareInsights_total
                compareInsights_trans l) as Hs.
  rewrite <- (array_sort_elem_of compareInsights), E in Hi. rewrite E in Hs.
  apply StronglySorted_cons in Hs as [Hall _].
  apply elem_of_cons in Hi as [->|Hi]; [apply compareInsights_refl|].
  rewrite Forall_forall in Hall. by apply Hall.
Qed.




(** Two families, limit 2: one insight of each. *)
Example two_families_one_each :
  option_map (map insight_id) (getDiverseInsights twoFamilies 2) = Some ["a1"; "b1"]
  ∧ map insight_id (specifiedDiverseInsights twoFamilies 2) = ["a1"; "a2"].
Proof. split; reflexivity. Qed.



(** Three families of three insights each, with a limit of 3: one insight of
    each family, the best of each. *)
Example three_families_one_each :
  option_map (map insight_id) (getDiverseInsights threeByThree 3)
  = Some ["a1"; "b1"; "c1"].
Proof. reflexivity. Qed.



(** Three insights without a family among four: one per pass. *)
Example uncategorized_one_per_pass :
  map (map insight_id) (diversePasses someUncategorized 6)
  = [["a1"; "u1"]; ["u2"]; ["u3"]].
Proof. reflexivity. Qed.


(* ================================================================== *)
(** * The projection engine *)
(* ================================================================== *)

Lemma bucketTransaction_keys monthBuckets t :
  map_keys (bucketTransaction monthBuckets t)
  = match date t with
    | None => map_keys monthBuckets
    | Some d =>
        if map_has (toMonthKey d) monthBuckets then map_keys monthBuckets
        else map_keys monthBuckets ++ [toMonthKey d]
    end.
Proof.
  unfold bucketTransaction. destruct (date t) as [d|]; [|done].
  destruct (map_has (toMonthKey d) monthBuckets) eqn:Ehas.
  - unfold map_has in Ehas.
    destruct (map_get (toMonthKey d) monthBuckets) eqn:Eget; [|done].
    rewrite map_keys_set. unfold map_has. by rewrite Eget.
  - rewrite map_get_set_eq, map_keys_set.
    replace (map_has (toMonthKey d) (map_set (toMonthKey d) newBucket monthBuckets))
      with true by (unfold map_has; by rewrite map_get_set_eq).
    rewrite map_keys_set. by rewrite Ehas.
Qed.

Lemma bucketTransaction_inv seen monthBuckets t :
  bucketKeysInv seen monthBuckets →
  bucketKeysInv (seen ++ [t]) (bucketTransaction monthBuckets t).
Proof.
  intros [Hnd Hkeys]. unfold bucketKeysInv.
  rewrite bucketTransaction_keys, omap_app. simpl.
  destruct (date t) as [d|]; simpl.
  - destruct (map_has (toMonthKey d) monthBuckets) eqn:Ehas.
    + apply map_has_true in Ehas. split; [done|].
      intros k. rewrite elem_of_app, list_elem_of_singleton, <- Hkeys. naive_solver.
    + split.
      * apply NoDup_app. split_and!; [done| |apply NoDup_singleton].
        intros k Hk ->%list_elem_of_singleton.
        apply map_has_true in Hk. congruence.
      * intros k. by rewrite !elem_of_app, Hkeys.
  - rewrite app_nil_r. by split.
Qed.

Lemma bucketFold_inv seen monthBuckets l :
  bucketKeysInv seen monthBuckets →
  bucketKeysInv (seen ++ l) (foldl bucketTransaction monthBuckets l).
Proof.
  revert seen monthBuckets. induction l as [|t l IH]; intros seen mb Hinv; simpl.
  - by rewrite app_nil_r.
  - rewrite (cons_middle t seen l), app_assoc. by apply IH, bucketTransaction_inv.
Qed.

Lemma buildMonthlyData_length transactions :
  length (buildMonthlyData transactions)
  = (length (monthKeysOf transactions) `min` MAX_HISTORY)%nat.
Proof.
  unfold buildMonthlyData, slice_last.
  rewrite length_map, length_drop, array_sort_length.
  destruct (bucketFold_inv [] [] transactions) as [Hnd Hkeys].
  { split; [constructor|]. intros k. simpl. done. }
  simpl in Hnd, Hkeys.
  assert (Hlen : length (map_keys (foldl bucketTransaction [] transactions))
                 = length (monthKeysOf transactions)).
  { apply Permutation_length, NoDup_Permutation; [done|apply NoDup_remove_dups|].
    intros k. unfold monthKeysOf. by rewrite elem_of_remove_dups. }
  rewrite Hlen. lia.
Qed.

(** C3. The result is the variant 'collecting' exactly when there is no
    transaction or the balance is null or undefined; it is 'insufficient'
    exactly when there are transactions and a balance but fewer than 3 month
    buckets, the transactions whose date does not parse having none; and it
    is populated otherwise. Two months of history give 'insufficient', three
    give a populated projection. *)
Theorem C3_projection_variants (now : Z) (transactions : list Transaction)
    (currentBalance : Balance) :
  let result := buildFinancialProjection now transactions currentBalance in
  let months := length (monthKeysOf transactions) in
  let hasBalance := ∃ balance, currentBalance = BalanceNumber balance in
  (result = NoData collecting ↔
     transactions = [] ∨ currentBalance = BalanceNull ∨ currentBalance = BalanceUndefined)
  ∧ (result = NoData insufficient ↔
       transactions ≠ [] ∧ hasBalance ∧ (months < 3)%nat)
  ∧ ((∃ data, result = HasData data) ↔
       transactions ≠ [] ∧ hasBalance ∧ (3 ≤ months)%nat)
  ∧ (months = 2%nat → hasBalance → result = NoData insufficient)
  ∧ (months = 3%nat → hasBalance → ∃ data, result = HasData data).
Proof.
  intros result months hasBalance. subst result months hasBalance.
  unfold buildFinancialProjection.
  pose proof (buildMonthlyData_length transactions) as Hlen. unfold MAX_HISTORY in Hlen.
  assert (Hnil : transactions = [] → monthKeysOf transactions = []).
  { by intros ->. }
  destruct transactions as [|t ts].
  { rewrite Hnil by done. simpl.
    split_and!; try (split; [intros H|intros [H _]]; done);
      try (split; [intros [? H]|intros [H _]]; done); try done.
    split; [by left|done]. }
  clear Hnil. destruct currentBalance as [| |balance].
  - split_and!; try (intros _ [? ?]; done).
    + split; [by right; left|done].
    + split; [done|intros (_ & [? ?] & _); done].
    + split; [intros [? ?]; done|intros (_ & [? ?] & _); done].
  - split_and!; try (intros _ [? ?]; done).
    + split; [by right; right|done].
    + split; [done|intros (_ & [? ?] & _); done].
    + split; [intros [? ?]; done|intros (_ & [? ?] & _); done].
  - destruct (length (buildMonthlyData (t :: ts)) <? 3)%nat eqn:E.
    + apply Nat.ltb_lt in E. split_and!.
      * split; [done|]. intros [?|[?|?]]; done.
      * split; [|done]. intros _. split_and!; [done|by eexists|lia].
      * split; [intros [? ?]; done|]. intros (_ & _ & ?). lia.
      * done.
      * intros ? _. lia.
    + apply Nat.ltb_ge in E. split_and!.
      * split; [done|]. intros [?|[?|?]]; done.
      * split; [done|]. intros (_ & _ & ?). lia.
      * split; [|by eexists]. intros _. split_and!; [done|by eexists|lia].
      * intros ? _. lia.
      * intros _ _. by eexists.
Qed.

Lemma C3_projection_variants_witness :
  (length (monthKeysOf twoMonths) = 2%nat
   ∧ buildFinancialProjection 0 twoMonths (BalanceNumber 5000) = NoData insufficient)
  ∧ (length (monthKeysOf scenarioTransactions) = 3%nat
     ∧ ∃ data, buildFinancialProjection 0 scenarioTransactions (BalanceNumber 5000)
               = HasData data).
Proof.
  assert (H2 : length (monthKeysOf twoMonths) = 2%nat) by (vm_compute; reflexivity).
  assert (H3 : length (monthKeysOf scenarioTransactions) = 3%nat)
    by (vm_compute; reflexivity).
  split; (split; [assumption|]).
  - exact (proj1 (proj2 (proj2 (proj2
             (C3_projection_variants 0 twoMonths (BalanceNumber 5000)))))
             H2 (ex_intro _ _ eq_refl)).
  - exact (proj2 (proj2 (proj2 (proj2
             (C3_projection_variants 0 scenarioTransactions (BalanceNumber 5000)))))
             H3 (ex_intro _ _ eq_refl)).
Defined.

Lemma num_or_zero (value : float) :
  value = PrimFloat.zero ∨ value = PrimFloat.neg_zero ∨ value = PrimFloat.nan →
  num_or value 0 = PrimFloat.zero.
Proof. by intros [->|[->| ->]]. Qed.

Lemma month_bucket_after monthBuckets t d :
  date t = Some d →
  map_get (toMonthKey d) (bucketTransaction monthBuckets t)
  = Some (recordTransaction
            (default newBucket (map_get (toMonthKey d) monthBuckets)) t)
  ∧ ∀ k, k ≠ toMonthKey d →
      map_get k (bucketTransaction monthBuckets t) = map_get k monthBuckets.
Proof.
  intros Hd. unfold bucketTransaction, map_has. rewrite Hd.
  destruct (map_get (toMonthKey d) monthBuckets) as [bucket|] eqn:Eget.
  - rewrite Eget. simpl. split; [apply map_get_set_eq|].
    intros k Hk. by rewrite map_get_set_ne.
  - rewrite map_get_set_eq. simpl. split; [apply map_get_set_eq|].
    intros k Hk. by rewrite !map_get_set_ne.
Qed.

(** C9. A transaction with a date that parses and an amount of 0 (also -0,
    and a non-numeric amount, which reads as NaN and is replaced by 0) is
    recorded as spending: the bucket of its month gets 0 added to its
    spending total and to the total of the transaction's category, and 0
    appended to its spending events; its income total and income events
    stay as they were. The other buckets are not touched. *)
Theorem C9_zero_amount_is_spending (monthBuckets : JsMap MonthBucket)
    (t : Transaction) (d : Z) :
  date t = Some d →
  amount t = PrimFloat.zero ∨ amount t = PrimFloat.neg_zero ∨ amount t = PrimFloat.nan →
  let key := toMonthKey d in
  let before := default newBucket (map_get key monthBuckets) in
  let category := formatCategoryLabel (str_or (category_primary t) "Other") in
  let previous := match map_get category (mb_categories before) with
                  | Some total => num_or total 0
                  | None => PrimFloat.zero
                  end in
  ∃ after,
    map_get key (bucketTransaction monthBuckets t) = Some after
    ∧ mb_income after = mb_income before
    ∧ mb_incomeEvents after = mb_incomeEvents before
    ∧ mb_spending after = (mb_spending before + 0)%float
    ∧ mb_spendingEvents after = mb_spendingEvents before ++ [PrimFloat.zero]
    ∧ map_get category (mb_categories after) = Some (previous + 0)%float
    ∧ (∀ c, c ≠ category →
         map_get c (mb_categories after) = map_get c (mb_categories before))
    ∧ mb_sampleTransactions after = mb_sampleTransactions before ++ [t]
    ∧ (∀ k, k ≠ key →
         map_get k (bucketTransaction monthBuckets t) = map_get k monthBuckets).
Proof.
  intros Hd Hzero key before category previous.
  destruct (month_bucket_after monthBuckets t d Hd) as [Hafter Hother].
  eexists. split; [exact Hafter|]. fold key before.
  unfold recordTransaction. rewrite (num_or_zero _ Hzero).
  change (PrimFloat.ltb PrimFloat.zero 0) with false. cbn iota. cbn [mb_income
    mb_incomeEvents mb_spending mb_spendingEvents mb_categories mb_sampleTransactions].
  fold category.
  split_and!; try done.
  - apply map_get_set_eq.
  - intros c Hc. by apply map_get_set_ne.
Qed.

Lemma C9_zero_amount_is_spending_witness :
  ∃ after,
    map_get "2024-03"
      (bucketTransaction [] (sampleTransaction 2024 3 PrimFloat.nan "FOOD_AND_DRINK"))
    = Some after
    ∧ mb_income after = PrimFloat.zero
    ∧ mb_incomeEvents after = []
    ∧ mb_spendingEvents after = [PrimFloat.zero]
    ∧ map_get "Food And Drink" (mb_categories after) = Some PrimFloat.zero.
Proof.
  destruct (C9_zero_amount_is_spending []
              (sampleTransaction 2024 3 PrimFloat.nan "FOOD_AND_DRINK")
              (12 * 2024 + 2) eq_refl (or_intror (or_intror eq_refl)))
    as (after & Hget & Hinc & Hev & _ & Hsp & Hcat & _).
  exists after. split_and!; [exact Hget|exact Hinc|exact Hev|exact Hsp|exact Hcat].
Defined.

(** C4. Three months with an income of 2000 each and spending of 1500, 1700
    and 1600, and a balance of 5000: the averages are 2000 and 1600, the
    net change is 400 and the confidence is high; the reconstructed
    balances are 4300, 4600 and 5000, the last month keeping the current
    balance and each earlier month the balance less the net of the month
    after it; the first forecast month has a projected balance of 5400, and
    its upper and lower bounds lie the standard deviation of the monthly
    spending (81.649...) above and below: the bounds accumulate the net
    change plus and minus that deviation from the last balance. *)
Theorem C4_three_month_scenario (now : Z) :
  let monthlyData := buildMonthlyData scenarioTransactions in
  let deviation := spendingStdOf monthlyData in
  ∃ jan feb mar apr may jun jul lower upper,
    buildFinancialProjection now scenarioTransactions (BalanceNumber 5000)
    = HasData {| timeline :=
                   [HistoricalEntry "Jan" jan 4300 2000 1500 500 false;
                    HistoricalEntry "Feb" feb 4600 2000 1700 300 false;
                    HistoricalEntry "Mar" mar 5000 2000 1600 400 false;
                    ForecastEntry "Apr (Projected)" apr 5400 lower upper high;
                    may; jun; jul];
                 riskIndicators := [];
                 incomeConfidence := high;
                 expectedIncome := 2000;
                 expectedSpending := 1600;
                 projectedNet := 400 |}
    ∧ map hp_balance (historicalLineOf monthlyData 5000) = [4300; 4600; 5000]%float
    ∧ head (projectionsOf now monthlyData 5000)
      = Some {| pp_label := "Apr (Projected)"; pp_date := apr;
                pp_projectedIncome := 2000; pp_projectedSpending := 1600;
                pp_projectedNet := 400; projectedBalance := 5400;
                upperBalance := upper; lowerBalance := lower |}
    ∧ upper = (5000 + (400 + deviation))%float
    ∧ lower = (5000 + (400 - deviation))%float
    ∧ PrimFloat.ltb 81.649 deviation = true
    ∧ PrimFloat.ltb deviation 81.650 = true
    ∧ PrimFloat.ltb 81.649 (upper - 5400) = true
    ∧ PrimFloat.ltb (upper - 5400) 81.650 = true
    ∧ PrimFloat.ltb 81.649 (5400 - lower) = true
    ∧ PrimFloat.ltb (5400 - lower) 81.650 = true.
Proof.
  intros monthlyData deviation. subst monthlyData deviation.
  do 9 eexists. split_and!; [vm_compute; reflexivity|..]; vm_compute; reflexivity.
Qed.

(** The same figures for the ledger out of order with the spending of one
    month in two transactions. *)
Example shuffled_scenario_balances :
  map hp_balance (historicalLineOf (buildMonthlyData scenarioShuffled) 5000)
  = [4300; 4600; 5000]%float
  ∧ option_map projectedBalance
      (head (projectionsOf 0 (buildMonthlyData scenarioShuffled) 5000))
    = Some 5400%float.
Proof. split; vm_compute; reflexivity. Qed.


(* ================================================================== *)
(** * Further properties: the Comparator and the scores *)
(* ================================================================== *)

Lemma score_eq a b :
  scoreInsight a = scoreInsight b ↔
  quickScore (scoreInsight a) = quickScore (scoreInsight b)
  ∧ priorityScore (scoreInsight a) = priorityScore (scoreInsight b)
  ∧ recencyScore (scoreInsight a) = recencyScore (scoreInsight b).
Proof.
  split; [by intros ->|].
  destruct (scoreInsight a), (scoreInsight b). simpl. by intros (-> & -> & ->).
Qed.

(** X1. The Comparator is a strict weak ordering of the insights by their
    score: exchanging the arguments negates the result, [<= 0] and [< 0] are
    transitive, and the result is 0 exactly for insights with the same three
    scores. *)
Theorem compareInsights_strict_weak_order (a b c : Insight) :
  compareInsights b a = - compareInsights a b
  ∧ (compareInsights a b <= 0 → compareInsights b c <= 0 → compareInsights a c <= 0)
  ∧ (compareInsights a b < 0 → compareInsights b c < 0 → compareInsights a c < 0)
  ∧ (compareInsights a b = 0 ↔ scoreInsight a = scoreInsight b).
Proof.
  rewrite score_eq. split_and!; [compare_cases..|].
  split; [|intros (? & ? & ?)]; compare_cases.
Qed.

Lemma compareInsights_strict_weak_order_witness :
  compareInsights (sampleInsight "a1" "high" "balance_warning" "spending_patterns")
                  (sampleInsight "b1" "high" "merchant_loyalty" "behavior_lifestyle") < 0
  ∧ compareInsights (sampleInsight "b1" "high" "merchant_loyalty" "behavior_lifestyle")
                    (sampleInsight "c2" "medium" "category_trend" "spending_trends") < 0
  ∧ compareInsights (sampleInsight "a1" "high" "balance_warning" "spending_patterns")
                    (sampleInsight "c2" "medium" "category_trend" "spending_trends") < 0.
Proof.
  assert (H1 : compareInsights
                 (sampleInsight "a1" "high" "balance_warning" "spending_patterns")
                 (sampleInsight "b1" "high" "merchant_loyalty" "behavior_lifestyle") < 0)
    by (vm_compute; reflexivity).
  assert (H2 : compareInsights
                 (sampleInsight "b1" "high" "merchant_loyalty" "behavior_lifestyle")
                 (sampleInsight "c2" "medium" "category_trend" "spending_trends") < 0)
    by (vm_compute; reflexivity).
  split_and!; [exact H1|exact H2|].
  exact (proj1 (proj2 (proj2 (compareInsights_strict_weak_order _ _ _))) H1 H2).
Defined.

Lemma lower_upper_ascii c : lower_ascii (upper_ascii c) = lower_ascii c.
Proof. by destruct c as [[] [] [] [] [] [] [] []]. Qed.

Lemma lower_upper_string s :
  map_string lower_ascii (map_string upper_ascii s) = map_string lower_ascii s.
Proof. induction s as [|c s IH]; simpl; [done|]. by rewrite lower_upper_ascii, IH. Qed.

Lemma lower_lower_string s :
  map_string lower_ascii (map_string lower_ascii s) = map_string lower_ascii s.
Proof.
  induction s as [|c s IH]; simpl; [done|]. rewrite IH. f_equal.
  by destruct c as [[] [] [] [] [] [] [] []].
Qed.

Lemma QUICK_SCALE_range familyOf q : QUICK_SCALE familyOf = Some q → 2 <= q <= 5.
Proof. unfold QUICK_SCALE. repeat case_match; intros [= <-]; lia. Qed.

(** X2. The scores of an insight are bounded: the priority score is one of
    0 to 3 and the quick score one of 2 to 5, whatever the family. The
    priority is read without regard to the case of its letters, so 'HIGH'
    and 'high' score alike; [rank] of the Insights component does regard
    the case. *)
Theorem scoreInsight_bounds (insight : Insight) (value : string) :
  0 <= priorityScore (scoreInsight insight) <= 3
  ∧ 2 <= quickScore (scoreInsight insight) <= 5
  ∧ getPriorityRank (map_string upper_ascii value) = getPriorityRank value
  ∧ getPriorityRank (map_string lower_ascii value) = getPriorityRank value
  ∧ getPriorityRank "HIGH" = 0 ∧ rank "HIGH" = 3.
Proof.
  split; [|split; [|split; [|split; [|split; reflexivity]]]].
  - simpl. unfold getPriorityRank, PRIORITY_RANK. repeat case_match; simpl; lia.
  - simpl. destruct (QUICK_SCALE _) as [q|] eqn:E; [by eapply QUICK_SCALE_range|].
    simpl. lia.
  - unfold getPriorityRank. rewrite lower_upper_string. by destruct value.
  - unfold getPriorityRank. rewrite lower_lower_string. by destruct value.
Qed.


(* ================================================================== *)
(** * Further properties: the diversity selector *)
(* ================================================================== *)

Lemma selection_is_prefix insights limit :
  ∃ everything,
    everything ≡ₚ insights
    ∧ getDiverseInsights insights limit = Some (take limit everything).
Proof.
  destruct (preparedBuckets_spec insights) as (_ & _ & _ & _ & Hperm).
  exists (concat (roundRobinPasses (limit `max` length insights)
                    (preparedBuckets insights))).
  split.
  - rewrite roundRobinPasses_all; [done|]. rewrite Hperm. lia.
  - rewrite getDiverseInsights_spec. f_equal. symmetry.
    apply roundRobinPasses_take; lia.
Qed.

(** X3. The diversity selector returns exactly [min(limit, n)] insights of
    a collection of [n]; they are insights of the collection and none is
    returned more often than the collection holds it. In particular the
    result is empty for a limit of 0 and for an empty collection, and is
    never padded. *)
Theorem getDiverseInsights_size (insights : list Insight) (limit : nat) :
  ∃ selection,
    getDiverseInsights insights limit = Some selection
    ∧ length selection = (limit `min` length insights)%nat
    ∧ selection ⊆+ insights.
Proof.
  destruct (selection_is_prefix insights limit) as (everything & Hperm & Hsel).
  exists (take limit everything). split_and!; [done| |].
  - by rewrite length_take, Hperm.
  - rewrite <- Hperm. apply submseteq_take.
Qed.

(** X4. When the selection is not empty, its first insight is one the
    Comparator ranks first in the whole collection: no insight of the
    collection is strictly better. *)
Theorem getDiverseInsights_first_is_best (insights : list Insight) (limit : nat)
    (first : Insight) (rest : list Insight) :
  getDiverseInsights insights limit = Some (first :: rest) →
  ∀ i, i ∈ insights → compareInsights first i <= 0.
Proof.
  rewrite getDiverseInsights_spec. intros [= Hsel] i Hi.
  destruct (preparedBuckets_spec insights) as (Hsorted & Hnd & Hb & Hseen & _).
  set (buckets := preparedBuckets insights) in *.
  destruct limit as [|n]; [done|]. cbn [roundRobinPasses] in Hsel.
  destruct (bucketHeads buckets) as [|h hs] eqn:Eh; [done|].
  cbn [concat] in Hsel. simpl in Hsel. injection Hsel as <- _.
  destruct buckets as [|b0 bs] eqn:Eb; [done|].
  destruct (Hb b0 (list_elem_of_here _ _)) as [Hins0 Hne0].
  rewrite bucketHeads_cons in Eh.
  destruct (bucket_insights b0) as [|h0 tl0] eqn:E0; [done|].
  injection Eh as -> _.
  destruct (Hseen i Hi) as (bi & Hbi & Hki).
  destruct (Hb bi Hbi) as [Hinsi Hnei].
  destruct (bucket_insights bi) as [|hi tli] eqn:Ei; [done|].
  assert (Hhi : compareInsights hi i <= 0).
  { eapply sorted_head_le; [symmetry; exact Hinsi|].
    apply list_elem_of_filter. by split. }
  apply elem_of_cons in Hbi as [->|Hbi].
  - rewrite E0 in Ei. by injection Ei as -> _.
  - apply StronglySorted_cons in Hsorted as [Hall _].
    rewrite Forall_forall in Hall. specialize (Hall bi Hbi).
    unfold cmp_le, compareBuckets in Hall. rewrite E0, Ei in Hall.
    by eapply compareInsights_trans.
Qed.

Lemma getDiverseInsights_first_is_best_witness :
  ∀ i, i ∈ threeByThree →
    compareInsights (sampleInsight "a1" "high" "balance_warning" "spending_patterns") i <= 0.
Proof.
  exact (getDiverseInsights_first_is_best threeByThree 3 _ _ eq_refl).
Defined.

Lemma bucketHeads_family buckets b :
  bucketsWF buckets → b ∈ buckets →
  filter (λ i, bucketKeyOf i = bucket_familyKey b) (bucketHeads buckets)
  = take 1 (bucket_insights b).
Proof.
  intros [Hnd Hin] Hb. induction buckets as [|b0 bs IH]; [by apply elem_of_nil in Hb|].
  simpl in Hnd. apply NoDup_cons in Hnd as [Hb0 Hnd].
  assert (Hin' : ∀ b' i, b' ∈ bs → i ∈ bucket_insights b' →
                   bucketKeyOf i = bucket_familyKey b').
  { intros b' i Hb'. apply Hin. by right. }
  rewrite bucketHeads_cons.
  assert (Hrest : bucket_familyKey b ∉ map bucket_familyKey bs →
            filter (λ i, bucketKeyOf i = bucket_familyKey b) (bucketHeads bs) = []).
  { intros Hk. apply filter_none. intros h Hh Hkh.
    destruct (bucketHeads_elem_of _ _ Hh) as (b' & tl' & Hb' & E').
    apply Hk. rewrite <- Hkh, (Hin' b' h Hb') by (rewrite E'; by left).
    by apply (list_elem_of_fmap_2 bucket_familyKey). }
  apply elem_of_cons in Hb as [->|Hb].
  - destruct (bucket_insights b0) as [|h tl] eqn:E; [by apply Hrest|].
    rewrite filter_cons_True; [by rewrite Hrest|].
    apply Hin; [by left|rewrite E; by left].
  - assert (Hne : bucket_familyKey b0 ≠ bucket_familyKey b).
    { intros Heq. apply Hb0. rewrite Heq. by apply (list_elem_of_fmap_2 bucket_familyKey). }
    destruct (bucket_insights b0) as [|h tl] eqn:E; [by apply IH|].
    rewrite filter_cons_False; [by apply IH|].
    rewrite (Hin b0 h); [done|by left|rewrite E; by left].
Qed.

Lemma roundRobin_family_prefix n buckets b :
  bucketsWF buckets → b ∈ buckets →
  filter (λ i, bucketKeyOf i = bucket_familyKey b) (concat (roundRobinPasses n buckets))
  `prefix_of` bucket_insights b.
Proof.
  revert buckets b. induction n as [|n IH]; intros buckets b Hwf Hb.
  { apply prefix_nil. }
  cbn [roundRobinPasses]. destruct (bucketHeads buckets) as [|h hs] eqn:Eh.
  { apply prefix_nil. }
  cbn [concat]. rewrite filter_app, <- Eh, (bucketHeads_family _ _ Hwf Hb).
  assert (Hshift : shiftBucket b ∈ sortBuckets (map shiftBucket buckets)).
  { unfold sortBuckets. rewrite array_sort_elem_of.
    by apply (list_elem_of_fmap_2 shiftBucket). }
  assert (Hwf' : bucketsWF (sortBuckets (map shiftBucket buckets))).
  { eapply bucketsWF_perm; [symmetry; apply array_sort_perm|].
    eapply bucketsWF_step; [|exact Hwf].
    clear. induction buckets; constructor; [by right|done]. }
  specialize (IH _ _ Hwf' Hshift). simpl in IH.
  destruct (bucket_insights b) as [|x l]; simpl in *; [done|by apply prefix_cons].
Qed.

Lemma roundRobin_elem_of n buckets i :
  i ∈ concat (roundRobinPasses n buckets) →
  ∃ b, b ∈ buckets ∧ i ∈ bucket_insights b.
Proof.
  revert buckets. induction n as [|n IH]; intros buckets; simpl.
  { intros H. by apply elem_of_nil in H. }
  destruct (bucketHeads buckets) as [|h hs] eqn:Eh.
  { intros H. by apply elem_of_nil in H. }
  cbn [concat]. rewrite <- Eh. intros [Hi|Hi]%elem_of_app.
  - destruct (bucketHeads_elem_of _ _ Hi) as (b & tl & Hb & E).
    exists b. split; [done|]. rewrite E. by left.
  - destruct (IH _ Hi) as (b' & Hb' & Hi').
    unfold sortBuckets in Hb'. rewrite array_sort_elem_of in Hb'.
    apply list_elem_of_fmap in Hb' as (b & -> & Hb). exists b. split; [done|].
    simpl in Hi'. destruct (bucket_insights b); [done|]. by right.
Qed.

Lemma filter_take_prefix {A : Type} (P : A → Prop) `{!∀ x, Decision (P x)}
    (l : list A) n :
  filter P (take n l) `prefix_of` filter P l.
Proof.
  rewrite <- (take_drop n l) at 2. rewrite filter_app. by apply prefix_app_r.
Qed.

(** X5. Within every family the selector takes the best first: the
    selected insights of a family, in the order of the selection, are an
    initial part of the family's insights in the order of the Comparator. No
    insight of a family is selected before a better one of that family. *)
Theorem getDiverseInsights_family_order (insights : list Insight) (limit : nat)
    (familyOf : string) :
  ∃ selection,
    getDiverseInsights insights limit = Some selection
    ∧ filter (λ i, bucketKeyOf i = familyOf) selection
      `prefix_of` array_sort compareInsights
                    (filter (λ i, bucketKeyOf i = familyOf) insights).
Proof.
  rewrite getDiverseInsights_spec. eexists. split; [done|].
  destruct (preparedBuckets_spec insights) as (_ & Hnd & Hb & Hseen & Hperm).
  pose proof (preparedBuckets_WF insights) as Hwf.
  set (buckets := preparedBuckets insights) in *.
  etrans; [apply filter_take_prefix|].
  destruct (decide (familyOf ∈ map bucket_familyKey buckets)) as [Hk|Hk].
  - apply list_elem_of_fmap in Hk as (b & -> & Hbin).
    destruct (Hb b Hbin) as [<- _]. by apply roundRobin_family_prefix.
  - rewrite filter_none; [apply prefix_nil|]. intros i Hi Hki. apply Hk.
    destruct (roundRobin_elem_of _ _ _ Hi) as (b & Hbin & Hib).
    rewrite <- Hki, (proj2 Hwf b i Hbin Hib).
    by apply (list_elem_of_fmap_2 bucket_familyKey).
Qed.


(* ================================================================== *)
(** * Further properties: the merger and the structured tree *)
(* ================================================================== *)

Lemma firstOccurrences_snoc keys k :
  firstOccurrences (keys ++ [k])
  = if decide (k ∈ keys) then firstOccurrences keys else firstOccurrences keys ++ [k].
Proof.
  unfold firstOccurrences. rewrite reverse_app. simpl.
  destruct (decide (k ∈ keys)) as [Hk|Hk];
    destruct (decide_rel elem_of k (reverse keys)) as [Hr|Hr];
    rewrite elem_of_reverse in Hr; try done.
  by rewrite reverse_cons.
Qed.

Lemma firstOccurrences_elem_of keys k : k ∈ firstOccurrences keys ↔ k ∈ keys.
Proof.
  unfold firstOccurrences. by rewrite elem_of_reverse, elem_of_remove_dups, elem_of_reverse.
Qed.

Lemma firstOccurrences_NoDup keys : NoDup keys → firstOccurrences keys = keys.
Proof.
  induction keys as [|k keys IH] using rev_ind; [done|].
  intros [Hnd [Hk _]]%NoDup_app. rewrite firstOccurrences_snoc.
  rewrite decide_False, IH; [done|done|].
  intros Hin. apply (Hk k Hin). by left.
Qed.

Lemma mergeAnnotated_keys m a :
  map_keys (mergeAnnotated m a)
  = if decide (keyOf a ∈ map_keys m) then map_keys m else map_keys m ++ [keyOf a].
Proof.
  unfold mergeAnnotated.
  destruct (map_get (keyOf a) m) as [kept|] eqn:Hget.
  - assert (Hin : keyOf a ∈ map_keys m).
    { destruct (decide (keyOf a ∈ map_keys m)) as [|Hn]; [done|].
      apply map_get_None in Hn. congruence. }
    rewrite decide_True by done.
    destruct (_ <? _); [|done]. rewrite map_keys_set. unfold map_has. by rewrite Hget.
  - rewrite map_keys_set. unfold map_has. rewrite Hget.
    apply map_get_None in Hget. by rewrite decide_False.
Qed.

Lemma mergeFold_keys seen m l :
  map_keys m = firstOccurrences (map keyOf seen) →
  map_keys (foldl mergeAnnotated m l) = firstOccurrences (map keyOf (seen ++ l)).
Proof.
  revert seen m. induction l as [|a l IH]; intros seen m Hm; simpl.
  - by rewrite app_nil_r.
  - rewrite (cons_middle a seen l), app_assoc. apply IH.
    rewrite mergeAnnotated_keys, map_app. simpl. rewrite firstOccurrences_snoc, Hm.
    destruct (decide (keyOf a ∈ map keyOf seen)) as [Hk|Hk].
    + by rewrite decide_True by (by apply firstOccurrences_elem_of).
    + by rewrite decide_False by (by rewrite firstOccurrences_elem_of).
Qed.

Lemma merged_keys domains :
  map keyOf (mergeSimilarInsights domains)
  = map_keys (foldl mergeAnnotated [] (traversal domains))
  ∧ NoDup (map keyOf (mergeSimilarInsights domains)).
Proof.
  rewrite mergeSimilarInsights_traversal.
  destruct (merge_inv domains) as (Hnd & Hkept & _).
  set (m := foldl mergeAnnotated [] (traversal domains)) in *.
  assert (Heq : map keyOf (map_values m) = map_keys m).
  { unfold map_values, map_keys. rewrite map_map. apply map_ext_in.
    intros [k y] Hky. simpl. apply list_elem_of_In in Hky.
    by destruct (Hkept k y (map_elem_of_get _ _ _ Hnd Hky)) as [-> _]. }
  by rewrite Heq.
Qed.

(** X6. The merged collection holds one insight for every distinct map
    key, in the order in which the keys are first met in the traversal: an
    insight that replaces an earlier collider takes the earlier one's place.
    The collection is never longer than the tree has insights. *)
Theorem mergeSimilarInsights_order (domains : list Domain) :
  map keyOf (mergeSimilarInsights domains)
  = firstOccurrences (map keyOf (traversal domains))
  ∧ NoDup (map keyOf (mergeSimilarInsights domains))
  ∧ (length (mergeSimilarInsights domains) ≤ length (traversal domains))%nat.
Proof.
  destruct (merged_keys domains) as [Hkeys Hnd].
  assert (Hfirst : map keyOf (mergeSimilarInsights domains)
                   = firstOccurrences (map keyOf (traversal domains))).
  { rewrite Hkeys. by apply (mergeFold_keys [] [] (traversal domains)). }
  split_and!; [done|done|].
  rewrite <- (length_map keyOf), <- (length_map keyOf (traversal domains)), Hfirst.
  unfold firstOccurrences. rewrite length_reverse.
  etrans; [|by rewrite <- length_reverse].
  apply submseteq_length, NoDup_submseteq; [apply NoDup_remove_dups|].
  intros k. by rewrite elem_of_remove_dups.
Qed.

Lemma map_set_fresh {V : Type} (m : list (string * V)) k v :
  k ∉ map_keys m → map_set k v m = m ++ [(k, v)].
Proof.
  unfold map_keys. induction m as [|[k' v'] m IH]; simpl; [done|].
  intros [Hne Hk]%not_elem_of_cons.
  destruct (String.eqb_spec k' k); [congruence|]. by rewrite IH.
Qed.

Lemma mergeFold_distinct seen l :
  NoDup (map keyOf (seen ++ l)) →
  foldl mergeAnnotated (map (λ x, (keyOf x, x)) seen) l
  = map (λ x, (keyOf x, x)) (seen ++ l).
Proof.
  revert seen. induction l as [|a l IH]; intros seen Hnd; simpl.
  - by rewrite app_nil_r.
  - rewrite (cons_middle a seen l), app_assoc in Hnd |- *. rewrite <- IH by done.
    f_equal. unfold mergeAnnotated.
    assert (Hfresh : keyOf a ∉ map_keys (map (λ x, (keyOf x, x)) seen)).
    { unfold map_keys. rewrite map_map. simpl.
      rewrite map_app in Hnd. apply NoDup_app in Hnd as [Hnd _].
      rewrite map_app in Hnd. apply NoDup_app in Hnd as (_ & Hk & _).
      intros Hin. apply (Hk _ Hin). by left. }
    pose proof Hfresh as Hnone. apply map_get_None in Hnone. rewrite Hnone.
    rewrite map_set_fresh by done. by rewrite map_app.
Qed.

(** X7. A tree in which no two insights have the same map key is merged
    into its own traversal: every insight is kept, annotated, in traversal
    order. *)
Theorem mergeSimilarInsights_distinct (domains : list Domain) :
  NoDup (map keyOf (traversal domains)) →
  mergeSimilarInsights domains = traversal domains.
Proof.
  intros Hnd. rewrite mergeSimilarInsights_traversal.
  pose proof (mergeFold_distinct [] (traversal domains) Hnd) as Hfold.
  simpl in Hfold. rewrite Hfold.
  unfold map_values. rewrite map_map. simpl. apply map_id.
Qed.

Lemma mergeSimilarInsights_distinct_witness :
  NoDup (map keyOf (traversal distinctTree))
  ∧ mergeSimilarInsights distinctTree = traversal distinctTree.
Proof.
  assert (Hnd : NoDup (map keyOf (traversal distinctTree))).
  { refine (bool_decide_unpack _ _). vm_compute. exact I. }
  split; [exact Hnd|]. exact (mergeSimilarInsights_distinct distinctTree Hnd).
Defined.

Lemma merged_elem_of_traversal domains y :
  y ∈ mergeSimilarInsights domains → y ∈ traversal domains.
Proof.
  rewrite mergeSimilarInsights_traversal.
  destruct (merge_inv domains) as (Hnd & Hkept & _).
  intros ([k y'] & -> & Hin)%list_elem_of_fmap. simpl.
  eapply keptFor_elem_of, Hkept. by apply map_elem_of_get.
Qed.

Lemma traversal_family domains y :
  y ∈ traversal domains →
  ∃ p, p ∈ familiesOf domains ∧ domainKey y = p.1 ∧ familyKey y = fam_key p.2.
Proof.
  unfold traversal, familiesOf. intros (l & Hy & Hl)%elem_of_concat.
  apply list_elem_of_fmap in Hl as (d & -> & Hd).
  apply elem_of_concat in Hy as (l & Hy & Hl).
  apply list_elem_of_fmap in Hl as (f & -> & Hf).
  apply list_elem_of_fmap in Hy as (i & -> & Hi).
  exists (dom_key d, f). split; [|done].
  apply elem_of_concat. eexists. split; [|by apply (list_elem_of_fmap_2 _ domains d)].
  by apply (list_elem_of_fmap_2 (λ fam, (dom_key d, fam))).
Qed.

Lemma familiesOf_structured domains merged :
  familiesOf (buildStructuredDomains domains merged)
  = map (λ p, (p.1, structuredFamily merged p.1 p.2)) (familiesOf domains).
Proof.
  unfold familiesOf, buildStructuredDomains.
  induction domains as [|d ds IH]; [done|]. simpl.
  rewrite map_app, IH. f_equal. by rewrite !map_map.
Qed.

(** X8. The structured tree built from a tree and its merged collection has
    the families of the tree, in order; every merged insight is shown in a
    family with the insight's own domain and family keys, so none is lost;
    a family shows merged insights of its own keys only, and no two with
    the same title. *)
Theorem buildStructuredDomains_of_merged (domains : list Domain) :
  let merged := mergeSimilarInsights domains in
  let structured := buildStructuredDomains domains merged in
  map (λ p, (p.1, fam_key p.2)) (familiesOf structured)
  = map (λ p, (p.1, fam_key p.2)) (familiesOf domains)
  ∧ (∀ y, y ∈ merged →
       ∃ p, p ∈ familiesOf structured ∧ p.1 = domainKey y
            ∧ fam_key p.2 = familyKey y ∧ y ∈ fam_insights p.2)
  ∧ (∀ p y, p ∈ familiesOf structured → y ∈ fam_insights p.2 →
       y ∈ merged ∧ domainKey y = p.1 ∧ familyKey y = fam_key p.2)
  ∧ (∀ p, p ∈ familiesOf structured → NoDup (map title (fam_insights p.2))).
Proof.
  intros merged structured. subst structured. rewrite familiesOf_structured.
  assert (Hshown : ∀ p y, p ∈ familiesOf domains →
            y ∈ fam_insights (structuredFamily merged p.1 p.2) ↔
            y ∈ merged ∧ domainKey y = p.1 ∧ familyKey y = fam_key p.2).
  { intros p y _. simpl. rewrite list_elem_of_filter, andb_True.
    rewrite !Is_true_true, !String.eqb_eq. tauto. }
  split_and!.
  - rewrite map_map. by simpl.
  - intros y Hy.
    destruct (traversal_family domains y (merged_elem_of_traversal _ _ Hy))
      as (p & Hp & Hd & Hf).
    exists (p.1, structuredFamily merged p.1 p.2). split_and!; try done.
    + by apply (list_elem_of_fmap_2 (λ p, (p.1, structuredFamily merged p.1 p.2))).
    + apply Hshown; done.
  - intros p' y (p & -> & Hp)%list_elem_of_fmap Hy. by apply Hshown in Hy.
  - intros p' (p & -> & Hp)%list_elem_of_fmap.
    destruct (merged_keys domains) as [_ Hnd]. fold merged in Hnd.
    apply NoDup_fmap_2_strong.
    + intros x y Hx Hy Ht. apply Hshown in Hx as (Hx & _ & Hfx); [|done].
      apply Hshown in Hy as (Hy & _ & Hfy); [|done].
      eapply (NoDup_fmap_inj_on keyOf); [exact Hnd|done..|].
      unfold keyOf. by rewrite Hfx, Hfy, Ht.
    + simpl. apply NoDup_filter. by eapply NoDup_fmap_1.
Qed.

Lemma sorted_take_drop {A : Type} (R : relation A) (l : list A) (n : nat) h i :
  StronglySorted R l → h ∈ take n l → i ∈ drop n l → R h i.
Proof.
  intros Hs. rewrite <- (take_drop n l) in Hs.
  by apply StronglySorted_app_1_elem_of.
Qed.

Lemma sorted_by_rank (l : list Insight) :
  StronglySorted (λ a b, priorityRank a <= priorityRank b) (array_sort byPriorityRank l).
Proof.
  eapply StronglySorted_weaken; [|apply array_sort_sorted].
  - intros a b. unfold cmp_le, byPriorityRank. lia.
  - apply byPriorityRank_total.
  - apply byPriorityRank_trans.
Qed.

Lemma keptPrefix_keys groups kept :
  keptPrefix groups kept → map dg_key kept `prefix_of` map dg_key groups.
Proof.
  revert groups. induction kept as [|g' kept IH]; intros groups Hpre.
  { apply prefix_nil. }
  destruct (Hpre 0%nat g' eq_refl) as (g & Hg & Hk & _).
  destruct groups as [|g0 groups]; [done|]. simpl in Hg. injection Hg as ->.
  simpl. rewrite Hk. apply prefix_cons, IH.
  intros j h Hh. exact (Hpre (S j) h Hh).
Qed.

Lemma domainStep_loopInv insights claimed seen st key :
  key ∉ seen →
  domainLoopInv insights claimed seen st →
  domainLoopInv insights claimed (seen ++ [key]) (domainStep insights st key).
Proof.
  destruct st as [groups selected]. intros Hkey (Hkeys & Hall & Hsel & Hbest).
  cbn [fst snd] in *. unfold domainStep.
  set (candidates := filter _ insights).
  pose proof (sorted_by_rank candidates) as Hsorted.
  assert (Hcand : ∀ i, i ∈ array_sort byPriorityRank candidates ↔
            i ∈ insights ∧ domainKey i = key ∧ insight_id i ∉ selected).
  { intros i. rewrite array_sort_elem_of. unfold candidates.
    rewrite list_elem_of_filter, andb_True, negb_True, bool_decide_spec.
    rewrite Is_true_true, String.eqb_eq. tauto. }
  remember (array_sort byPriorityRank candidates) as sorted eqn:Es. clear Es candidates.
  assert (Hpicked : ∀ i, i ∈ take 2 sorted → i ∈ insights ∧ domainKey i = key).
  { intros i Hi%(subseteq_take 2). apply Hcand in Hi. tauto. }
  assert (Hsel' : ∀ x, x ∈ addAll selected (take 2 sorted) → x ∈ claimed
            ∨ ∃ j, j ∈ insights ∧ insight_id j = x ∧ domainKey j ∈ seen ++ [key]).
  { intros x [Hx|(j & Hj & <-)]%addAll_elem_of.
    - destruct (Hsel x Hx) as [?|(j & ? & ? & ?)]; [by left|right].
      exists j. split_and!; [done..|]. apply elem_of_app. by left.
    - right. exists j. destruct (Hpicked j Hj) as [? ->].
      split_and!; [done..|]. apply elem_of_app. right. by left. }
  destruct (take 2 sorted) as [|p ps] eqn:Et.
  { split_and!; cbn [fst snd]; [by apply sublist_inserts_r|done|done|done]. }
  rewrite <- Et in *. split_and!; cbn [fst snd].
  - rewrite map_app. by apply sublist_app.
  - apply Forall_app. split; [done|]. constructor; [|done].
    split_and!; simpl; [rewrite Et; simpl; lia|rewrite length_take; lia|done|done|].
    rewrite <- (take_drop 2 sorted) in Hsorted.
    by apply StronglySorted_app_1_l in Hsorted.
  - done.
  - intros Hnd. apply Forall_app. split; [by apply Hbest|]. constructor; [|done].
    intros i Hi Hd Hc. simpl in *.
    assert (Hin : i ∈ sorted).
    { apply Hcand. split_and!; [done..|]. intros Hx.
      destruct (Hsel _ Hx) as [?|(j & Hj & Hid & Hseen)]; [done|].
      assert (j = i) as -> by (by eapply (NoDup_fmap_inj_on insight_id insights)).
      by rewrite Hd in Hseen. }
    rewrite <- (take_drop 2 sorted) in Hin. apply elem_of_app in Hin as [Hin|Hin].
    + by left.
    + right. intros h Hh.
      exact (sorted_take_drop (λ a b, priorityRank a <= priorityRank b) sorted 2 h i
               Hsorted Hh Hin).
Qed.

Lemma domainFold_loopInv insights claimed seen st keys :
  NoDup (seen ++ keys) →
  domainLoopInv insights claimed seen st →
  domainLoopInv insights claimed (seen ++ keys) (foldl (domainStep insights) st keys).
Proof.
  revert seen st. induction keys as [|k keys IH]; intros seen st Hnd Hst; simpl.
  { by rewrite app_nil_r. }
  assert (E : seen ++ k :: keys = (seen ++ [k]) ++ keys) by (by rewrite <- app_assoc).
  rewrite E in *. apply IH; [done|].
  apply domainStep_loopInv; [|done].
  apply NoDup_app in Hnd as [Hnd _]. apply NoDup_app in Hnd as (_ & Hnd & _).
  intros Hk. apply (Hnd k Hk). by left.
Qed.

Lemma selectSections_loopInv insights :
  domainLoopInv insights (selectedByPicks insights) domainOrder
    (byDomain (selectSections insights),
     (foldl (domainStep insights) ([], selectedByPicks insights) domainOrder).2).
Proof.
  rewrite selectSections_eq. cbn [byDomain]. rewrite <- surjective_pairing.
  apply (domainFold_loopInv insights _ []).
  - simpl. refine (bool_decide_unpack _ _). by vm_compute.
  - split_and!; cbn [fst snd]; [done|constructor|by left|by constructor].
Qed.

Lemma kept_groups insights (groups kept : list DomainGroup) :
  keptPrefix groups kept →
  Forall (λ g, dg_insights g ≠ []) kept →
  Forall (domainGroupOf insights) groups →
  Forall (domainGroupOf insights) kept.
Proof.
  intros Hpre Hne Hall. apply Forall_lookup. intros j g' Hg'.
  destruct (Hpre j g' Hg') as (g & Hg & Hk & Ht & [rest Hp]).
  rewrite Forall_lookup in Hall, Hne.
  destruct (Hall j g Hg) as ([_ Hlen] & Htitle & Hmem & Hsorted).
  specialize (Hne j g' Hg'). rewrite Hp in *.
  split_and!.
  - destruct (dg_insights g'); [done|simpl; lia].
  - rewrite length_app in Hlen. lia.
  - by rewrite Ht, Hk.
  - intros i Hi. rewrite Hk. apply Hmem, elem_of_app. by left.
  - by apply StronglySorted_app_1_l in Hsorted.
Qed.

Lemma kept_groups_wellformed insights :
  Forall (domainGroupOf insights) (byDomain (buildAllDomainSections insights)).
Proof.
  unfold buildAllDomainSections.
  pose proof (selectSections_picked_le insights) as (Hk & Hm & Hc).
  destruct (truncateSections_spec (selectSections insights)) as (_ & Hpre & Hne);
    [simpl; unfold MAX_TOTAL; lia|].
  destruct (selectSections_loopInv insights) as (_ & Hall & _).
  cbn [fst snd] in Hall.
  eapply kept_groups; [done| |done]. apply Hne.
  eapply Forall_impl; [exact Hall|]. intros g ([Hlen _] & _).
  destruct (dg_insights g); [simpl in Hlen; lia|done].
Qed.

(** X9. The domain groups of [buildAllDomainSections] follow the fixed
    domain order, with no domain twice and at most five groups; each group
    holds one or two insights of the collection, all of the group's own
    domain, in the order of [priorityRank], under the title
    [getDomainTitle] gives the domain. *)
Theorem buildAllDomainSections_domain_groups (insights : list Insight) :
  let s := buildAllDomainSections insights in
  map dg_key (byDomain s) `sublist_of` domainOrder
  ∧ NoDup (map dg_key (byDomain s))
  ∧ (length (byDomain s) ≤ 5)%nat
  ∧ Forall (domainGroupOf insights) (byDomain s).
Proof.
  intros s. subst s. unfold buildAllDomainSections.
  pose proof (selectSections_picked_le insights) as (Hk & Hm & Hc).
  destruct (truncateSections_spec (selectSections insights)) as (_ & Hpre & Hne);
    [simpl; unfold MAX_TOTAL; lia|].
  destruct (selectSections_loopInv insights) as (Hkeys & Hall & _).
  cbn [fst snd] in Hkeys, Hall.
  assert (Hsub : map dg_key (byDomain (truncateSections (selectSections insights)))
                   `sublist_of` domainOrder).
  { etrans; [|exact Hkeys].
    destruct (keptPrefix_keys _ _ Hpre) as [rest ->]. by apply sublist_inserts_r. }
  assert (Hnd : NoDup domainOrder) by (refine (bool_decide_unpack _ _); by vm_compute).
  split_and!.
  - done.
  - by eapply sublist_NoDup.
  - apply sublist_length in Hsub. by rewrite length_map in Hsub.
  - apply kept_groups_wellformed.
Qed.

(** X10. When the ids of the collection are distinct, a domain group shows
    the best of its domain: an insight of the group's domain that none of
    [keyHighlights], [majorSpending] and [crossDomain] holds is either in
    the group or ranks no better than every insight of the group. *)
Theorem buildAllDomainSections_best_of_domain (insights : list Insight)
    (g : DomainGroup) (i h : Insight) :
  let s := buildAllDomainSections insights in
  NoDup (map insight_id insights) →
  g ∈ byDomain s → i ∈ insights → domainKey i = dg_key g →
  i ∉ keyHighlights s ++ majorSpending s ++ crossDomain s →
  h ∈ dg_insights g →
  i ∈ dg_insights g ∨ priorityRank h <= priorityRank i.
Proof.
  intros s. subst s. unfold buildAllDomainSections. intros Hnd Hg Hi Hd Hfree Hh.
  pose proof (selectSections_picked_le insights) as (Hk & Hm & Hc).
  destruct (truncateSections_spec (selectSections insights)) as (_ & Hpre & _);
    [simpl; unfold MAX_TOTAL; lia|].
  destruct (selectSections_loopInv insights) as (_ & Hall & _ & Hbest).
  cbn [fst snd] in Hall, Hbest. specialize (Hbest Hnd).
  destruct (truncateSections_picks (selectSections insights)) as (Ek & Em & Ec).
  rewrite Ek, Em, Ec in Hfree.
  apply list_elem_of_lookup_1 in Hg as [j Hj].
  destruct (Hpre j g Hj) as (g0 & Hg0 & Hkey & _ & [rest Hp]).
  rewrite Forall_lookup in Hall, Hbest.
  destruct (Hall j g0 Hg0) as (_ & _ & Hmem & Hsorted).
  assert (Hunclaimed : insight_id i ∉ selectedByPicks insights).
  { intros (i' & Hid & Hin)%selectedByPicks_elem_of. apply Hfree.
    assert (i' = i) as <-; [|rewrite !elem_of_app; tauto].
    eapply (NoDup_fmap_inj_on insight_id insights); [done| |done..].
    rewrite selectSections_eq in Hin. cbn [keyHighlights majorSpending crossDomain] in Hin.
    destruct Hin as [Hin|[Hin|Hin]]; apply (subseteq_take _) in Hin;
      rewrite array_sort_elem_of in Hin; [done| |];
      by apply list_elem_of_filter in Hin as [_ ?]. }
  rewrite Hkey in Hd.
  destruct (Hbest j g0 Hg0 i Hi Hd Hunclaimed) as [Hin|Hle].
  - rewrite Hp in Hin, Hsorted. apply elem_of_app in Hin as [Hin|Hin]; [by left|right].
    exact (StronglySorted_app_1_elem_of (λ a b, priorityRank a <= priorityRank b)
             _ _ h i Hsorted Hh Hin).
  - right. apply Hle. rewrite Hp. apply elem_of_app. by left.
Qed.

Lemma buildAllDomainSections_best_of_domain_witness :
  let s6 := sampleInsight "s6" "medium" "habit_frequency" "spending_patterns" in
  let s7 := sampleInsight "s7" "low" "habit_frequency" "spending_patterns" in
  let s8 := sampleInsight "s8" "medium" "habit_frequency" "spending_patterns" in
  byDomain (buildAllDomainSections eightOfOneDomain)
  = [{| dg_key := "spending_patterns"; dg_title := "Spending Patterns";
        dg_insights := [s6; s8] |}]
  ∧ (s7 ∈ [s6; s8] ∨ priorityRank s8 <= priorityRank s7).
Proof.
  intros s6 s7 s8. split; [reflexivity|].
  apply (buildAllDomainSections_best_of_domain eightOfOneDomain
           {| dg_key := "spending_patterns"; dg_title := "Spending Patterns";
              dg_insights := [s6; s8] |} s7 s8).
  - refine (bool_decide_unpack _ _). vm_compute. exact I.
  - apply (list_elem_of_lookup_2 _ 0%nat). reflexivity.
  - apply (list_elem_of_lookup_2 _ 6%nat). reflexivity.
  - reflexivity.
  - intros H. apply list_elem_of_lookup_1 in H as [n H].
    do 12 (destruct n as [|n]; [discriminate|]). discriminate.
  - apply (list_elem_of_lookup_2 _ 1%nat). reflexivity.
Defined.

Lemma pick_length (src : list Insight) (limit : nat) :
  length (take limit (array_sort byPriorityRank src)) = (limit `min` length src)%nat.
Proof. by rewrite length_take, array_sort_length. Qed.

Lemma pick_submseteq (src : list Insight) (limit : nat) :
  take limit (array_sort byPriorityRank src) ⊆+ src.
Proof.
  etrans; [apply sublist_submseteq, sublist_take|]. by rewrite array_sort_perm.
Qed.

Lemma pick_best (src : list Insight) (limit : nat) i h :
  i ∈ src → h ∈ take limit (array_sort byPriorityRank src) →
  i ∈ take limit (array_sort byPriorityRank src) ∨ priorityRank h <= priorityRank i.
Proof.
  intros Hi Hh. apply (array_sort_elem_of byPriorityRank) in Hi.
  rewrite <- (take_drop limit (array_sort byPriorityRank src)) in Hi.
  apply elem_of_app in Hi as [Hi|Hi]; [by left|right].
  exact (sorted_take_drop (λ a b, priorityRank a <= priorityRank b) _ limit h i
           (sorted_by_rank _) Hh Hi).
Qed.

Lemma isCrossDomain_spec i :
  Is_true (isCrossDomain i) ↔ familyKey i ∈ crossDomainFamilies.
Proof.
  rewrite Is_true_true. unfold isCrossDomain. rewrite existsb_exists. split.
  - intros (k & Hk & ->%String.eqb_eq). by apply list_elem_of_In.
  - intros Hk. exists (familyKey i). split; [by apply list_elem_of_In|].
    apply String.eqb_refl.
Qed.

Lemma isMajorSpending_spec i :
  Is_true (isMajorSpending i) ↔ familyKey i = "category_trend".
Proof. unfold isMajorSpending. by rewrite Is_true_true, String.eqb_eq. Qed.

(** X11. The three picked groups of [buildAllDomainSections]: each holds
    insights of the collection, as many as its limit allows (5, 3 and 3) of
    those that pass its filter; [majorSpending] holds insights of the family
    [category_trend] only and [crossDomain] of the four cross-domain
    families only; an insight that passes the filter of a group and is left
    out of it ranks no better than every insight in the group. *)
Theorem buildAllDomainSections_picked_groups (insights : list Insight) :
  let s := buildAllDomainSections insights in
  (length (keyHighlights s) = 5 `min` length insights
   ∧ length (majorSpending s) = 3 `min` length (filter isMajorSpending insights)
   ∧ length (crossDomain s) = 3 `min` length (filter isCrossDomain insights))%nat
  ∧ (keyHighlights s ⊆+ insights ∧ majorSpending s ⊆+ insights
     ∧ crossDomain s ⊆+ insights)
  ∧ Forall (λ i, familyKey i = "category_trend") (majorSpending s)
  ∧ Forall (λ i, familyKey i ∈ crossDomainFamilies) (crossDomain s)
  ∧ (∀ i h, i ∈ insights →
       (h ∈ keyHighlights s → i ∈ keyHighlights s ∨ priorityRank h <= priorityRank i)
       ∧ (familyKey i = "category_trend" → h ∈ majorSpending s →
          i ∈ majorSpending s ∨ priorityRank h <= priorityRank i)
       ∧ (familyKey i ∈ crossDomainFamilies → h ∈ crossDomain s →
          i ∈ crossDomain s ∨ priorityRank h <= priorityRank i)).
Proof.
  intros s. subst s. unfold buildAllDomainSections.
  destruct (truncateSections_picks (selectSections insights)) as (-> & -> & ->).
  rewrite selectSections_eq. cbn [keyHighlights majorSpending crossDomain].
  split_and!; try apply pick_length.
  - apply pick_submseteq.
  - etrans; [apply pick_submseteq|]. apply sublist_submseteq, sublist_filter.
  - etrans; [apply pick_submseteq|]. apply sublist_submseteq, sublist_filter.
  - apply Forall_forall. intros i Hi%(subseteq_take 3).
    rewrite array_sort_elem_of, list_elem_of_filter in Hi.
    by apply isMajorSpending_spec, Hi.
  - apply Forall_forall. intros i Hi%(subseteq_take 3).
    rewrite array_sort_elem_of, list_elem_of_filter in Hi.
    by apply isCrossDomain_spec, Hi.
  - intros i h Hi. split_and!.
    + by apply pick_best.
    + intros Hf. apply pick_best. apply list_elem_of_filter.
      split; [by apply isMajorSpending_spec|done].
    + intros Hf. apply pick_best. apply list_elem_of_filter.
      split; [by apply isCrossDomain_spec|done].
Qed.

Lemma domainFold_all_claimed insights groups selected keys :
  (∀ i, i ∈ insights → insight_id i ∈ selected) →
  foldl (domainStep insights) (groups, selected) keys = (groups, selected).
Proof.
  intros Hall. induction keys as [|k keys IH]; [done|]. simpl.
  rewrite filter_none; [done|].
  intros i Hi. rewrite andb_True, negb_True, bool_decide_spec.
  intros [_ Hnot]. by apply Hnot, Hall.
Qed.

(** X12. A collection of at most five insights goes to [keyHighlights]
    whole: every id is then claimed before the domain loop runs, and no
    domain group is shown at all. *)
Theorem buildAllDomainSections_small_collection (insights : list Insight) :
  let s := buildAllDomainSections insights in
  (length insights ≤ 5)%nat →
  keyHighlights s ≡ₚ insights ∧ byDomain s = [] ∧ topDomainInsights s = [].
Proof.
  intros s Hlen. subst s. unfold buildAllDomainSections.
  assert (Hnone : byDomain (selectSections insights) = []).
  { rewrite selectSections_eq. cbn [byDomain].
    rewrite domainFold_all_claimed; [done|].
    intros i Hi. apply selectedByPicks_elem_of. exists i. split; [done|left].
    rewrite selectSections_eq. cbn [keyHighlights].
    rewrite take_ge by (rewrite array_sort_length; lia).
    by apply array_sort_elem_of. }
  assert (Hgroups : byDomain (truncateSections (selectSections insights)) = []).
  { unfold truncateSections. cbn [byDomain]. rewrite Hnone. simpl.
    by destruct (MAX_TOTAL <? _)%nat. }
  destruct (truncateSections_picks (selectSections insights)) as (-> & _).
  split_and!.
  - rewrite selectSections_eq. cbn [keyHighlights].
    rewrite take_ge by (rewrite array_sort_length; lia). apply array_sort_perm.
  - done.
  - unfold topDomainInsights. by rewrite Hgroups.
Qed.

Lemma buildAllDomainSections_small_collection_witness :
  keyHighlights (buildAllDomainSections threeInsights) ≡ₚ threeInsights
  ∧ byDomain (buildAllDomainSections threeInsights) = []
  ∧ topDomainInsights (buildAllDomainSections threeInsights) = [].
Proof.
  apply (buildAllDomainSections_small_collection threeInsights). simpl. lia.
Defined.

Lemma groups_length_le (groups : list DomainGroup) :
  Forall (λ g, (length (dg_insights g) ≤ 2)%nat) groups →
  (length (concat (map dg_insights groups)) ≤ 2 * length groups)%nat.
Proof.
  induction 1 as [|g gs Hg _ IH]; simpl; [lia|]. rewrite length_app. lia.
Qed.

(** X13. The top domain insights of the component, the insights of the
    first three domain groups: at most six, the leading domain insights in
    display order, each an insight of the collection whose domain is one of
    the fixed domain order; when at most three groups are shown they are
    all the domain insights. *)
Theorem topDomainInsights_spec (insights : list Insight) :
  let s := buildAllDomainSections insights in
  (length (topDomainInsights s) ≤ 6)%nat
  ∧ topDomainInsights s `prefix_of` domainInsightsOf s
  ∧ Forall (λ i, i ∈ insights ∧ domainKey i ∈ domainOrder) (topDomainInsights s)
  ∧ ((length (byDomain s) ≤ 3)%nat → topDomainInsights s = domainInsightsOf s).
Proof.
  intros s. pose proof (kept_groups_wellformed insights) as Hall. fold s in Hall.
  assert (Hkeys : map dg_key (byDomain s) `sublist_of` domainOrder).
  { subst s. unfold buildAllDomainSections.
    pose proof (selectSections_picked_le insights) as (Hk & Hm & Hc).
    destruct (truncateSections_spec (selectSections insights)) as (_ & Hpre & _);
      [simpl; unfold MAX_TOTAL; lia|].
    destruct (selectSections_loopInv insights) as (Hkeys & _).
    cbn [fst snd] in Hkeys. etrans; [|exact Hkeys].
    destruct (keptPrefix_keys _ _ Hpre) as [rest ->]. by apply sublist_inserts_r. }
  unfold topDomainInsights, domainInsightsOf. clearbody s. split_and!.
  - etrans; [apply groups_length_le|].
    + apply Forall_take. eapply Forall_impl; [exact Hall|]. by intros g ([_ ?] & _).
    + rewrite length_take. lia.
  - rewrite <- (take_drop 3 (byDomain s)) at 2. rewrite map_app, concat_app.
    by eexists.
  - apply Forall_forall. intros i (l & Hi & Hl)%elem_of_concat.
    apply list_elem_of_fmap in Hl as (g & -> & Hg%(subseteq_take 3)).
    rewrite Forall_forall in Hall. destruct (Hall g Hg) as (_ & _ & Hmem & _).
    destruct (Hmem i Hi) as [? ->]. split; [done|].
    eapply sublist_subseteq; [exact Hkeys|]. by apply (list_elem_of_fmap_2 dg_key).
  - intros Hlen. by rewrite take_ge.
Qed.

Ltac by_ascii c := destruct c as [[] [] [] [] [] [] [] []]; try done.

Lemma upper_not_underscore c : c ≠ "_"%char → upper_ascii c ≠ "_"%char.
Proof. by_ascii c. Qed.

Lemma lower_not_underscore c : c ≠ "_"%char → lower_ascii c ≠ "_"%char.
Proof. by_ascii c. Qed.

Lemma upper_upper_ascii c : upper_ascii (upper_ascii c) = upper_ascii c.
Proof. by_ascii c. Qed.

Lemma is_word_upper c : is_word_char (upper_ascii c) = is_word_char c.
Proof. by_ascii c. Qed.

Lemma map_string_length f s : String.length (map_string f s) = String.length s.
Proof. induction s as [|c s IH]; simpl; [done|]. by rewrite IH. Qed.

Lemma capitalize_words_length b s :
  String.length (capitalize_words b s) = String.length s.
Proof. revert b. induction s as [|c s IH]; intros b; simpl; [done|]. by rewrite IH. Qed.

Lemma capitalize_words_chars b s :
  "_"%char ∉ chars s → "_"%char ∉ chars (capitalize_words b s).
Proof.
  revert b. induction s as [|c s IH]; intros b; simpl; [done|].
  unfold chars. simpl. rewrite !not_elem_of_cons. intros [Hc Hs]. split.
  - destruct (_ && _); [|done]. by apply not_eq_sym, upper_not_underscore.
  - by apply IH.
Qed.

Lemma capitalize_words_idem b s :
  capitalize_words b (capitalize_words b s) = capitalize_words b s.
Proof.
  revert b. induction s as [|c s IH]; intros b; simpl; [done|].
  assert (Hw : is_word_char (if is_word_char c && negb b then upper_ascii c else c)
               = is_word_char c).
  { destruct (_ && _); [apply is_word_upper|done]. }
  rewrite Hw, IH. f_equal.
  destruct (is_word_char c && negb b); [apply upper_upper_ascii|done].
Qed.

Lemma spaced_chars s :
  "_"%char ∉ chars (map_string (λ c, if Ascii.eqb c "_"%char then " "%char else c) s).
Proof.
  induction s as [|c s IH]; unfold chars; simpl; [by apply not_elem_of_nil|].
  apply not_elem_of_cons. split; [|done].
  destruct (Ascii.eqb c "_") eqn:E; [done|]. apply Ascii.eqb_neq in E. congruence.
Qed.

Lemma spaced_id s :
  "_"%char ∉ chars s →
  map_string (λ c, if Ascii.eqb c "_"%char then " "%char else c) s = s.
Proof.
  induction s as [|c s IH]; unfold chars; simpl; [done|].
  rewrite not_elem_of_cons. intros [Hc Hs]. rewrite IH by done.
  destruct (Ascii.eqb c "_") eqn:E; [|done]. apply Ascii.eqb_eq in E. congruence.
Qed.

(** X14. [formatLabel] keeps the length of a label, leaves no underscore in
    it, and changes nothing when applied a second time; no domain title
    shows an underscore, whether it is one of the five fixed titles or a
    formatted key. *)
Theorem formatLabel_spec (label : string) :
  String.length (formatLabel label) = String.length label
  ∧ "_"%char ∉ chars (formatLabel label)
  ∧ formatLabel (formatLabel label) = formatLabel label
  ∧ "_"%char ∉ chars (getDomainTitle label).
Proof.
  assert (Hno : "_"%char ∉ chars (formatLabel label)).
  { apply capitalize_words_chars, spaced_chars. }
  split_and!.
  - unfold formatLabel. by rewrite capitalize_words_length, map_string_length.
  - done.
  - unfold formatLabel at 1. rewrite spaced_id by done. apply capitalize_words_idem.
  - unfold getDomainTitle.
    repeat (case_match; [unfold chars; simpl; set_solver|]). done.
Qed.

Lemma string_take_length n s :
  String.length (string_take n s) = (n `min` String.length s)%nat.
Proof.
  revert s. induction n as [|n IH]; intros [|c s]; simpl; try done. by rewrite IH.
Qed.

Lemma string_app_length s t :
  String.length (s +:+ t) = (String.length s + String.length t)%nat.
Proof. induction s as [|c s IH]; simpl; [done|]. by rewrite IH. Qed.

(** X15. [truncateLabel]: a label that fits is returned as it is; a longer
    one is cut to its first [maxLength - 3] characters followed by three
    dots, which makes exactly [maxLength] characters when [maxLength] is at
    least 3. The result is never longer than [maxLength] or 3, whichever is
    greater; for [maxLength] below 3 a label that does not fit becomes the
    three dots alone. The empty label stays empty whatever [maxLength]. *)
Theorem truncateLabel_spec (value : string) (maxLength : Z) :
  let result := truncateLabel value maxLength in
  let len (s : string) := Z.of_nat (String.length s) in
  (len value <= maxLength → result = value)
  ∧ (value ≠ "" → maxLength < len value →
     result = string_take (Z.to_nat (maxLength - 3)) value +:+ "..."
     ∧ len result = Z.max maxLength 3)
  ∧ len result <= Z.max maxLength 3
  ∧ (3 <= maxLength → truncateLabel result maxLength = result)
  ∧ truncateLabel "" maxLength = "".
Proof.
  intros result len. subst result.
  assert (Hfit : ∀ v, len v <= maxLength → truncateLabel v maxLength = v).
  { intros v Hv. unfold truncateLabel. destruct (String.eqb_spec v ""); [done|].
    unfold len in Hv. by rewrite (proj2 (Z.leb_le _ _)). }
  assert (Hcut : value ≠ "" → maxLength < len value →
     truncateLabel value maxLength
       = string_take (Z.to_nat (maxLength - 3)) value +:+ "..."
     ∧ len (truncateLabel value maxLength) = Z.max maxLength 3).
  { intros Hne Hlong. unfold truncateLabel, len in *.
    destruct (String.eqb_spec value "") as [->|_]; [done|].
    rewrite (proj2 (Z.leb_gt _ _)) by lia.
    replace (Z.to_nat (Z.max 0 (maxLength - 3))) with (Z.to_nat (maxLength - 3)) by lia.
    split; [done|]. rewrite string_app_length, string_take_length.
    change (String.length "...") with 3%nat. lia. }
  assert (Hcases : value = "" ∨ len value <= maxLength
                   ∨ (value ≠ "" ∧ maxLength < len value)).
  { destruct (String.eqb_spec value ""); [by left|right].
    destruct (Z.le_gt_cases (len value) maxLength); [by left|right]. split; [done|lia]. }
  subst len. cbv beta in *. split_and!; [apply Hfit|done| | |done].
  - destruct Hcases as [->|[Hle|[Hne Hgt]]].
    + simpl. lia.
    + rewrite Hfit by done. lia.
    + destruct (Hcut Hne Hgt) as [_ ->]. lia.
  - intros H3. destruct Hcases as [->|[Hle|[Hne Hgt]]].
    + done.
    + rewrite (Hfit value Hle). by apply Hfit.
    + destruct (Hcut Hne Hgt) as [_ Hlen]. apply Hfit. lia.
Qed.

Lemma truncateLabel_spec_witness :
  truncateLabel "Restaurants and Coffee Shops" 24 = "Restaurants and Coffe..."
  ∧ truncateLabel "Groceries" 24 = "Groceries".
Proof.
  split.
  - refine (proj1 (proj1 (proj2 (truncateLabel_spec "Restaurants and Coffee Shops" 24))
                          _ _)); [done|simpl; lia].
  - apply (proj1 (truncateLabel_spec "Groceries" 24)). simpl. lia.
Defined.

Lemma lower_is_underscore c : Ascii.eqb (lower_ascii c) "_" = Ascii.eqb c "_".
Proof. by_ascii c. Qed.

Lemma split_on_cons sep s : ∃ w ws, split_on sep s = w :: ws.
Proof.
  induction s as [|c s (w & ws & IH)]; simpl; [by eexists _, _|].
  destruct (Ascii.eqb c sep); [by eexists _, _|]. rewrite IH. by eexists _, _.
Qed.

Lemma titleCase_split s :
  (∀ w ws, split_on "_" (map_string lower_ascii s) = w :: ws →
     join_with " " (w :: map capitalize ws) = titleCase false s)
  ∧ join_with " " (map capitalize (split_on "_" (map_string lower_ascii s)))
    = titleCase true s.
Proof.
  induction s as [|c s [IHraw IHcap]]; simpl.
  { split; [|done]. by intros w ws [= <- <-]. }
  rewrite lower_is_underscore.
  destruct (split_on_cons "_" (map_string lower_ascii s)) as (w0 & ws0 & E).
  destruct (Ascii.eqb c "_") eqn:Ec.
  - split.
    + intros w ws [= <- <-]. rewrite E in *. simpl in *. by rewrite <- IHcap.
    + rewrite E in *. simpl in *. by rewrite <- IHcap.
  - rewrite E. split.
    + intros w ws [= <- <-]. rewrite <- (IHraw _ _ E). simpl.
      by destruct (map capitalize ws0).
    + rewrite <- (IHraw _ _ E). simpl. by destruct (map capitalize ws0).
Qed.

Lemma titleCase_length b s : String.length (titleCase b s) = String.length s.
Proof.
  revert b. induction s as [|c s IH]; intros b; simpl; [done|].
  destruct (Ascii.eqb c "_"); simpl; by rewrite IH.
Qed.

Lemma titleCase_chars b s : "_"%char ∉ chars (titleCase b s).
Proof.
  revert b. induction s as [|c s IH]; intros b; unfold chars; simpl;
    [by apply not_elem_of_nil|].
  destruct (Ascii.eqb c "_") eqn:E; simpl; apply not_elem_of_cons.
  - split; [done|apply IH].
  - apply Ascii.eqb_neq in E. split; [|apply IH]. apply not_eq_sym.
    destruct b; [apply upper_not_underscore|]; by apply lower_not_underscore.
Qed.

Lemma identifierChar_spec c :
  identifierChar c = true → c ≠ "_"%char →
  lower_ascii c = c ∧ is_word_char c = true.
Proof. by_ascii c. Qed.

Lemma titleCase_formatLabel b s :
  forallb identifierChar (chars s) = true →
  titleCase b s
  = capitalize_words (negb b)
      (map_string (λ c, if Ascii.eqb c "_"%char then " "%char else c) s).
Proof.
  revert b. induction s as [|c s IH]; intros b; unfold chars; simpl; [done|].
  intros [Hc Hs]%andb_prop. destruct (Ascii.eqb c "_") eqn:E.
  - simpl. by rewrite (IH true Hs).
  - apply Ascii.eqb_neq in E. destruct (identifierChar_spec c Hc E) as [-> ->].
    rewrite negb_involutive, (IH false Hs). simpl. by destruct b.
Qed.

(** X16. [formatCategoryLabel] on a non-empty label is title case: every
    underscore becomes a space, the first character and each character
    after an underscore is upper-cased, the rest is lower-cased; so the
    length is kept and no underscore is left. On a label written with
    lower-case letters, digits and underscores it agrees with [formatLabel]
    of the Insights component. The missing label reads [General]. *)
Theorem formatCategoryLabel_spec (label : string) :
  label ≠ "" →
  formatCategoryLabel label = titleCase true label
  ∧ String.length (formatCategoryLabel label) = String.length label
  ∧ "_"%char ∉ chars (formatCategoryLabel label)
  ∧ (forallb identifierChar (chars label) = true →
     formatCategoryLabel label = formatLabel label)
  ∧ formatCategoryLabel "" = "General".
Proof.
  intros Hne.
  assert (E : formatCategoryLabel label = titleCase true label).
  { unfold formatCategoryLabel. destruct (String.eqb_spec label ""); [done|].
    apply titleCase_split. }
  rewrite E. split_and!; [done|apply titleCase_length|apply titleCase_chars| |done].
  intros Hid. by rewrite titleCase_formatLabel.
Qed.

Lemma formatCategoryLabel_spec_witness :
  formatCategoryLabel "FOOD_AND_DRINK" = "Food And Drink"
  ∧ formatCategoryLabel "food_and_drink" = formatLabel "food_and_drink".
Proof.
  split.
  - exact (proj1 (formatCategoryLabel_spec "FOOD_AND_DRINK" ltac:(done))).
  - refine (proj1 (proj2 (proj2 (proj2
             (formatCategoryLabel_spec "food_and_drink" _)))) _); done.
Defined.

Lemma digits_foldl (acc : Z) (l : list ascii) :
  foldl (λ acc c, acc * 10 + (Z.of_nat (nat_of_ascii c) - 48)) acc l
  = acc * 10 ^ Z.of_nat (length l)
    + foldl (λ acc c, acc * 10 + (Z.of_nat (nat_of_ascii c) - 48)) 0 l.
Proof.
  revert acc. induction l as [|c l IH]; intros acc; [simpl; lia|].
  cbn [foldl length]. rewrite IH, (IH (0 * 10 + _)).
  rewrite Nat2Z.inj_succ, Z.pow_succ_r by lia. lia.
Qed.

Lemma numberOfDigits_cons c s :
  numberOfDigits (String c s)
  = (Z.of_nat (nat_of_ascii c) - 48) * 10 ^ Z.of_nat (String.length s) + numberOfDigits s.
Proof.
  assert (Hlen : length (list_ascii_of_string s) = String.length s).
  { induction s as [|a s IH]; simpl; [done|]. by rewrite IH. }
  unfold numberOfDigits. cbn [list_ascii_of_string foldl]. rewrite digits_foldl, Hlen.
  by rewrite Z.mul_0_l, Z.add_0_l.
Qed.

Lemma pretty_N_char_digit x :
  (x < 10)%N →
  isDigit (pretty_N_char x) = true
  ∧ Z.of_nat (nat_of_ascii (pretty_N_char x)) - 48 = Z.of_N x.
Proof.
  intros Hx.
  assert (x = 0 ∨ x = 1 ∨ x = 2 ∨ x = 3 ∨ x = 4 ∨ x = 5 ∨ x = 6 ∨ x = 7 ∨ x = 8
          ∨ x = 9)%N as Hcases by lia.
  repeat (destruct Hcases as [->|Hcases]; [done|]). by subst x.
Qed.

Lemma pretty_N_go_digits x s :
  forallb isDigit (chars s) = true →
  forallb isDigit (chars (pretty_N_go x s)) = true
  ∧ numberOfDigits (pretty_N_go x s)
    = Z.of_N x * 10 ^ Z.of_nat (String.length s) + numberOfDigits s.
Proof.
  revert s. induction (N.lt_wf_0 x) as [x _ IH]; intros s Hs.
  assert (x = 0 ∨ 0 < x)%N as [->|Hx] by lia.
  { rewrite pretty_N_go_0. split; [done|]. lia. }
  rewrite pretty_N_go_step by done.
  destruct (pretty_N_char_digit (x `mod` 10)) as [Hd Hv]; [by apply N.mod_lt|].
  destruct (IH (x `div` 10)%N (N.div_lt x 10 Hx eq_refl)
              (String (pretty_N_char (x `mod` 10)) s)) as [Hall Hnum].
  { unfold chars. simpl. by rewrite Hd. }
  split; [done|]. rewrite Hnum, numberOfDigits_cons, Hv.
  cbn [String.length]. rewrite Nat2Z.inj_succ, Z.pow_succ_r by lia.
  rewrite (N.div_mod x 10) at 3 by done. lia.
Qed.

Lemma pretty_Z_digits (n : Z) :
  0 <= n →
  forallb isDigit (chars (pretty n)) = true ∧ numberOfDigits (pretty n) = n.
Proof.
  intros Hn. destruct n as [|p|p]; [done| |lia].
  unfold pretty, pretty_Z, pretty, pretty_positive, pretty, pretty_N.
  destruct (decide (N.pos p = 0%N)); [done|].
  destruct (pretty_N_go_digits (N.pos p) "" eq_refl) as [Hall Hnum].
  split; [done|]. rewrite Hnum.
  change (numberOfDigits "") with 0. change (Z.of_nat (String.length "")) with 0.
  rewrite Z.pow_0_r. lia.
Qed.

Lemma split_on_absent sep s :
  sep ∉ chars s → split_on sep s = [s].
Proof.
  induction s as [|c s IH]; unfold chars; simpl; [done|].
  rewrite not_elem_of_cons. intros [Hc Hs].
  rewrite (proj2 (Ascii.eqb_neq c sep)) by congruence. by rewrite IH.
Qed.

Lemma split_on_first sep s1 s2 :
  sep ∉ chars s1 → split_on sep (s1 +:+ String sep s2) = s1 :: split_on sep s2.
Proof.
  induction s1 as [|c s IH]; unfold chars; simpl.
  { intros _. by rewrite Ascii.eqb_refl. }
  rewrite not_elem_of_cons. intros [Hc Hs].
  rewrite (proj2 (Ascii.eqb_neq c sep)) by congruence. by rewrite IH.
Qed.

Lemma digits_no_dash s :
  forallb isDigit (chars s) = true → "-"%char ∉ chars s.
Proof.
  rewrite forallb_forall. intros Hall Hin%list_elem_of_In.
  by specialize (Hall _ Hin).
Qed.

Lemma month_piece (m : Z) :
  0 <= m < 12 →
  forallb isDigit (chars (padStart2 (pretty (m + 1)))) = true
  ∧ numberOfDigits (padStart2 (pretty (m + 1))) = m + 1
  ∧ String.length (padStart2 (pretty (m + 1))) = 2%nat.
Proof.
  intros Hm.
  assert (m = 0 ∨ m = 1 ∨ m = 2 ∨ m = 3 ∨ m = 4 ∨ m = 5 ∨ m = 6 ∨ m = 7 ∨ m = 8
          ∨ m = 9 ∨ m = 10 ∨ m = 11) as Hcases by lia.
  repeat (destruct Hcases as [->|Hcases]; [by vm_compute|]). subst m. by vm_compute.
Qed.

Lemma monthKeyToDate_pieces (date : Z) :
  0 <= date →
  monthKeyToDate (toMonthKey date)
  = DateUTC (getUTCFullYear date) (getUTCMonth date).
Proof.
  intros Hd. unfold monthKeyToDate, toMonthKey, getUTCFullYear, getUTCMonth.
  destruct (pretty_Z_digits (date / 12)) as [Hy Hny]; [by apply Z.div_pos|].
  destruct (month_piece (date mod 12)) as (Hm & Hnm & _); [by apply Z.mod_pos_bound|].
  change ("-" +:+ ?s) with (String "-"%char s).
  rewrite split_on_first by by apply digits_no_dash.
  rewrite split_on_absent by by apply digits_no_dash.
  simpl map. rewrite Hny, Hnm. f_equal. lia.
Qed.

Lemma monthKeyToDate_toMonthKey (date : Z) :
  100 <= getUTCFullYear date → monthKeyToDate (toMonthKey date) = date.
Proof.
  intros Hy. unfold getUTCFullYear in Hy.
  pose proof (Z.div_mod date 12 ltac:(lia)) as Hdm.
  pose proof (Z.mod_pos_bound date 12 ltac:(lia)) as Hmod.
  rewrite monthKeyToDate_pieces by lia.
  unfold DateUTC, getUTCFullYear, getUTCMonth.
  rewrite (proj2 (Z.leb_gt (date / 12) 99)), andb_false_r by lia. lia.
Qed.

(** X17. Month keys: the key of a month is the decimal year, a dash and
    the month in two digits, and [monthKeyToDate] reads the month back from
    it for every year from 100 on, so that distinct months have distinct
    keys. For the years 0 to 99 the key is read as a month of 1900 to 1999,
    as [Date.UTC] has it. *)
Theorem monthKey_round_trip (date : Z) :
  (100 <= getUTCFullYear date → monthKeyToDate (toMonthKey date) = date)
  ∧ (100 <= getUTCFullYear date →
     ∀ other, 100 <= getUTCFullYear other →
       toMonthKey other = toMonthKey date → other = date)
  ∧ (0 <= getUTCFullYear date <= 99 →
     monthKeyToDate (toMonthKey date) = date + 1900 * 12).
Proof.
  split_and!.
  - apply monthKeyToDate_toMonthKey.
  - intros Hy other Ho Hkey.
    by rewrite <- (monthKeyToDate_toMonthKey other Ho), Hkey, monthKeyToDate_toMonthKey.
  - intros Hy. unfold getUTCFullYear in Hy.
    pose proof (Z.div_mod date 12 ltac:(lia)) as Hdm.
    pose proof (Z.mod_pos_bound date 12 ltac:(lia)) as Hmod.
    rewrite monthKeyToDate_pieces by lia.
    unfold DateUTC, getUTCFullYear, getUTCMonth.
    rewrite (proj2 (Z.leb_le 0 (date / 12))), (proj2 (Z.leb_le (date / 12) 99)) by lia.
    cbn [andb]. lia.
Qed.

Lemma monthKey_round_trip_witness :
  monthKeyToDate (toMonthKey (DateUTC 2024 2)) = DateUTC 2024 2
  ∧ toMonthKey (DateUTC 2024 2) = "2024-03"
  ∧ monthKeyToDate (toMonthKey (12 * 50)) = DateUTC 1950 0.
Proof.
  split_and!.
  - apply (proj1 (monthKey_round_trip (DateUTC 2024 2))). by vm_compute.
  - reflexivity.
  - apply (proj2 (proj2 (monthKey_round_trip (12 * 50)))).
    by vm_compute.
Defined.

Lemma ascii_compare_Z c d :
  Ascii.compare c d = (Z.of_nat (nat_of_ascii c) ?= Z.of_nat (nat_of_ascii d)).
Proof.
  unfold Ascii.compare, nat_of_ascii. by rewrite !N_nat_Z, N2Z.inj_compare.
Qed.

Lemma string_compare_refl s : String.compare s s = Eq.
Proof.
  induction s as [|c s IH]; simpl; [done|].
  by rewrite ascii_compare_Z, Z.compare_refl.
Qed.

Lemma string_compare_app s1 s2 u1 u2 :
  String.length s1 = String.length s2 →
  String.compare (s1 +:+ u1) (s2 +:+ u2)
  = match String.compare s1 s2 with Eq => String.compare u1 u2 | r => r end.
Proof.
  revert s2. induction s1 as [|c s1 IH]; intros [|d s2] Hlen; try done.
  simpl in *. destruct (Ascii.compare c d); [|done..]. apply IH. lia.
Qed.

Lemma digits_bound s :
  forallb isDigit (chars s) = true →
  0 <= numberOfDigits s < 10 ^ Z.of_nat (String.length s).
Proof.
  induction s as [|c s IH]; unfold chars; simpl forallb; [by vm_compute|].
  intros [Hc Hs]%andb_prop. specialize (IH Hs). rewrite numberOfDigits_cons.
  cbn [String.length]. rewrite Nat2Z.inj_succ, Z.pow_succ_r by lia.
  unfold isDigit in Hc. apply andb_prop in Hc as [H1%Nat.leb_le H2%Nat.leb_le]. nia.
Qed.

Lemma digits_compare s t :
  forallb isDigit (chars s) = true → forallb isDigit (chars t) = true →
  String.length s = String.length t →
  String.compare s t = (numberOfDigits s ?= numberOfDigits t).
Proof.
  revert t. induction s as [|c s IH]; intros [|d t]; try done.
  unfold chars. simpl forallb. intros [Hc Hs]%andb_prop [Hd Ht]%andb_prop Hlen.
  simpl in Hlen. injection Hlen as Hlen.
  pose proof (digits_bound s Hs) as Bs. pose proof (digits_bound t Ht) as Bt.
  rewrite !numberOfDigits_cons, <- Hlen in *. simpl String.compare.
  rewrite ascii_compare_Z, (IH t Hs Ht Hlen).
  set (p := 10 ^ Z.of_nat (String.length s)) in *.
  set (a := Z.of_nat (nat_of_ascii c)). set (b := Z.of_nat (nat_of_ascii d)).
  destruct (Z.compare_spec a b) as [->|Hlt|Hgt].
  - destruct (Z.compare_spec (numberOfDigits s) (numberOfDigits t));
      symmetry; [apply Z.compare_eq_iff|apply Z.compare_lt_iff|apply Z.compare_gt_iff]; lia.
  - symmetry. apply Z.compare_lt_iff. nia.
  - symmetry. apply Z.compare_gt_iff. nia.
Qed.

Lemma div10_bounds (x lo hi : N) :
  (10 * lo <= x < 10 * hi → lo <= x `div` 10 < hi)%N.
Proof.
  intros [Hlo Hhi]. split.
  - by apply N.div_le_lower_bound.
  - by apply N.Div0.div_lt_upper_bound.
Qed.

Lemma pretty_year_length (year : Z) :
  1000 <= year < 10000 → String.length (pretty year) = 4%nat.
Proof.
  intros Hy. destruct year as [|p|p]; [lia| |lia].
  unfold pretty, pretty_Z, pretty, pretty_positive, pretty, pretty_N.
  destruct (decide (N.pos p = 0%N)); [done|].
  set (x := N.pos p). assert (Z.of_N x = Z.pos p) as Ex by done.
  assert (1000 <= x < 10000)%N as Hx by lia. clearbody x.
  rewrite (pretty_N_go_step x) by lia.
  set (x1 := (x `div` 10)%N). assert (100 <= x1 < 1000)%N as Hx1 by (apply div10_bounds; lia).
  clearbody x1. rewrite (pretty_N_go_step x1) by lia.
  set (x2 := (x1 `div` 10)%N). assert (10 <= x2 < 100)%N as Hx2 by (apply div10_bounds; lia).
  clearbody x2. rewrite (pretty_N_go_step x2) by lia.
  set (x3 := (x2 `div` 10)%N). assert (1 <= x3 < 10)%N as Hx3 by (apply div10_bounds; lia).
  clearbody x3. rewrite (pretty_N_go_step x3) by lia.
  by rewrite (N.div_small x3 10) by lia.
Qed.

Lemma monthKey_compare (d1 d2 : Z) :
  fourDigitYear d1 = true → fourDigitYear d2 = true →
  String.compare (toMonthKey d1) (toMonthKey d2) = (d1 ?= d2).
Proof.
  unfold fourDigitYear. intros [H1%Z.leb_le H1'%Z.ltb_lt]%andb_prop
                               [H2%Z.leb_le H2'%Z.ltb_lt]%andb_prop.
  unfold toMonthKey, getUTCFullYear, getUTCMonth.
  pose proof (Z.div_mod d1 12 ltac:(lia)) as E1.
  pose proof (Z.mod_pos_bound d1 12 ltac:(lia)) as M1.
  pose proof (Z.div_mod d2 12 ltac:(lia)) as E2.
  pose proof (Z.mod_pos_bound d2 12 ltac:(lia)) as M2.
  destruct (pretty_Z_digits (d1 / 12)) as [Hy1 Hn1]; [lia|].
  destruct (pretty_Z_digits (d2 / 12)) as [Hy2 Hn2]; [lia|].
  destruct (month_piece (d1 mod 12) M1) as (Hm1 & Hv1 & Hl1).
  destruct (month_piece (d2 mod 12) M2) as (Hm2 & Hv2 & Hl2).
  rewrite string_compare_app by (rewrite !pretty_year_length; lia).
  rewrite digits_compare, Hn1, Hn2 by (done || rewrite !pretty_year_length; lia).
  change ("-" +:+ ?s) with (String "-"%char s). simpl String.compare.
  change (Ascii.compare "-" "-") with Eq. cbv iota.
  rewrite digits_compare, Hv1, Hv2 by (done || congruence).
  destruct (Z.compare_spec (d1 / 12) (d2 / 12)) as [Hq|Hq|Hq].
  - destruct (Z.compare_spec (d1 mod 12 + 1) (d2 mod 12 + 1));
      symmetry; [apply Z.compare_eq_iff|apply Z.compare_lt_iff|apply Z.compare_gt_iff]; lia.
  - symmetry. apply Z.compare_lt_iff. lia.
  - symmetry. apply Z.compare_gt_iff. lia.
Qed.

Lemma compareStrings_le a b : compareStrings a b <= 0 ↔ String.compare a b ≠ Gt.
Proof. unfold compareStrings. destruct (String.compare a b); split; (done || lia). Qed.

Lemma compareStrings_total a b : compareStrings a b <= 0 ∨ compareStrings b a <= 0.
Proof.
  rewrite !compareStrings_le, (String.compare_antisym a b).
  destruct (String.compare b a); simpl; auto.
Qed.

Lemma string_compare_trans a b c :
  String.compare a b ≠ Gt → String.compare b c ≠ Gt → String.compare a c ≠ Gt.
Proof.
  revert b c. induction a as [|x a IH]; intros [|y b] [|z c]; simpl; try done.
  rewrite !ascii_compare_Z.
  set (nx := Z.of_nat (nat_of_ascii x)). set (ny := Z.of_nat (nat_of_ascii y)).
  set (nz := Z.of_nat (nat_of_ascii z)).
  destruct (Z.compare_spec nx ny) as [Exy|Hxy|Hxy]; [|intros _|done].
  - rewrite Exy. destruct (Z.compare_spec ny nz); [apply IH|done..].
  - destruct (Z.compare_spec ny nz) as [Eyz|Hyz|Hyz]; [| |done]; intros _.
    + by rewrite (proj2 (Z.compare_lt_iff nx nz)) by lia.
    + by rewrite (proj2 (Z.compare_lt_iff nx nz)) by lia.
Qed.

Lemma compareStrings_trans a b c :
  compareStrings a b <= 0 → compareStrings b c <= 0 → compareStrings a c <= 0.
Proof. rewrite !compareStrings_le. apply string_compare_trans. Qed.

Lemma sorted_months (keys : list string) :
  NoDup keys →
  Forall (λ k, ∃ d, fourDigitYear d = true ∧ k = toMonthKey d) keys →
  StronglySorted (cmp_le compareStrings) keys →
  StronglySorted Z.lt (map monthKeyToDate keys).
Proof.
  intros Hnd Hall Hs. induction Hs as [|k keys Hs IH Hk]; simpl; [constructor|].
  apply NoDup_cons in Hnd as [Hnot Hnd]. apply Forall_cons in Hall as [Hd Hall].
  constructor; [by apply IH|].
  apply Forall_forall. intros w (k' & -> & Hk')%list_elem_of_fmap.
  rewrite Forall_forall in Hk, Hall.
  destruct Hd as (d & Hd & ->). destruct (Hall k' Hk') as (d' & Hd' & ->).
  assert (Hy : ∀ x, fourDigitYear x = true → 100 <= getUTCFullYear x).
  { unfold fourDigitYear, getUTCFullYear. intros x [Hx%Z.leb_le _]%andb_prop.
    apply Z.div_le_lower_bound; lia. }
  rewrite !monthKeyToDate_toMonthKey by by apply Hy.
  specialize (Hk _ Hk'). unfold cmp_le in Hk. apply compareStrings_le in Hk.
  rewrite monthKey_compare in Hk by done.
  assert (d ≠ d') by (intros ->; done).
  destruct (Z.compare_spec d d'); [done|done|done].
Qed.

(** X18. The history window is chronological. When every transaction date
    lies in a year written with four digits, the months of
    [buildMonthlyData] come in strictly increasing order, each is the
    month of some transaction, and a month of a transaction that the window
    leaves out is earlier than every month in it: the window holds the most
    recent months, six at most. The order of the keys as strings is the
    order of the months. *)
Theorem buildMonthlyData_window (transactions : list Transaction) :
  let window := map md_date (buildMonthlyData transactions) in
  Forall (λ d, fourDigitYear d = true) (monthsOf transactions) →
  StronglySorted Z.lt window
  ∧ (∀ d, d ∈ window → d ∈ monthsOf transactions)
  ∧ (∀ d w, d ∈ monthsOf transactions → w ∈ window → d ∈ window ∨ d < w)
  ∧ map md_key (buildMonthlyData transactions) = map toMonthKey window
  ∧ (length window ≤ MAX_HISTORY)%nat.
Proof.
  intros window Hall. subst window. unfold buildMonthlyData, slice_last.
  set (monthBuckets := foldl bucketTransaction [] transactions).
  destruct (bucketFold_inv [] [] transactions) as [Hnd Hkeys].
  { split; [constructor|]. intros k. simpl. done. }
  simpl in Hnd, Hkeys. fold monthBuckets in Hnd, Hkeys.
  assert (Hkey : ∀ k, k ∈ map_keys monthBuckets ↔
            ∃ d, d ∈ monthsOf transactions ∧ k = toMonthKey d).
  { intros k. rewrite Hkeys, list_elem_of_omap. unfold monthsOf. split.
    - intros (t & Ht & Hk). destruct (date t) as [d|] eqn:Ed; [|done].
      injection Hk as <-. exists d. split; [|done].
      apply list_elem_of_omap. by exists t.
    - intros (d & (t & Ht & Hd)%list_elem_of_omap & ->). exists t.
      split; [done|]. by rewrite Hd. }
  rewrite Forall_forall in Hall.
  assert (Hy : ∀ x, fourDigitYear x = true → 100 <= getUTCFullYear x).
  { unfold fourDigitYear, getUTCFullYear. intros x [Hx%Z.leb_le _]%andb_prop.
    apply Z.div_le_lower_bound; lia. }
  set (sorted := array_sort compareStrings (map_keys monthBuckets)).
  assert (Hsorted : StronglySorted Z.lt (map monthKeyToDate sorted)).
  { apply sorted_months.
    - unfold sorted. by rewrite array_sort_perm.
    - apply Forall_forall. intros k Hk%array_sort_elem_of.
      apply Hkey in Hk as (d & Hd & ->). exists d. split; [by apply Hall|done].
    - apply array_sort_sorted; [apply compareStrings_total|apply compareStrings_trans]. }
  set (n := (length sorted - MAX_HISTORY)%nat).
  rewrite !map_map. cbn [md_date md_key monthlyEntry].
  rewrite <- (take_drop n sorted), map_app in Hsorted.
  apply StronglySorted_app in Hsorted as (Hcross & _ & Hwindow).
  assert (Hin : ∀ k, k ∈ drop n sorted → ∃ d, d ∈ monthsOf transactions ∧ k = toMonthKey d).
  { intros k Hk%(subseteq_drop n)%array_sort_elem_of. by apply Hkey. }
  split_and!.
  - done.
  - intros d (k & -> & Hk)%list_elem_of_fmap.
    destruct (Hin k Hk) as (d & Hd & ->).
    by rewrite monthKeyToDate_toMonthKey by by apply Hy, Hall.
  - intros d w Hd Hw.
    assert (Hk : toMonthKey d ∈ sorted).
    { apply array_sort_elem_of, Hkey. by exists d. }
    rewrite <- (take_drop n sorted) in Hk. apply elem_of_app in Hk as [Hk|Hk].
    + right. rewrite <- (monthKeyToDate_toMonthKey d) by by apply Hy, Hall.
      apply Hcross; [|done]. by apply (list_elem_of_fmap_2 monthKeyToDate).
    + left. rewrite <- (monthKeyToDate_toMonthKey d) by by apply Hy, Hall.
      by apply (list_elem_of_fmap_2 monthKeyToDate).
  - apply map_ext_in. intros k Hk%list_elem_of_In.
    destruct (Hin k Hk) as (d & Hd & ->).
    by rewrite monthKeyToDate_toMonthKey by by apply Hy, Hall.
  - rewrite length_map, length_drop. unfold n. lia.
Qed.

Lemma buildMonthlyData_window_witness :
  map md_date (buildMonthlyData scenarioShuffled)
  = [DateUTC 2024 0; DateUTC 2024 1; DateUTC 2024 2]
  ∧ StronglySorted Z.lt (map md_date (buildMonthlyData scenarioShuffled)).
Proof.
  split; [by vm_compute|].
  apply (buildMonthlyData_window scenarioShuffled).
  apply Forall_forall. intros d Hd. apply list_elem_of_lookup_1 in Hd as [i Hd].
  vm_compute in Hd. repeat (destruct i as [|i]; [by injection Hd as <-|]). done.
Defined.

Lemma bucketFold_valid monthBuckets transactions :
  foldl bucketTransaction monthBuckets transactions
  = foldl bucketTransaction monthBuckets (filter validDate transactions).
Proof.
  revert monthBuckets. induction transactions as [|t l IH]; intros mb; [done|].
  destruct (validDate t) eqn:Ev.
  - rewrite filter_cons_True by by apply Is_true_true. simpl. apply IH.
  - rewrite filter_cons_False by by apply Is_true_false. simpl.
    assert (E : bucketTransaction mb t = mb).
    { unfold validDate in Ev. unfold bucketTransaction. by destruct (date t). }
    rewrite E. apply IH.
Qed.

(** X19. Transactions whose date does not parse take no part: the monthly
    data, and with it the whole projection, is that of the transactions with
    a valid date. A ledger that holds only such transactions is reported as
    insufficient history, not as a ledger still being collected. *)
Theorem invalid_dates_ignored (now : Z) (transactions : list Transaction) :
  buildMonthlyData transactions = buildMonthlyData (filter validDate transactions)
  ∧ (transactions ≠ [] → filter validDate transactions = [] →
     ∀ balance, buildFinancialProjection now transactions (BalanceNumber balance)
                = NoData insufficient)
  ∧ (filter validDate transactions ≠ [] →
     ∀ currentBalance,
       buildFinancialProjection now transactions currentBalance
       = buildFinancialProjection now (filter validDate transactions) currentBalance).
Proof.
  assert (Hdata : buildMonthlyData transactions
                  = buildMonthlyData (filter validDate transactions)).
  { unfold buildMonthlyData. by rewrite <- bucketFold_valid. }
  split_and!; [done| |].
  - intros Hne Hnone balance. unfold buildFinancialProjection.
    destruct transactions as [|t l]; [done|]. by rewrite Hdata, Hnone.
  - intros Hsome currentBalance. unfold buildFinancialProjection.
    destruct transactions as [|t l]; [done|]. rewrite Hdata.
    by destruct (filter validDate (t :: l)).
Qed.

Lemma invalid_dates_ignored_witness :
  buildFinancialProjection 0 withInvalidDates (BalanceNumber 5000)
  = buildFinancialProjection 0 (filter validDate withInvalidDates) (BalanceNumber 5000)
  ∧ buildFinancialProjection 0 (take 1 withInvalidDates) (BalanceNumber 5000)
    = NoData insufficient.
Proof.
  split.
  - apply (proj2 (proj2 (invalid_dates_ignored 0 withInvalidDates))). by vm_compute.
  - apply (proj1 (proj2 (invalid_dates_ignored 0 (take 1 withInvalidDates))));
      by vm_compute.
Defined.

Lemma filter_snoc {A : Type} (f : A → bool) (l : list A) (x : A) :
  filter f (l ++ [x]) = filter f l ++ (if f x then [x] else []).
Proof.
  rewrite filter_app. f_equal. destruct (f x) eqn:E.
  - by rewrite filter_cons_True by by apply Is_true_true.
  - by rewrite filter_cons_False by by apply Is_true_false.
Qed.

Lemma bucketOf_new : bucketOf [] newBucket.
Proof. by split_and!. Qed.

Lemma recordTransaction_bucketOf recorded bucket t :
  bucketOf recorded bucket → bucketOf (recorded ++ [t]) (recordTransaction bucket t).
Proof.
  intros (Hs & Hi & Hp & Hin & Hsp).
  assert (HE : isIncome t = PrimFloat.ltb (amountRead t) 0) by done.
  unfold recordTransaction. change (num_or (amount t) 0) with (amountRead t).
  unfold bucketOf. rewrite !filter_snoc, HE.
  destruct (PrimFloat.ltb (amountRead t) 0); cbn [negb];
    cbn [mb_income mb_spending mb_incomeEvents mb_spendingEvents mb_sampleTransactions];
    rewrite ?app_nil_r, ?map_app, ?foldl_app; cbn [map foldl];
    rewrite Hs, <- Hin, <- Hsp, <- Hi, <- Hp; by split_and!.
Qed.

Lemma bucketTransaction_bucketsInv seen monthBuckets t :
  bucketsInv seen monthBuckets →
  bucketsInv (seen ++ [t]) (bucketTransaction monthBuckets t).
Proof.
  intros [Hkeys Hall]. split; [by apply bucketTransaction_inv|].
  intros k bucket. rewrite filter_snoc. destruct (date t) as [d|] eqn:Ed.
  - destruct (month_bucket_after monthBuckets t d Ed) as [Hget Hother].
    assert (Hm : inMonth k t = String.eqb (toMonthKey d) k).
    { unfold inMonth. by rewrite Ed. }
    rewrite Hm. clear Hm. destruct (String.eqb_spec (toMonthKey d) k) as [<-|Hne].
    + rewrite Hget. intros [= <-]. apply recordTransaction_bucketOf.
      destruct (map_get (toMonthKey d) monthBuckets) as [b|] eqn:Eget; simpl.
      * by apply Hall.
      * rewrite filter_none; [apply bucketOf_new|].
        intros t' Ht'. unfold inMonth.
        destruct (date t') as [d'|] eqn:Ed'; [|by apply Is_true_false].
        intros Heq%Is_true_true%String.eqb_eq.
        apply map_get_None in Eget. apply Eget, Hkeys.
        apply list_elem_of_omap. exists t'. split; [done|].
        rewrite Ed'. simpl. by rewrite Heq.
    + rewrite Hother, app_nil_r by done. apply Hall.
  - assert (Hm : inMonth k t = false) by (unfold inMonth; by rewrite Ed).
    unfold bucketTransaction. rewrite Hm, Ed, app_nil_r. apply Hall.
Qed.

Lemma bucketFold_bucketsInv seen monthBuckets l :
  bucketsInv seen monthBuckets →
  bucketsInv (seen ++ l) (foldl bucketTransaction monthBuckets l).
Proof.
  revert seen monthBuckets. induction l as [|t l IH]; intros seen mb Hinv; simpl.
  - by rewrite app_nil_r.
  - rewrite (cons_middle t seen l), app_assoc. by apply IH, bucketTransaction_bucketsInv.
Qed.

Lemma filter_partition_length {A : Type} (f : A → bool) (l : list A) :
  (length (filter f l) + length (filter (λ x, negb (f x)) l) = length l)%nat.
Proof.
  induction l as [|x l IH]; [done|]. destruct (f x) eqn:E.
  - rewrite filter_cons_True by by apply Is_true_true.
    rewrite filter_cons_False by (rewrite E; simpl; auto). simpl. lia.
  - rewrite filter_cons_False by by apply Is_true_false.
    rewrite filter_cons_True by (by rewrite E). simpl. lia.
Qed.

Lemma monthly_entries transactions entry :
  entry ∈ buildMonthlyData transactions →
  ∃ bucket, bucketOf (filter (inMonth (md_key entry)) transactions) bucket
    ∧ filter (inMonth (md_key entry)) transactions ≠ []
    ∧ entry = monthlyEntry [(md_key entry, bucket)] (md_key entry).
Proof.
  unfold buildMonthlyData, slice_last.
  intros (k & -> & Hk%subseteq_drop%array_sort_elem_of)%list_elem_of_fmap.
  destruct (bucketFold_bucketsInv [] [] transactions) as [[Hnd Hkeys] Hall].
  { split; [split; [constructor|done]|]. intros k' b. done. }
  simpl in Hnd, Hkeys, Hall. cbn [md_key monthlyEntry].
  destruct (map_get k (foldl bucketTransaction [] transactions)) as [bucket|] eqn:Eget.
  2: { apply map_get_None in Eget. done. }
  exists bucket. split_and!.
  - by apply Hall.
  - apply Hkeys, list_elem_of_omap in Hk as (t & Ht & Hd).
    intros Hnone. assert (Hin : t ∈ filter (inMonth k) transactions); [|by rewrite Hnone in Hin; apply elem_of_nil in Hin].
    apply list_elem_of_filter. split; [|done]. unfold inMonth.
    destruct (date t) as [d|]; [|done]. injection Hd as <-. by rewrite String.eqb_refl.
  - unfold monthlyEntry. simpl. by rewrite String.eqb_refl, Eget.
Qed.

(** X20. What a month of the monthly data holds. Its sample transactions
    are the transactions of that month, in ledger order, and there is at
    least one; its income events are the absolute amounts of those with a
    negative amount and its spending events the amounts of the others, so
    every transaction of the month is one event; income and spending are
    the sums of the events, added from 0 in ledger order, and the net is
    their difference. *)
Theorem buildMonthlyData_months (transactions : list Transaction) (entry : MonthlyData) :
  entry ∈ buildMonthlyData transactions →
  let recorded := filter (inMonth (md_key entry)) transactions in
  recorded ≠ []
  ∧ md_sampleTransactions entry = recorded
  ∧ md_incomeEvents entry
    = map (λ t, PrimFloat.abs (amountRead t)) (filter isIncome recorded)
  ∧ md_spendingEvents entry
    = map amountRead (filter (λ t, negb (isIncome t)) recorded)
  ∧ (length (md_incomeEvents entry) + length (md_spendingEvents entry)
     = length recorded)%nat
  ∧ md_income entry = foldl PrimFloat.add 0%float (md_incomeEvents entry)
  ∧ md_spending entry = foldl PrimFloat.add 0%float (md_spendingEvents entry)
  ∧ md_net entry = (md_income entry - md_spending entry)%float.
Proof.
  intros Hin recorded. subst recorded.
  destruct (monthly_entries transactions entry Hin)
    as (bucket & (Hs & Hi & Hp & Hinc & Hsp) & Hne & Hentry).
  assert (Hfields : md_sampleTransactions entry = mb_sampleTransactions bucket
                    ∧ md_incomeEvents entry = mb_incomeEvents bucket
                    ∧ md_spendingEvents entry = mb_spendingEvents bucket
                    ∧ md_income entry = mb_income bucket
                    ∧ md_spending entry = mb_spending bucket
                    ∧ md_net entry = (mb_income bucket - mb_spending bucket)%float).
  { rewrite Hentry. unfold monthlyEntry. simpl. by rewrite String.eqb_refl. }
  destruct Hfields as (-> & -> & -> & -> & -> & ->).
  split_and!; try done.
  rewrite Hi, Hp, !length_map. apply filter_partition_length.
Qed.

Lemma buildMonthlyData_months_witness :
  ∃ entry, buildMonthlyData scenarioShuffled !! 2%nat = Some entry
    ∧ md_sampleTransactions entry = filter (inMonth "2024-03") scenarioShuffled
    ∧ length (md_sampleTransactions entry) = 3%nat.
Proof.
  eexists. split; [reflexivity|]. split; [|reflexivity].
  refine (proj1 (proj2 (buildMonthlyData_months scenarioShuffled _ _))).
  apply (list_elem_of_lookup_2 _ 2%nat). reflexivity.
Defined.
